(** * A shallow embedding of the SwiftUI view-hierarchy parser (src/parser.js)

    JavaScript strings are sequences of UTF-16 code units, indices are
    integers, and reading past either end of a string gives [undefined].
    The parser's loops are written as recursive functions on a counter
    that bounds the distance to the end of the text. *)

From Stdlib Require Import ZArith Ascii String List Lia Bool Sorted Permutation.
From stdpp Require Import base list gmap.
Import ListNotations.

Local Open Scope Z_scope.

(** ** JavaScript strings *)

Module JS.

Definition jsstring := list N.

(** An ASCII literal as a JavaScript string. *)
Definition lit (s : string) : jsstring :=
  map N_of_ascii (list_ascii_of_string s).

Definition chr (a : ascii) : N := N_of_ascii a.

Definition QUOTE : N := 34.
Definition BACKSLASH : N := 92.
Definition NEWLINE : N := 10.
Definition SPACE : N := 32.
(** U+2026, the one-unit ellipsis that [normalizeValue] appends. *)
Definition ELLIPSIS : N := 8230.

Definition len (s : jsstring) : Z := Z.of_nat (length s).

(** [s[i]]: [None] is JavaScript's [undefined]. *)
Definition charAt (s : jsstring) (i : Z) : option N :=
  if i <? 0 then None else s !! Z.to_nat i.

(** [s[i] === c] *)
Definition charIs (s : jsstring) (i : Z) (c : N) : bool :=
  match charAt s i with
  | Some x => N.eqb x c
  | None => false
  end.

(** [p.test(s[i])] for a one-character class [p], at an index known to be
    inside the string by the loop condition that guards it. *)
Definition charIn (p : N -> bool) (s : jsstring) (i : Z) : bool :=
  match charAt s i with
  | Some x => p x
  | None => false
  end.

Definition clampIndex (s : jsstring) (k : Z) : Z :=
  if k <? 0 then Z.max (len s + k) 0 else Z.min k (len s).

(** [s.slice(a, b)], negative indices counting from the end. *)
Definition slice (s : jsstring) (a b : Z) : jsstring :=
  let from := clampIndex s a in
  let to := clampIndex s b in
  take (Z.to_nat (to - from)) (drop (Z.to_nat from) s).

(** [s.slice(a)] *)
Definition sliceFrom (s : jsstring) (a : Z) : jsstring :=
  slice s a (len s).

Definition eqb (a b : jsstring) : bool := bool_decide (a = b).

(** [arr.includes(x)] on an array of strings. *)
Definition includes (arr : list jsstring) (x : jsstring) : bool :=
  existsb (eqb x) arr.

(** *** Character classes of the regular expressions *)

Definition inRange (lo hi c : N) : bool := (N.leb lo c && N.leb c hi)%bool.

(** [\s], which is also the set that [trim] removes: WhiteSpace and
    LineTerminator of ECMA-262. *)
Definition isSpace (c : N) : bool :=
  (inRange 9 13 c || N.eqb c 32 || N.eqb c 160 || N.eqb c 5760
   || inRange 8192 8202 c || N.eqb c 8232 || N.eqb c 8233 || N.eqb c 8239
   || N.eqb c 8287 || N.eqb c 12288 || N.eqb c 65279)%bool.

(** [[A-Za-z0-9_]], which is [\w]. *)
Definition isWordChar (c : N) : bool :=
  (inRange 65 90 c || inRange 97 122 c || inRange 48 57 c || N.eqb c 95)%bool.

(** [[A-Za-z0-9_\.]] *)
Definition isIdentChar (c : N) : bool := (isWordChar c || N.eqb c 46)%bool.

(** [[\s,]] *)
Definition isSpaceOrComma (c : N) : bool := (isSpace c || N.eqb c 44)%bool.

(** [[\n\r\t]] *)
Definition isLineBreakOrTab (c : N) : bool :=
  (N.eqb c 10 || N.eqb c 13 || N.eqb c 9)%bool.

(** *** trim *)

Fixpoint dropWhile (p : N -> bool) (s : jsstring) : jsstring :=
  match s with
  | [] => []
  | c :: s' => if p c then dropWhile p s' else s
  end.

Fixpoint takeWhile (p : N -> bool) (s : jsstring) : jsstring :=
  match s with
  | [] => []
  | c :: s' => if p c then c :: takeWhile p s' else []
  end.

Definition trimStart (s : jsstring) : jsstring := dropWhile isSpace s.
Definition trimEnd (s : jsstring) : jsstring :=
  reverse (dropWhile isSpace (reverse s)).
Definition trim (s : jsstring) : jsstring := trimEnd (trimStart s).

(** A string is truthy when it is not empty. *)
Definition truthy (s : jsstring) : bool :=
  match s with [] => false | _ => true end.

(** *** Global replace of runs of a character class

    [s.replace(/[p]{min,}/g, ' ')]: every maximal run of [p]-characters of
    length at least [min] becomes one space; shorter runs stay. [run] is
    the run read so far. *)
Definition flushRun (min : nat) (run : jsstring) : jsstring :=
  if (min <=? length run)%nat then [SPACE] else run.

Fixpoint replaceRunsFrom (p : N -> bool) (min : nat) (run s : jsstring)
  : jsstring :=
  match s with
  | [] => flushRun min run
  | c :: s' =>
      if p c then replaceRunsFrom p min (run ++ [c]) s'
      else flushRun min run ++ c :: replaceRunsFrom p min [] s'
  end.

(** [min] is 1 for [+] and 2 for [{2,}]. *)
Definition replaceRuns (p : N -> bool) (min : nat) (s : jsstring) : jsstring :=
  replaceRunsFrom p min [] s.

(** The string that [cur += s[i]] appends. *)
Definition charStr (s : jsstring) (i : Z) : jsstring :=
  match charAt s i with
  | Some c => [c]
  | None => lit "undefined"
  end.

End JS.

Import JS.

(** ** Lexical scanner *)

Definition CONTAINER_TYPES : list jsstring :=
  map lit ["VStack"; "HStack"; "ZStack"; "ScrollView"; "List"; "Group";
           "ForEach"; "Section"; "Form"; "TabView"; "NavigationStack";
           "NavigationView"; "LazyVStack"; "LazyHStack"; "LazyVGrid";
           "LazyHGrid"; "Grid"; "ZStack"; "GeometryReader"; "AnyView"]%string.

(** The [while (i < n)] loop of [readString]; [fuel] bounds [n - i]. *)
Fixpoint readString_loop (fuel : nat) (text : jsstring) (i : Z) : Z :=
  match fuel with
  | O => len text - 1
  | S fuel' =>
      if i <? len text then
        if charIs text i BACKSLASH then readString_loop fuel' text (i + 2)
        else if charIs text i QUOTE then i
        else readString_loop fuel' text (i + 1)
      else len text - 1
  end.

Definition readString (text : jsstring) (start : Z) : Z :=
  readString_loop (Z.to_nat (len text - (start + 1))) text (start + 1).

(** The [while (i < n - 2)] loop of [readTripleQuoted]. *)
Fixpoint readTripleQuoted_loop (fuel : nat) (text : jsstring) (i : Z) : Z :=
  match fuel with
  | O => len text - 1
  | S fuel' =>
      if i <? len text - 2 then
        if charIs text i QUOTE && charIs text (i + 1) QUOTE
           && charIs text (i + 2) QUOTE
        then i + 2
        else readTripleQuoted_loop fuel' text (i + 1)
      else len text - 1
  end.

Definition readTripleQuoted (text : jsstring) (start : Z) : Z :=
  readTripleQuoted_loop (Z.to_nat (len text - 2 - (start + 3))) text (start + 3).

Definition readSwiftString (text : jsstring) (start : Z) : Z :=
  if negb (charIs text start QUOTE) then start
  else if charIs text (start + 1) QUOTE && charIs text (start + 2) QUOTE
       then readTripleQuoted text start
       else readString text start.

(** [while (i < n && text[i] !== '\n') i++] of the line-comment branch. *)
Fixpoint skipLineComment (fuel : nat) (text : jsstring) (i : Z) : Z :=
  match fuel with
  | O => i
  | S fuel' =>
      if (i <? len text) && negb (charIs text i NEWLINE)
      then skipLineComment fuel' text (i + 1)
      else i
  end.

(** [while (i < n && !(text[i] === '*' && text[i + 1] === '/')) i++] *)
Fixpoint skipBlockComment (fuel : nat) (text : jsstring) (i : Z) : Z :=
  match fuel with
  | O => i
  | S fuel' =>
      if (i <? len text)
         && negb (charIs text i (chr "*") && charIs text (i + 1) (chr "/"))
      then skipBlockComment fuel' text (i + 1)
      else i
  end.

Definition lineCommentEnd (text : jsstring) (i : Z) : Z :=
  skipLineComment (Z.to_nat (len text - i)) text i.

Definition blockCommentEnd (text : jsstring) (i : Z) : Z :=
  skipBlockComment (Z.to_nat (len text - (i + 2))) text (i + 2).

Record Block := mkBlock { inner : jsstring; blockEnd : Z }.

(** The [for (; i < n; i++)] loop of [readBalanced]. *)
Fixpoint readBalanced_loop (fuel : nat) (text : jsstring) (openPos : Z)
    (openChar closeChar : N) (depth i : Z) : option Block :=
  match fuel with
  | O => None
  | S fuel' =>
      if i <? len text then
        if charIs text i QUOTE then
          readBalanced_loop fuel' text openPos openChar closeChar depth
            (readSwiftString text i + 1)
        else if charIs text i (chr "/") && charIs text (i + 1) (chr "/") then
          readBalanced_loop fuel' text openPos openChar closeChar depth
            (lineCommentEnd text i + 1)
        else if charIs text i (chr "/") && charIs text (i + 1) (chr "*") then
          readBalanced_loop fuel' text openPos openChar closeChar depth
            (blockCommentEnd text i + 1 + 1)
        else if charIs text i openChar then
          readBalanced_loop fuel' text openPos openChar closeChar (depth + 1)
            (i + 1)
        else if charIs text i closeChar then
          if depth - 1 =? 0
          then Some (mkBlock (slice text (openPos + 1) i) i)
          else readBalanced_loop fuel' text openPos openChar closeChar
                 (depth - 1) (i + 1)
        else readBalanced_loop fuel' text openPos openChar closeChar depth
               (i + 1)
      else None
  end.

(** [readBalanced(text, openPos, openChar, closeChar)]; [None] is [null]. *)
Definition readBalanced (text : jsstring) (openPos : Z) (openChar closeChar : N)
  : option Block :=
  if negb (charIs text openPos openChar) then None
  else readBalanced_loop (Z.to_nat (len text - openPos)) text openPos
         openChar closeChar 0 openPos.

(** ** Argument lists and props *)

Record SplitState := mkSplit
  { sa_i : Z; sa_depth : Z; sa_cur : jsstring; sa_parts : list jsstring }.

(** One iteration of the [for] loop of [splitArgs], including its [i++]. *)
Definition splitArgs_step (s : jsstring) (st : SplitState) : SplitState :=
  let i := sa_i st in
  if charIs s i QUOTE then
    let e := readSwiftString s i in
    mkSplit (e + 1) (sa_depth st) (sa_cur st ++ slice s i (e + 1)) (sa_parts st)
  else
    let depth :=
      if charIs s i (chr "(") then sa_depth st + 1
      else if charIs s i (chr ")") then sa_depth st - 1
      else sa_depth st in
    if charIs s i (chr ",") && (depth =? 0)
    then mkSplit (i + 1) depth [] (sa_parts st ++ [trim (sa_cur st)])
    else mkSplit (i + 1) depth (sa_cur st ++ charStr s i) (sa_parts st).

Fixpoint splitArgs_loop (fuel : nat) (s : jsstring) (st : SplitState)
  : SplitState :=
  match fuel with
  | O => st
  | S fuel' =>
      if sa_i st <? len s
      then splitArgs_loop fuel' s (splitArgs_step s st)
      else st
  end.

Definition splitArgs_init : SplitState := mkSplit 0 0 [] [].

Definition splitArgs (s : jsstring) : list jsstring :=
  let st := splitArgs_loop (length s) s splitArgs_init in
  if truthy (trim (sa_cur st))
  then sa_parts st ++ [trim (sa_cur st)]
  else sa_parts st.

(** The text [single] that [normalizeValue] computes before truncating. *)
Definition normalizedText (val : jsstring) : jsstring :=
  trim (replaceRuns isSpace 2 (replaceRuns isLineBreakOrTab 1 val)).

Definition normalizeValue (val : jsstring) : jsstring :=
  let single := normalizedText val in
  if len single >? 60 then slice single 0 57 ++ [ELLIPSIS] else single.

(** [/^(\w+)\s*:\s*([\s\S]+)$/.exec(p)]: the two groups. The greedy
    [\s*] after the colon gives one character back when nothing else is
    left for the last group. *)
Definition matchLabelled (p : jsstring) : option (jsstring * jsstring) :=
  let key := takeWhile isWordChar p in
  match key with
  | [] => None
  | _ =>
      match dropWhile isSpace (drop (length key) p) with
      | c :: afterColon =>
          if N.eqb c (chr ":") then
            match dropWhile isSpace afterColon with
            | [] => match last afterColon with
                    | Some w => Some (key, [w])
                    | None => None
                    end
            | v => Some (key, v)
            end
          else None
      | [] => None
      end
  end.

Definition propOfArg (p : jsstring) : jsstring :=
  match matchLabelled p with
  | Some (key, val) => key ++ lit ": " ++ normalizeValue val
  | None => normalizeValue p
  end.

Definition parsePropsFromArgs (argsText : jsstring) : list jsstring :=
  if negb (truthy argsText) || negb (truthy (trim argsText)) then []
  else map propOfArg (splitArgs argsText).

(** ** Expressions *)

(** [while (i < n && p.test(text[i])) i++] *)
Fixpoint skipWhile_loop (fuel : nat) (p : N -> bool) (text : jsstring) (i : Z)
  : Z :=
  match fuel with
  | O => i
  | S fuel' =>
      if (i <? len text) && charIn p text i
      then skipWhile_loop fuel' p text (i + 1)
      else i
  end.

Definition skipWhile (p : N -> bool) (text : jsstring) (i : Z) : Z :=
  skipWhile_loop (Z.to_nat (len text - i)) p text i.

(** [!c || /[^A-Za-z0-9_]/.test(c)] for [c = text[k]] *)
Definition missingOrNonWord (text : jsstring) (k : Z) : bool :=
  match charAt text k with
  | None => true
  | Some c => negb (isWordChar c)
  end.

(** [/[^A-Za-z0-9_]/.test(text[k])]; [undefined] is tested as the string
    "undefined", which has no such character. *)
Definition nonWordAt (text : jsstring) (k : Z) : bool :=
  match charAt text k with
  | None => false
  | Some c => negb (isWordChar c)
  end.

Definition isWordAt (text : jsstring) (index : Z) (word : jsstring) : bool :=
  if negb (eqb (slice text index (index + len word)) word) then false
  else
    let isBoundaryBefore := (index =? 0) || nonWordAt text (index - 1) in
    let isBoundaryAfter := missingOrNonWord text (index + len word) in
    isBoundaryBefore && isBoundaryAfter.

(** The [for] loop of [stripLeadingClosureParams]; [inStr] stays false. *)
Fixpoint stripParams_loop (fuel : nat) (text : jsstring)
    (i depthParen depthBrace : Z) : jsstring :=
  match fuel with
  | O => text
  | S fuel' =>
      if i <? len text then
        if charIs text i QUOTE then
          stripParams_loop fuel' text (readSwiftString text i + 1)
            depthParen depthBrace
        else
          let depthParen' :=
            if charIs text i (chr "(") then depthParen + 1
            else if charIs text i (chr ")") then depthParen - 1
            else depthParen in
          let depthBrace' :=
            if charIs text i (chr "{") then depthBrace + 1
            else if charIs text i (chr "}") then depthBrace - 1
            else depthBrace in
          if (depthParen' =? 0) && (depthBrace' =? 0)
             && charIs text i (chr "i") && charIs text (i + 1) (chr "n")
             && missingOrNonWord text (i - 1) && missingOrNonWord text (i + 2)
          then trimStart (sliceFrom text (i + 2))
          else stripParams_loop fuel' text (i + 1) depthParen' depthBrace'
      else text
  end.

Definition stripLeadingClosureParams (text : jsstring) : jsstring :=
  let i := skipWhile isSpace text 0 in
  stripParams_loop (Z.to_nat (len text - i)) text i 0 0.

(** The [do { ... } while (j < n && d > 0)] scan over a parenthesized
    list, from the opening parenthesis at [j]; the pair is the final
    [(j, d)]. [fuel] counts the iterations after the first. *)
Fixpoint parenScan_loop (fuel : nat) (s : jsstring) (j d : Z) : Z * Z :=
  let d' :=
    if charIs s j (chr "(") then d + 1
    else if charIs s j (chr ")") then d - 1
    else d in
  match fuel with
  | O => (j + 1, d')
  | S fuel' =>
      if (j + 1 <? len s) && (d' >? 0)
      then parenScan_loop fuel' s (j + 1) d'
      else (j + 1, d')
  end.

Definition parenScan (s : jsstring) (j : Z) : Z * Z :=
  parenScan_loop (Z.to_nat (len s - (j + 1))) s j 0.

(** [/^ForEach(\b|$)/.test(name)] *)
Definition isForEachName (name : jsstring) : bool :=
  eqb (take 7 name) (lit "ForEach")
  && match name !! 7%nat with
     | None => true
     | Some c => negb (isWordChar c)
     end.

(** The second regular expression of [parseViewExpression]: an exact
    match against one of its alternatives. *)
Definition containerNames : list jsstring :=
  map lit ["VStack"; "HStack"; "ZStack"; "ScrollView"; "List"; "Group";
           "Section"; "Form"; "TabView"; "NavigationStack"; "NavigationView";
           "LazyVStack"; "LazyHStack"; "LazyVGrid"; "LazyHGrid"; "Grid";
           "GeometryReader"]%string.

Definition isContainerName (name : jsstring) : bool :=
  includes containerNames name.

(** [/content\s*:\s*\{/] matched at position [p] of [s]: the index after
    the match. *)
Definition matchContentAt (s : jsstring) (p : Z) : option Z :=
  if eqb (slice s p (p + 7)) (lit "content") then
    let a := skipWhile isSpace s (p + 7) in
    if charIs s a (chr ":") then
      let b := skipWhile isSpace s (a + 1) in
      if charIs s b (chr "{") then Some (b + 1) else None
    else None
  else None.

(** [exec]: the leftmost match, as [(m.index, m[0].length)]. *)
Fixpoint findContent_loop (fuel : nat) (s : jsstring) (p : Z) : option (Z * Z) :=
  match fuel with
  | O => None
  | S fuel' =>
      match matchContentAt s p with
      | Some e => Some (p, e - p)
      | None => findContent_loop fuel' s (p + 1)
      end
  end.

Definition findContent (s : jsstring) : option (Z * Z) :=
  findContent_loop (length s) s 0.

(** The modifier loop over [tail]; the accumulator [cur] of the source
    never reaches the result and is left out. *)
Fixpoint modifiers_loop (fuel : nat) (tail : jsstring) (k depth : Z)
    (mods : list jsstring) : list jsstring :=
  match fuel with
  | O => mods
  | S fuel' =>
      if k <? len tail then
        if charIs tail k QUOTE then
          modifiers_loop fuel' tail (readSwiftString tail k + 1) depth mods
        else
          let depth' :=
            if charIs tail k (chr "(") then depth + 1
            else if charIs tail k (chr ")") then depth - 1
            else depth in
          if charIs tail k (chr ".") && (depth' =? 0) then
            let j1 := skipWhile isWordChar tail (k + 1) in
            let name := slice tail (k + 1) j1 in
            let j := skipWhile isSpace tail j1 in
            if (j <? len tail) && charIs tail j (chr "(") then
              let t := fst (parenScan tail j) in
              let args := slice tail (j + 1) (t - 1) in
              modifiers_loop fuel' tail (t - 1 + 1) depth'
                (mods ++ [if truthy args
                          then name ++ lit "(" ++ trim args ++ lit ")"
                          else name])
            else
              modifiers_loop fuel' tail (j - 1 + 1) depth' (mods ++ [name])
          else modifiers_loop fuel' tail (k + 1) depth' mods
      else mods
  end.

Definition parseModifiers (tail : jsstring) : list jsstring :=
  modifiers_loop (length tail) tail 0 0 [].

(** ** View nodes *)

Inductive Kind := View | Container | ForEach | If | Branch | CustomView.

Global Instance Kind_eq_dec : EqDecision Kind.
Proof. solve_decision. Defined.

Local Unset Elimination Schemes.

(** [props] is [None] on an object built without a [props] field. *)
Inductive ViewNode :=
  Node (kind : Kind) (name : jsstring) (modifiers : list jsstring)
       (children : list ViewNode) (props : option (list jsstring)).

Local Set Elimination Schemes.

Definition kind (t : ViewNode) : Kind := let 'Node k _ _ _ _ := t in k.
Definition name (t : ViewNode) : jsstring := let 'Node _ x _ _ _ := t in x.
Definition modifiers (t : ViewNode) : list jsstring :=
  let 'Node _ _ m _ _ := t in m.
Definition children (t : ViewNode) : list ViewNode :=
  let 'Node _ _ _ c _ := t in c.
Definition props (t : ViewNode) : option (list jsstring) :=
  let 'Node _ _ _ _ p := t in p.

Definition Parser := jsstring -> option (list ViewNode).

Section Expression.

(** [parseChildrenBlock], which the three parsing functions call on the
    text of a nested block. *)
Variable parseChildren : Parser.

(** The [content: { ... }] closure of a [ForEach] argument tail: the
    children and the index after the closure. *)
Definition parseContentClosure (s : jsstring) (j : Z)
  : option (list ViewNode * Z) :=
  match findContent (sliceFrom s j) with
  | Some (index, mlen) =>
      let pos := j + index + mlen - 1 in
      match readBalanced s pos (chr "{") (chr "}") with
      | Some blk =>
          kids ← parseChildren (stripLeadingClosureParams (inner blk));
          Some (kids, blockEnd blk + 1)
      | None => Some ([], j)
      end
  | None => Some ([], j)
  end.

(** The index of the optional argument list of the trimmed expression
    [s]: after the base token and the white space that follows it. *)
Definition baseTokenEnd (s : jsstring) : Z :=
  skipWhile isIdentChar s (skipWhile isSpace s 0).

Definition argsOpen (s : jsstring) : Z := skipWhile isSpace s (baseTokenEnd s).

Definition baseName (s : jsstring) : jsstring :=
  let baseToken := trim (slice s (skipWhile isSpace s 0) (baseTokenEnd s)) in
  if truthy baseToken then baseToken else lit "View".

Definition baseKind (nm : jsstring) : Kind :=
  if isForEachName nm then ForEach
  else if isContainerName nm then Container
  else View.

Definition parseViewExpression_with (expr : jsstring) : option ViewNode :=
  let s := trim expr in
  let n := len s in
  let nm := baseName s in
  let kind0 := baseKind nm in
  let i := argsOpen s in
  '(props0, children0, i) ←
    (if (i <? n) && charIs s i (chr "(") then
       let j := fst (parenScan s i) in
       let argsContent := slice s (i + 1) (j - 1) in
       let props0 := parsePropsFromArgs argsContent in
       if bool_decide (kind0 = ForEach) then
         '(kids, j') ← parseContentClosure s j;
         Some (props0, kids, j')
       else Some (props0, [], j)
     else Some ([], [], i));
  let i := skipWhile isSpace s i in
  '(kind1, children1, baseEnd) ←
    (if (i <? n) && charIs s i (chr "{") then
       match readBalanced s i (chr "{") (chr "}") with
       | Some blk =>
           let isForEach := isForEachName nm in
           kids ← parseChildren
                    (if isForEach then stripLeadingClosureParams (inner blk)
                     else inner blk);
           Some (if isForEach then ForEach else kind0, kids, blockEnd blk + 1)
       | None => Some (kind0, children0, i)
       end
     else Some (kind0, children0, i));
  Some (Node kind1 nm (parseModifiers (sliceFrom s baseEnd)) children1
          (Some props0)).

(** ** Conditionals *)

(** The condition scan of [parseIfElse]: the index of the next top-level
    opening brace, or an index past the end. *)
Fixpoint condEnd_loop (fuel : nat) (text : jsstring) (k depthParen : Z) : Z :=
  match fuel with
  | O => k
  | S fuel' =>
      if k <? len text then
        if charIs text k QUOTE then
          condEnd_loop fuel' text (readSwiftString text k + 1) depthParen
        else
          let depthParen' :=
            if charIs text k (chr "(") then depthParen + 1
            else if charIs text k (chr ")") then depthParen - 1
            else depthParen in
          if charIs text k (chr "{") && (depthParen' =? 0) then k
          else condEnd_loop fuel' text (k + 1) depthParen'
      else k
  end.

Definition condEnd (text : jsstring) (k : Z) : Z :=
  condEnd_loop (Z.to_nat (len text - k)) text k 0.

Definition branchNode (nm : string) (kids : list ViewNode) : ViewNode :=
  Node Branch (lit nm) [] kids (Some []).

Definition ifNode (condition : jsstring) (branches : list ViewNode) : ViewNode :=
  Node If (lit "if " ++ condition) [] branches (Some []).

(** [parseIfElse(text, i)]: the pair [{ node, nextIndex }], [node] being
    [None] for [null]. [fuel] bounds the length of an [else if] chain. *)
Fixpoint parseIfElse_with (fuel : nat) (text : jsstring) (i : Z)
  : option (option ViewNode * Z) :=
  match fuel with
  | O => None
  | S fuel' =>
      let n := len text in
      let condStart := skipWhile isSpace text (i + 2) in
      let k := condEnd text condStart in
      if (k >=? n) || negb (charIs text k (chr "{")) then Some (None, i)
      else
        let condition := trim (slice text condStart k) in
        match readBalanced text k (chr "{") (chr "}") with
        | None => Some (None, i)
        | Some thenBlk =>
            thenChildren ← parseChildren (inner thenBlk);
            let thenBranch := branchNode "Then" thenChildren in
            let cursor := skipWhile isSpace text (blockEnd thenBlk + 1) in
            if isWordAt text cursor (lit "else") then
              let cursor := skipWhile isSpace text (cursor + 4) in
              if isWordAt text cursor (lit "if") then
                res ← parseIfElse_with fuel' text cursor;
                match res with
                | (Some nested, nextIndex) =>
                    Some (Some (ifNode condition
                                  [thenBranch; branchNode "Else" [nested]]),
                          nextIndex + 1)
                | (None, _) => Some (Some (ifNode condition [thenBranch]), cursor)
                end
              else if charIs text cursor (chr "{") then
                match readBalanced text cursor (chr "{") (chr "}") with
                | Some elseBlk =>
                    elseChildren ← parseChildren (inner elseBlk);
                    Some (Some (ifNode condition
                                  [thenBranch; branchNode "Else" elseChildren]),
                          blockEnd elseBlk + 1)
                | None => Some (Some (ifNode condition [thenBranch]), cursor)
                end
              else Some (Some (ifNode condition [thenBranch]), cursor)
            else Some (Some (ifNode condition [thenBranch]), cursor)
        end
  end.

End Expression.

(** ** Sibling blocks *)

(** The inner [while] of [parseChildrenBlock]: the index where the
    expression that starts at [i] ends. *)
Fixpoint exprEnd_loop (fuel : nat) (body : jsstring)
    (i depthParen depthBrace : Z) (inString : bool) : Z :=
  match fuel with
  | O => i
  | S fuel' =>
      if i <? len body then
        let quote := charIs body i QUOTE && negb (charIs body (i - 1) BACKSLASH) in
        if quote && charIs body (i + 1) QUOTE && charIs body (i + 2) QUOTE then
          exprEnd_loop fuel' body (readTripleQuoted body i + 1)
            depthParen depthBrace inString
        else
          let inString' := if quote then negb inString else inString in
          if inString' then
            exprEnd_loop fuel' body (i + 1) depthParen depthBrace inString'
          else if charIs body i (chr "(") then
            exprEnd_loop fuel' body (i + 1) (depthParen + 1) depthBrace inString'
          else if charIs body i (chr ")") then
            exprEnd_loop fuel' body (i + 1) (depthParen - 1) depthBrace inString'
          else if charIs body i (chr "{") then
            exprEnd_loop fuel' body (i + 1) depthParen (depthBrace + 1) inString'
          else if charIs body i (chr "}") then
            exprEnd_loop fuel' body (i + 1) depthParen (depthBrace - 1) inString'
          else if charIs body i NEWLINE && (depthParen =? 0) && (depthBrace =? 0)
                  && negb (charIs body (skipWhile isSpace body (i + 1)) (chr "."))
          then i
          else exprEnd_loop fuel' body (i + 1) depthParen depthBrace inString'
      else i
  end.

Definition exprEnd (body : jsstring) (i : Z) : Z :=
  exprEnd_loop (Z.to_nat (len body - i)) body i 0 0 false.

Section Siblings.

Variable parseChildren : Parser.

(** The outer [while (i < n)] of [parseChildrenBlock]. [None] means that
    [fuel] iterations were not enough. *)
Fixpoint parseChildren_loop (fuel : nat) (body : jsstring) (i : Z)
    (kids : list ViewNode) : option (list ViewNode) :=
  match fuel with
  | O => None
  | S fuel' =>
      if i <? len body then
        let i := skipWhile isSpaceOrComma body i in
        if i >=? len body then Some kids
        else
          let expression :=
            let e := exprEnd body i in
            let expr := trim (slice body i e) in
            kids' ← (if truthy expr
                     then node ← parseViewExpression_with parseChildren expr;
                          Some (kids ++ [node])
                     else Some kids);
            parseChildren_loop fuel' body (e + 1) kids' in
          if isWordAt body i (lit "if") then
            res ← parseIfElse_with parseChildren
                    (S (Z.to_nat (len body - i))) body i;
            match res with
            | (Some node, nextIndex) =>
                parseChildren_loop fuel' body (nextIndex + 1) (kids ++ [node])
            | (None, _) => expression
            end
          else expression
      else Some kids
  end.

End Siblings.

(** [parseChildrenBlock], [parseViewExpression] and [parseIfElse] call each
    other; [depth] bounds the nesting of blocks, and [None] means that
    the bound was reached. *)
Fixpoint parseChildrenBlock_depth (depth : nat) (body : jsstring)
  : option (list ViewNode) :=
  match depth with
  | O => None
  | S depth' =>
      parseChildren_loop (parseChildrenBlock_depth depth')
        (S (length body)) body 0 []
  end.

(** A block nested in [body] is shorter than [body], so [length body]
    levels are enough ([parseChildrenBlock_total]). *)
Definition parseChildrenBlock (body : jsstring) : option (list ViewNode) :=
  parseChildrenBlock_depth (S (length body)) body.

Definition parseViewExpression (expr : jsstring) : option ViewNode :=
  parseViewExpression_with parseChildrenBlock expr.

Definition parseIfElse (text : jsstring) (i : Z) : option (option ViewNode * Z) :=
  parseIfElse_with parseChildrenBlock (S (Z.to_nat (len text - i))) text i.

(** ** Custom views *)

(** A [Map] from declaration names to body texts, in insertion order. *)
Definition ViewMap := list (jsstring * jsstring).

Fixpoint map_get (viewMap : ViewMap) (key : jsstring) : option jsstring :=
  match viewMap with
  | [] => None
  | (k, v) :: rest => if eqb k key then Some v else map_get rest key
  end.

Definition map_has (viewMap : ViewMap) (key : jsstring) : bool :=
  match map_get viewMap key with Some _ => true | None => false end.

Definition map_keys (viewMap : ViewMap) : list jsstring := map fst viewMap.

Definition RECURSION_MARK : jsstring := lit "/* recursion */".

Definition Seen := gset jsstring.

(** [for (const child of tree.children) resolve(child, viewMap, seen)] on
    the one [seen] set that all calls share. *)
Fixpoint forEachChild (resolve : ViewNode -> Seen -> option (ViewNode * Seen))
    (kids : list ViewNode) (seen : Seen) : option (list ViewNode * Seen) :=
  match kids with
  | [] => Some ([], seen)
  | child :: rest =>
      '(child', seen) ← resolve child seen;
      '(rest', seen) ← forEachChild resolve rest seen;
      Some (child' :: rest', seen)
  end.

(** The first statement of [resolveCustomViews]: the node after it and
    the [seen] set after it. *)
Definition inlineCustomView (viewMap : ViewMap) (tree : ViewNode) (seen : Seen)
  : option (ViewNode * Seen) :=
  if map_has viewMap (name tree) && negb (includes CONTAINER_TYPES (name tree))
  then
    if bool_decide (name tree ∈ seen) then
      Some (Node (kind tree) (name tree) (modifiers tree ++ [RECURSION_MARK])
              (children tree) (props tree), seen)
    else
      let seen := {[name tree]} ∪ seen in
      body ← map_get viewMap (name tree);
      parsed ← parseChildrenBlock body;
      Some (Node CustomView (name tree) (modifiers tree) parsed (props tree),
            seen ∖ {[name tree]})
  else Some (tree, seen).

(** [resolveCustomViews(tree, viewMap, seen)]: the tree and the [seen]
    set when the call returns. The recursion of the source has no bound;
    [None] means that it went deeper than [fuel]. *)
Fixpoint resolveCustomViews (fuel : nat) (viewMap : ViewMap) (tree : ViewNode)
    (seen : Seen) : option (ViewNode * Seen) :=
  match fuel with
  | O => None
  | S fuel' =>
      '(tree, seen) ← inlineCustomView viewMap tree seen;
      '(kids, seen) ← forEachChild (resolveCustomViews fuel' viewMap)
                        (children tree) seen;
      Some (Node (kind tree) (name tree) (modifiers tree) kids (props tree), seen)
  end.

Definition groupNode (kids : list ViewNode) : ViewNode :=
  Node View (lit "Group") [] kids None.

(** [buildTreeForRoot(viewMap, rootName)]: [Some None] is the result
    [null], and [None] a recursion deeper than [fuel]. *)
Definition buildTreeForRoot (fuel : nat) (viewMap : ViewMap)
    (rootName : jsstring) : option (option ViewNode) :=
  match map_get viewMap rootName with
  | None => Some None
  | Some body =>
      if negb (truthy body) then Some None
      else
        kids ← parseChildrenBlock body;
        match kids with
        | [root] =>
            '(root, _) ← resolveCustomViews fuel viewMap root ∅;
            Some (Some root)
        | _ =>
            '(root, _) ← resolveCustomViews fuel viewMap (groupNode kids) ∅;
            Some (Some root)
        end
  end.

(** ** Declarations *)

(** [m.set(key, value)]: a key that is in the map keeps its place. *)
Fixpoint map_set (viewMap : ViewMap) (key value : jsstring) : ViewMap :=
  match viewMap with
  | [] => [(key, value)]
  | (k, v) :: rest =>
      if eqb k key then (k, value) :: rest
      else (k, v) :: map_set rest key value
  end.

(** The literal [word] at the index [p] of [s]. *)
Definition literalAt (s : jsstring) (p : Z) (word : jsstring) : bool :=
  eqb (slice s p (p + len word)) word.

(** [/struct\s+(\w+)\s*:\s*View\s*\{/] matched at [p]: the name and
    the index after the match. The classes that follow each other are
    disjoint, so the greedy match is the only one. *)
Definition matchStructAt (s : jsstring) (p : Z) : option (jsstring * Z) :=
  if literalAt s p (lit "struct") then
    let a := skipWhile isSpace s (p + 6) in
    let b := skipWhile isWordChar s a in
    if (p + 6 <? a) && (a <? b) then
      let c := skipWhile isSpace s b in
      if charIs s c (chr ":") then
        let d := skipWhile isSpace s (c + 1) in
        if literalAt s d (lit "View") then
          let e := skipWhile isSpace s (d + 4) in
          if charIs s e (chr "{") then Some (slice s a b, e + 1) else None
        else None
      else None
    else None
  else None.

(** [/var\s+body\s*:\s*some\s+View\s*\{/] matched at [p]: the index
    after the match. *)
Definition matchBodyAt (s : jsstring) (p : Z) : option Z :=
  if literalAt s p (lit "var") then
    let a := skipWhile isSpace s (p + 3) in
    if (p + 3 <? a) && literalAt s a (lit "body") then
      let b := skipWhile isSpace s (a + 4) in
      if charIs s b (chr ":") then
        let c := skipWhile isSpace s (b + 1) in
        if literalAt s c (lit "some") then
          let d := skipWhile isSpace s (c + 4) in
          if (c + 4 <? d) && literalAt s d (lit "View") then
            let e := skipWhile isSpace s (d + 4) in
            if charIs s e (chr "{") then Some (e + 1) else None
          else None
        else None
      else None
    else None
  else None.

(** [exec] from [p]: the leftmost match at or after [p], with its index. *)
Fixpoint search {A : Type} (matchAt : Z -> option A) (fuel : nat) (p : Z)
  : option (Z * A) :=
  match fuel with
  | O => None
  | S fuel' =>
      match matchAt p with
      | Some r => Some (p, r)
      | None => search matchAt fuel' (p + 1)
      end
  end.

Definition searchFrom {A : Type} (s : jsstring) (matchAt : Z -> option A) (p : Z)
  : option (Z * A) :=
  search matchAt (Z.to_nat (len s - p)) p.

(** The body text of the declaration whose opening brace is the last
    character of the match of [structRe] that ends at [start]. *)
Definition bodyOfStruct (source : jsstring) (start : Z) : option jsstring :=
  match readBalanced source (start - 1) (chr "{") (chr "}") with
  | None => None
  | Some block =>
      match searchFrom (inner block) (matchBodyAt (inner block)) 0 with
      | Some (_, bodyEnd) =>
          let bracePos := bodyEnd - 1 in
          match readBalanced (inner block) bracePos (chr "{") (chr "}") with
          | Some bodyBlock => Some (inner bodyBlock)
          | None => None
          end
      | None => None
      end
  end.

(** The [while ((m = structRe.exec(source)))] loop, [lastIndex] being
    the index after the previous match. *)
Fixpoint extractViews_loop (fuel : nat) (source : jsstring) (lastIndex : Z)
    (viewMap : ViewMap) : ViewMap :=
  match fuel with
  | O => viewMap
  | S fuel' =>
      match searchFrom source (matchStructAt source) lastIndex with
      | None => viewMap
      | Some (_, (nm, start)) =>
          match bodyOfStruct source start with
          | Some body =>
              extractViews_loop fuel' source start (map_set viewMap nm body)
          | None => extractViews_loop fuel' source start viewMap
          end
      end
  end.

Definition extractViews (source : jsstring) : ViewMap :=
  extractViews_loop (length source) source 0 [].

(** ** Root candidates *)

Section RootCandidates.

(** [String.prototype.localeCompare] of the host: its sign orders two
    names in the host's collation. *)
Variable localeCompare : jsstring -> jsstring -> Z.

(** Canonicalization of the [i] flag: only ASCII letters have an ASCII
    letter of the other case. *)
Definition upperAscii (c : N) : N :=
  if inRange 97 122 c then (c - 32)%N else c.

Fixpoint prefixIgnoreCase (pattern s : jsstring) : bool :=
  match pattern, s with
  | [], _ => true
  | _ :: _, [] => false
  | p :: pattern', c :: s' =>
      N.eqb (upperAscii c) (upperAscii p) && prefixIgnoreCase pattern' s'
  end.

(** [/ContentView|MainView|Root|App/i] *)
Definition entryPatterns : list jsstring :=
  map lit ["ContentView"; "MainView"; "Root"; "App"]%string.

(** [test]: some alternative matches at some position. *)
Fixpoint isEntryName (s : jsstring) : bool :=
  existsb (fun pattern => prefixIgnoreCase pattern s) entryPatterns
  || match s with
     | [] => false
     | _ :: s' => isEntryName s'
     end.

Definition score (nm : jsstring) : Z := if isEntryName nm then 0 else 1.

(** [score(a) - score(b) || a.localeCompare(b)] *)
Definition compareNames (a b : jsstring) : Z :=
  let d := score a - score b in
  if d =? 0 then localeCompare a b else d.

(** [Array.prototype.sort] is stable; with a consistent comparator every
    stable sort gives the list that insertion gives. *)
Fixpoint insertSorted (cmp : jsstring -> jsstring -> Z) (x : jsstring)
    (l : list jsstring) : list jsstring :=
  match l with
  | [] => [x]
  | y :: l' => if cmp x y >? 0 then y :: insertSorted cmp x l' else x :: l
  end.

Definition sortWith (cmp : jsstring -> jsstring -> Z) (l : list jsstring)
  : list jsstring :=
  foldr (insertSorted cmp) [] l.

Definition collectRootCandidates (viewMap : ViewMap) : list jsstring :=
  sortWith compareNames (map_keys viewMap).

(** [a] is not ranked after [b]. *)
Definition ordersBefore (a b : jsstring) : Prop := compareNames a b <= 0.

End RootCandidates.

(** Comparison by code units, one possible [localeCompare]. *)
Fixpoint compareCodeUnits (a b : jsstring) : Z :=
  match a, b with
  | [], [] => 0
  | [], _ :: _ => -1
  | _ :: _, [] => 1
  | x :: a', y :: b' =>
      if (x <? y)%N then -1
      else if (y <? x)%N then 1
      else compareCodeUnits a' b'
  end.

(** ** Counting parentheses *)

Definition parenStep (c : N) : Z :=
  if N.eqb c (chr "(") then 1 else if N.eqb c (chr ")") then -1 else 0.

(** Opening minus closing parentheses of a text. *)
Fixpoint parenBalance (l : jsstring) : Z :=
  match l with
  | [] => 0
  | c :: l' => parenStep c + parenBalance l'
  end.

(** ** Shape of conditional nodes *)

(** The block of the [Then] branch of the conditional at [i], when
    [parseIfElse] finds one. *)
Definition thenBlock (text : jsstring) (i : Z) : option Block :=
  let k := condEnd text (skipWhile isSpace text (i + 2)) in
  if (k >=? len text) || negb (charIs text k (chr "{")) then None
  else readBalanced text k (chr "{") (chr "}").

(** The index where [parseIfElse] looks for [else]. *)
Definition afterThen (text : jsstring) (i : Z) : Z :=
  match thenBlock text i with
  | Some blk => skipWhile isSpace text (blockEnd blk + 1)
  | None => i
  end.

Definition hasElse (text : jsstring) (i : Z) : bool :=
  isWordAt text (afterThen text i) (lit "else").

(** The index after [else] and the white space that follows it. *)
Definition afterElse (text : jsstring) (i : Z) : Z :=
  skipWhile isSpace text (afterThen text i + 4).

Definition hasElseIf (text : jsstring) (i : Z) : bool :=
  hasElse text i && isWordAt text (afterElse text i) (lit "if").

Definition isBranchNamed (nm : string) (t : ViewNode) : bool :=
  bool_decide (kind t = Branch) && eqb (name t) (lit nm).

(** One [Then] branch first, then at most one [Else] branch. *)
Definition ifShape (t : ViewNode) : bool :=
  match children t with
  | [th] => isBranchNamed "Then" th
  | [th; el] => isBranchNamed "Then" th && isBranchNamed "Else" el
  | _ => false
  end.

Definition ifInvariant (t : ViewNode) : bool :=
  if bool_decide (kind t = If) then ifShape t else true.

(** [P] holds of a node and of all the nodes below it. *)
Fixpoint allNodes (P : ViewNode -> bool) (t : ViewNode) : bool :=
  P t && forallb (allNodes P) (children t).

(** ** Boundaries of arguments *)

(** The state of the loop of [splitArgs] after [k] iterations. *)
Fixpoint splitArgs_state (k : nat) (s : jsstring) : SplitState :=
  match k with
  | O => splitArgs_init
  | S k' =>
      let st := splitArgs_state k' s in
      if sa_i st <? len s then splitArgs_step s st else st
  end.


(** The index where the argument that the loop is reading after [k]
    iterations starts: after the last comma that closed an argument. *)
Fixpoint argumentStart (k : nat) (s : jsstring) : Z :=
  match k with
  | O => 0
  | S k' =>
      let st := splitArgs_state k' s in
      if (sa_i st <? len s)
         && negb (bool_decide (sa_parts (splitArgs_step s st) = sa_parts st))
      then sa_i st + 1
      else argumentStart k' s
  end.

(** ** Normalized values *)

(** No two white-space characters follow each other in [s]. *)
Fixpoint singleSpaced (s : jsstring) : bool :=
  match s with
  | c :: s' =>
      match s' with
      | d :: _ => negb (isSpace c && isSpace d) && singleSpaced s'
      | [] => true
      end
  | [] => true
  end.

(** [s] neither starts nor ends with white space. *)
Definition trimmed (s : jsstring) : bool :=
  match s with
  | [] => true
  | c :: _ =>
      negb (isSpace c)
      && match last s with Some d => negb (isSpace d) | None => true end
  end.

(** ** References to a declaration *)

(** [resolveCustomViews] keeps the children of a node whose name is not
    a declaration or is reserved. *)
Definition keepsChildren (viewMap : ViewMap) (t : ViewNode) : bool :=
  negb (map_has viewMap (name t) && negb (includes CONTAINER_TYPES (name t))).

(** The tree refers to the declaration [nm]: a node named [nm] is found
    by going down through nodes that keep their children. *)
Inductive refersTo (viewMap : ViewMap) (nm : jsstring) : ViewNode -> Prop :=
  | refers_here t : name t = nm -> refersTo viewMap nm t
  | refers_below t c :
      keepsChildren viewMap t = true ->
      c ∈ children t ->
      refersTo viewMap nm c ->
      refersTo viewMap nm t.

(** ** Example inputs *)

(** A string literal of the parsed language: [s] between two quotes. *)
Definition quoted (s : string) : jsstring := [QUOTE] ++ lit s ++ [QUOTE].

Definition longValue : jsstring :=
  lit "Color.blue.opacity(0.25).gradient   .blendMode(.multiply)  .extra(1)   .more(2)".

(** [struct A: View { var body: some View { A() } }] *)
Definition selfReferencing : ViewMap := [(lit "A", lit " A() ")].

(** [Card] is declared with a body of its own, and the root uses it with
    a trailing block. *)
Definition cardMap : ViewMap :=
  [(lit "Card", lit " Text(" ++ quoted "declared" ++ lit ") ");
   (lit "Root", lit " Card { Text(" ++ quoted "kept" ++ lit ") } ")].

Definition cardSource : jsstring :=
  lit "struct Card: View { var body: some View { Text(" ++ quoted "declared"
  ++ lit ") } }" ++ [NEWLINE]
  ++ lit "struct Root: View { var body: some View { Card { Text("
  ++ quoted "kept" ++ lit ") } } }".

Definition textNode (arg : jsstring) : ViewNode :=
  Node View (lit "Text") [] [] (Some [arg]).

(** A declaration with an empty body, [var body: some View {}]. *)
Definition emptyBodyMap : ViewMap := [(lit "Empty", [])].

(** Two siblings that refer to the same declaration. *)
Definition siblingsMap : ViewMap :=
  [(lit "Title", lit " Text(" ++ quoted "hi" ++ lit ") ");
   (lit "ContentView", lit " VStack { Title()" ++ [NEWLINE] ++ lit " Title() } ")].

Definition twoRootsMap : ViewMap :=
  [(lit "Pair", lit " Text(" ++ quoted "a" ++ lit ")" ++ [NEWLINE]
                ++ lit " Text(" ++ quoted "b" ++ lit ") ")].

Definition ifElseText : jsstring := lit "if flag { A() } else { B() }".

Definition ifOnlyText : jsstring := lit "if flag { A() }".

Definition leaf (nm : string) : ViewNode := Node View (lit nm) [] [] (Some []).


(** The key set of the ranking scenario, in the order of insertion. *)
Definition threeViews : ViewMap :=
  [(lit "HeaderView", lit " Text(h) "); (lit "ContentView", lit " Text(c) ");
   (lit "TitleView", lit " Text(t) ")].

(** A declaration marked as a view but without a rendering body. *)
(** [struct A: View { var body: some View { VStack { A() } } }] *)
Definition nestedSelfReferencing : ViewMap :=
  [(lit "A", lit " VStack { A() } ")].

Definition helperSource : jsstring := lit "struct Helper: View { let x = 1 }".

Definition selfReferencingSource : jsstring :=
  lit "struct A: View { var body: some View { A() } }".

(** ** Texts in plain form *)

Definition braceStep (c : N) : Z :=
  if N.eqb c (chr "{") then 1 else if N.eqb c (chr "}") then -1 else 0.

(** The braces of [body] nest, from the nesting depth [depth]: no prefix
    closes more braces than are open, and all are closed at the end. *)
Fixpoint bracesNest (depth : Z) (body : jsstring) : bool :=
  match body with
  | [] => depth =? 0
  | c :: rest =>
      let d := depth + braceStep c in
      (0 <=? d) && bracesNest d rest
  end.

(** The parentheses of [args] nest, from the nesting depth [depth]. *)
Fixpoint parensNest (depth : Z) (args : jsstring) : bool :=
  match args with
  | [] => depth =? 0
  | c :: rest =>
      let d := depth + parenStep c in
      (0 <=? d) && parensNest d rest
  end.

(** Neither a quote nor a slash: the characters with which string
    literals and comments start. *)
Definition plainChar (c : N) : bool :=
  negb (N.eqb c QUOTE) && negb (N.eqb c (chr "/")).

Definition braced (body : jsstring) : jsstring :=
  [chr "{"] ++ body ++ [chr "}"].

(** The content of a string literal: no quote, except after a
    backslash, and no backslash at the end. *)
Fixpoint literalContent (s : jsstring) : bool :=
  match s with
  | [] => true
  | c :: rest =>
      if N.eqb c BACKSLASH then
        match rest with
        | _ :: rest' => literalContent rest'
        | [] => false
        end
      else negb (N.eqb c QUOTE) && literalContent rest
  end.

(** A character of a condition without literals, calls and closures. *)
Definition conditionChar (c : N) : bool :=
  negb (N.eqb c QUOTE) && negb (N.eqb c (chr "{"))
  && negb (N.eqb c (chr "(")) && negb (N.eqb c (chr ")")).

Definition notComma (c : N) : bool := negb (N.eqb c (chr ",")).

(** The text starts with a character that is not white space. *)
Definition startsWithText (v : jsstring) : bool :=
  match v with
  | c :: _ => negb (isSpace c)
  | [] => false
  end.

(** The word [in] stands at the index [i] of [text], with no word
    character before or after it. *)
Definition standaloneIn (text : jsstring) (i : Z) : bool :=
  charIs text i (chr "i") && charIs text (i + 1) (chr "n")
  && missingOrNonWord text (i - 1) && missingOrNonWord text (i + 2).

(** A name as [\w+] matches it. *)
Definition isWord (nm : jsstring) : bool := truthy nm && forallb isWordChar nm.

(** What follows a call or a block is empty, or starts with a dot and
    does not end with white space. *)
Definition isModifierTail (tail : jsstring) : bool :=
  match tail with
  | [] => true
  | c :: _ =>
      N.eqb c (chr ".")
      && match last tail with Some d => negb (isSpace d) | None => false end
  end.

(** The declaration of a view in its plain form,
    [struct Name: View { var body: some View {body} }]. *)
Definition declaration (nm body : jsstring) : jsstring :=
  lit "struct " ++ nm ++ lit ": View "
  ++ braced (lit " var body: some View " ++ braced body ++ lit " ").

(** ** Chains of modifiers *)

(** A modifier as it is written, [.name] or [.name(args)], and as it is
    stored. *)
Definition modifierSource (m : jsstring * option jsstring) : jsstring :=
  match m with
  | (nm, Some args) => [chr "."] ++ nm ++ [chr "("] ++ args ++ [chr ")"]
  | (nm, None) => [chr "."] ++ nm
  end.

Definition modifierStored (m : jsstring * option jsstring) : jsstring :=
  match m with
  | (nm, Some args) =>
      if truthy args then nm ++ lit "(" ++ trim args ++ lit ")" else nm
  | (nm, None) => nm
  end.

(** The name is made of word characters, and the parentheses of the
    arguments nest. *)
Definition modifierOk (m : jsstring * option jsstring) : bool :=
  forallb isWordChar (fst m)
  && match snd m with
     | Some args => parensNest 0 args
     | None => true
     end.

(** ** Nodes of the parser *)

(** A modifier as [parseViewExpression] stores it: a name of word
    characters, alone or followed by a parenthesized text. *)
Definition isModifierText (m : jsstring) : bool :=
  match drop (length (takeWhile isWordChar m)) m with
  | [] => true
  | c :: rest =>
      N.eqb c (chr "(")
      && match last rest with
         | Some d => N.eqb d (chr ")")
         | None => false
         end
  end.

Definition hasProps (t : ViewNode) : bool :=
  match props t with Some _ => true | None => false end.

Definition noModifiersNoProps (t : ViewNode) : bool :=
  match modifiers t, props t with
  | [], Some [] => true
  | _, _ => false
  end.

(** What holds of every node that the parser builds, by kind: an
    expression node is named by identifier characters and classified by
    its name; a conditional is named [if ...], its branches [Then] and
    [Else], and these have neither modifiers nor props; no node is a
    [CustomView], a kind that only [resolveCustomViews] gives. *)
Definition parsedNode (t : ViewNode) : bool :=
  truthy (name t) && hasProps t && forallb isModifierText (modifiers t)
  && match kind t with
     | View | Container | ForEach =>
         bool_decide (kind t = baseKind (name t))
         && forallb isIdentChar (name t)
     | If => eqb (take 3 (name t)) (lit "if ") && noModifiersNoProps t
     | Branch =>
         (eqb (name t) (lit "Then") || eqb (name t) (lit "Else"))
         && noModifiersNoProps t
     | CustomView => false
     end.

(** No modifier of the node is the recursion mark. *)
Definition unmarked (t : ViewNode) : bool :=
  negb (includes (modifiers t) RECURSION_MARK).

(** A node of kind [Container] keeps its children when the custom
    views are resolved. *)
Definition containerKept (viewMap : ViewMap) (t : ViewNode) : bool :=
  if bool_decide (kind t = Container) then keepsChildren viewMap t else true.

(** The number of levels of a tree. *)
Fixpoint height (t : ViewNode) : nat :=
  S (list_max (map height (children t))).

(** ** More example inputs *)

(** A container with two leaves, and a declaration that neither names. *)
Definition plainStack : ViewNode :=
  Node Container (lit "VStack") []
    [Node View (lit "Text") [lit "bold"] [] (Some [lit "a"]);
     Node View (lit "Title") [] [] (Some [])] (Some []).

Definition headerMap : ViewMap := [(lit "Header", lit " Text(h) ")].

(** A conditional without [else], and a sibling on the next line. *)
Definition ifThenSibling : jsstring :=
  lit "if flag { A() }" ++ [NEWLINE] ++ lit "Text(x)".

Definition stackWithConditional : jsstring :=
  lit "VStack { Text(a).bold()" ++ [NEWLINE] ++ lit " if flag { B() } }".

(** A view named as the first branch of a conditional. *)
Definition thenMap : ViewMap := [(lit "Then", lit " B() ")].


(** ** The lexical structure of a text *)

(** Where a character of a text stands: in the code, in a string
    literal (the quotes are part of the literal) or in a comment (the
    delimiters are part of the comment, the line break that ends a line
    comment is not). *)
Inductive LexClass := InCode | InLiteral | InComment.

Global Instance LexClass_eq_dec : EqDecision LexClass.
Proof. solve_decision. Defined.

(** What the text before a character has left open: nothing, a literal
    between quotes, a literal between triple quotes, a line comment or a
    block comment. *)
Inductive LexMode := Code | OneLine | MultiLine | LineComment | BlockComment.

(** The class of each character of [s], read from left to right from
    the mode [m]. A literal between quotes ends at the next quote that
    no backslash precedes: a backslash takes the next character with
    it, and an interpolation is not looked into. A literal between
    triple quotes ends at the next triple quote, a line comment before
    the next line break, a block comment at the first [*/]; what is not
    closed runs to the end of the text. When [comments] is false the
    slashes open nothing: this is the reading of someone who knows the
    literals but not the comments. *)
Fixpoint lexClasses (comments : bool) (m : LexMode) (s : jsstring)
  : list LexClass :=
  match s with
  | [] => []
  | c :: rest =>
      match m with
      | Code =>
          if N.eqb c QUOTE then
            match rest with
            | c1 :: c2 :: rest2 =>
                if N.eqb c1 QUOTE && N.eqb c2 QUOTE
                then InLiteral :: InLiteral :: InLiteral
                     :: lexClasses comments MultiLine rest2
                else InLiteral :: lexClasses comments OneLine rest
            | _ => InLiteral :: lexClasses comments OneLine rest
            end
          else if comments && N.eqb c (chr "/") then
            match rest with
            | c1 :: rest1 =>
                if N.eqb c1 (chr "/")
                then InComment :: InComment
                     :: lexClasses comments LineComment rest1
                else if N.eqb c1 (chr "*")
                then InComment :: InComment
                     :: lexClasses comments BlockComment rest1
                else InCode :: lexClasses comments Code rest
            | [] => [InCode]
            end
          else InCode :: lexClasses comments Code rest
      | OneLine =>
          if N.eqb c BACKSLASH then
            match rest with
            | _ :: rest1 =>
                InLiteral :: InLiteral :: lexClasses comments OneLine rest1
            | [] => [InLiteral]
            end
          else if N.eqb c QUOTE then InLiteral :: lexClasses comments Code rest
          else InLiteral :: lexClasses comments OneLine rest
      | MultiLine =>
          if N.eqb c QUOTE then
            match rest with
            | c1 :: c2 :: rest2 =>
                if N.eqb c1 QUOTE && N.eqb c2 QUOTE
                then InLiteral :: InLiteral :: InLiteral
                     :: lexClasses comments Code rest2
                else InLiteral :: lexClasses comments MultiLine rest
            | _ => InLiteral :: lexClasses comments MultiLine rest
            end
          else InLiteral :: lexClasses comments MultiLine rest
      | LineComment =>
          if N.eqb c NEWLINE then InCode :: lexClasses comments Code rest
          else InComment :: lexClasses comments LineComment rest
      | BlockComment =>
          if N.eqb c (chr "*") then
            match rest with
            | c1 :: rest1 =>
                if N.eqb c1 (chr "/")
                then InComment :: InComment :: lexClasses comments Code rest1
                else InComment :: lexClasses comments BlockComment rest
            | [] => [InComment]
            end
          else InComment :: lexClasses comments BlockComment rest
      end
  end.






(** The text with a space for each character that is not in the code. *)
Definition blankOutside (c : N) (cls : LexClass) : N :=
  match cls with InCode => c | _ => SPACE end.

Definition codeOnly (comments : bool) (s : jsstring) : jsstring :=
  zip_with blankOutside s (lexClasses comments Code s).

(** ** Argument lists with comments and literals *)




(** ** Argument lists that never balance *)

(** After the index [i] of [t], more parentheses are opened than closed,
    whatever the index [j] where the count is taken. *)
Definition staysOpen (t : jsstring) (i : Z) : Prop :=
  forall j, i < j -> j <= len t -> 0 < parenBalance (slice t i j).

Definition staysOpenb (t : jsstring) (i : Z) : bool :=
  forallb (fun k => 0 <? parenBalance (slice t i (i + 1 + Z.of_nat k)))
    (seq 0 (Z.to_nat (len t - i))).

(** The argument list that opens at the index [i] of [s] never balances:
    the text ends before the parenthesis at [i] is closed. The
    parentheses are those of the code; those of string literals and of
    comments do not count. *)
Definition neverBalances (s : jsstring) (i : Z) : Prop :=
  charIs s i (chr "(") = true /\ staysOpen (codeOnly true s) i.

Definition neverBalancesb (s : jsstring) (i : Z) : bool :=
  charIs s i (chr "(") && staysOpenb (codeOnly true s) i.

(** The count of all the parentheses of [s], also those of string
    literals and of comments, does not return to zero after the
    parenthesis at [i]. *)
Definition countStaysOpen (s : jsstring) (i : Z) : Prop :=
  charIs s i (chr "(") = true /\ staysOpen s i.

Definition countStaysOpenb (s : jsstring) (i : Z) : bool :=
  charIs s i (chr "(") && staysOpenb s i.

(** No parenthesis of [s] is in a string literal or in a comment: the
    code of [s] has the parentheses of [s]. *)
Definition parensInCode (s : jsstring) : bool :=
  bool_decide (map parenStep (codeOnly true s) = map parenStep s).

(** [Text(")"]: the only closing parenthesis is in a literal. *)
Definition parenInLiteral : jsstring := lit "Text(" ++ quoted ")".

(** ** The collation of the host *)

(** [localeCompare] is left to the host by the language. The hosts of
    the page compare two strings by the Unicode collation algorithm with
    its default table. On the names of declarations, which are words of
    ASCII letters, digits and underscores, this comes to what follows:
    the names are first compared character by character without regard
    to case, the underscore before the digits and the digits before the
    letters, a name before the names that it starts; two names that
    differ by case only are ordered by the first character where they
    differ, the lower-case letter first. *)
Definition primaryWeight (c : N) : N :=
  if N.eqb c (chr "_") then 0
  else if inRange 48 57 c then c - 47
  else if inRange 65 90 c then c - 54
  else if inRange 97 122 c then c - 86
  else c + 1000.

Definition caseWeight (c : N) : N := if inRange 65 90 c then 1 else 0.

Definition hostCollation (a b : jsstring) : Z :=
  let primary := compareCodeUnits (map primaryWeight a) (map primaryWeight b) in
  if primary =? 0
  then compareCodeUnits (map caseWeight a) (map caseWeight b)
  else primary.

(** Three declarations whose names match no entry-point pattern. *)
Definition caseViews : ViewMap :=
  [(lit "Yak", lit " Text(a) "); (lit "Zeta", lit " Text(b) ");
   (lit "yak", lit " Text(c) ")].


(** * Properties *)

(** ** Strings *)

Lemma slice_0 (s : jsstring) (k : Z) :
  0 <= k -> k <= len s -> slice s 0 k = take (Z.to_nat k) s.
Proof.
  intros H0 Hk. unfold slice, clampIndex.
  replace (0 <? 0) with false by reflexivity.
  destruct (k <? 0) eqn:E; [lia|].
  rewrite !Z.min_l by (unfold len in *; lia).
  simpl. f_equal. lia.
Qed.

Lemma charIs_bounds (s : jsstring) (i : Z) (c : N) :
  charIs s i c = true -> 0 <= i < len s.
Proof.
  unfold charIs, charAt. destruct (i <? 0) eqn:E; [discriminate|].
  destruct (s !! Z.to_nat i) eqn:L; [|discriminate].
  intros _. apply lookup_lt_Some in L. unfold len. lia.
Qed.

Lemma sliceFrom_end (s : jsstring) : sliceFrom s (len s) = [].
Proof.
  unfold sliceFrom, slice, clampIndex.
  assert (0 <= len s) by (unfold len; lia).
  destruct (len s <? 0) eqn:E; [lia|].
  rewrite Z.min_id, Z.sub_diag. reflexivity.
Qed.

Lemma skipWhile_end (p : N -> bool) (s : jsstring) : skipWhile p s (len s) = len s.
Proof. unfold skipWhile. rewrite Z.sub_diag. reflexivity. Qed.

Lemma dropWhile_length (p : N -> bool) (s : jsstring) :
  (length (dropWhile p s) <= length s)%nat.
Proof.
  induction s as [|c s IH]; simpl; [lia|]. destruct (p c); simpl; lia.
Qed.

Lemma trimStart_length (s : jsstring) : (length (trimStart s) <= length s)%nat.
Proof. apply dropWhile_length. Qed.

Lemma trim_length (s : jsstring) : (length (trim s) <= length s)%nat.
Proof.
  unfold trim, trimEnd. rewrite length_reverse.
  pose proof (dropWhile_length isSpace (reverse (trimStart s))) as H.
  rewrite length_reverse in H. pose proof (trimStart_length s). lia.
Qed.

Lemma slice_length (s : jsstring) (a b : Z) :
  (length (slice s a b) <= length s - Z.to_nat (clampIndex s a))%nat.
Proof.
  unfold slice. rewrite length_take, length_drop. lia.
Qed.

Lemma slice_length_le (s : jsstring) (a b : Z) :
  (length (slice s a b) <= length s)%nat.
Proof. pose proof (slice_length s a b). lia. Qed.

Lemma slice_length_lt (s : jsstring) (a b : Z) :
  0 < a -> 0 < len s -> (length (slice s a b) < length s)%nat.
Proof.
  intros Ha Hs. pose proof (slice_length s a b) as H.
  unfold clampIndex, len in *. destruct (a <? 0) eqn:E; lia.
Qed.

Lemma takeWhile_dropWhile (p : N -> bool) (s : jsstring) :
  takeWhile p s ++ dropWhile p s = s.
Proof.
  induction s as [|c s IH]; [reflexivity|].
  simpl. destruct (p c); [simpl; rewrite IH|]; reflexivity.
Qed.

Lemma dropWhile_head (p : N -> bool) (s : jsstring) (c : N) :
  head (dropWhile p s) = Some c -> p c = false.
Proof.
  induction s as [|d s IH]; [discriminate|].
  simpl. destruct (p d) eqn:E; [exact IH|]. simpl. intros [= <-]. exact E.
Qed.

(** [trim s] is what is left of [s] between two blank ends. *)
Lemma trim_split (s : jsstring) :
  s = takeWhile isSpace s ++ trim s
      ++ reverse (takeWhile isSpace (reverse (trimStart s))).
Proof.
  unfold trim, trimEnd.
  rewrite <- reverse_app, takeWhile_dropWhile, reverse_involutive.
  symmetry. apply takeWhile_dropWhile.
Qed.

Lemma trim_trimmed (s : jsstring) : trimmed (trim s) = true.
Proof.
  assert (Hlast : forall d, last (trim s) = Some d -> isSpace d = false).
  { intros d. unfold trim, trimEnd. rewrite last_reverse.
    apply dropWhile_head. }
  destruct (trim s) as [|c t] eqn:E; [reflexivity|].
  cbn [trimmed]. apply andb_true_iff. split.
  - apply negb_true_iff. apply (dropWhile_head isSpace s).
    change (dropWhile isSpace s) with (trimStart s).
    assert (H : trimStart s
                = trim s ++ reverse (takeWhile isSpace (reverse (trimStart s)))).
    { unfold trim, trimEnd.
      rewrite <- reverse_app, takeWhile_dropWhile, reverse_involutive.
      reflexivity. }
    rewrite H, E. reflexivity.
  - destruct (last (c :: t)) as [d|] eqn:L; [|reflexivity].
    apply negb_true_iff. apply Hlast. reflexivity.
Qed.

(** ** The scanner moves forward *)

Lemma readString_loop_ge (text : jsstring) :
  forall fuel i, i <= readString_loop fuel text i \/ readString_loop fuel text i = len text - 1.
Proof.
  induction fuel as [|fuel IH]; intros i; [right; reflexivity|].
  simpl. destruct (i <? len text); [|right; reflexivity].
  destruct (charIs text i BACKSLASH).
  - destruct (IH (i + 2)) as [H|H]; [left; lia|right; exact H].
  - destruct (charIs text i QUOTE); [left; lia|].
    destruct (IH (i + 1)) as [H|H]; [left; lia|right; exact H].
Qed.

Lemma readTripleQuoted_loop_ge (text : jsstring) :
  forall fuel i,
    i <= readTripleQuoted_loop fuel text i
    \/ readTripleQuoted_loop fuel text i = len text - 1.
Proof.
  induction fuel as [|fuel IH]; intros i; [right; reflexivity|].
  simpl. destruct (i <? len text - 2); [|right; reflexivity].
  destruct (charIs text i QUOTE && charIs text (i + 1) QUOTE
            && charIs text (i + 2) QUOTE); [left; lia|].
  destruct (IH (i + 1)) as [H|H]; [left; lia|right; exact H].
Qed.

Lemma readTripleQuoted_ge (text : jsstring) (i : Z) :
  i < len text -> i <= readTripleQuoted text i.
Proof.
  intros Hi. unfold readTripleQuoted.
  destruct (readTripleQuoted_loop_ge text
              (Z.to_nat (len text - 2 - (i + 3))) (i + 3)) as [H|H]; lia.
Qed.

Lemma readSwiftString_ge (text : jsstring) (i : Z) :
  i < len text -> i <= readSwiftString text i.
Proof.
  intros Hi. unfold readSwiftString.
  destruct (negb (charIs text i QUOTE)); [lia|].
  destruct (charIs text (i + 1) QUOTE && charIs text (i + 2) QUOTE).
  - apply readTripleQuoted_ge. assumption.
  - unfold readString.
    destruct (readString_loop_ge text
                (Z.to_nat (len text - (i + 1))) (i + 1)) as [H|H]; lia.
Qed.

Lemma skipWhile_loop_ge (p : N -> bool) (text : jsstring) :
  forall fuel i, i <= skipWhile_loop fuel p text i.
Proof.
  induction fuel as [|fuel IH]; intros i; simpl; [lia|].
  destruct ((i <? len text) && charIn p text i); [|lia].
  specialize (IH (i + 1)). lia.
Qed.

Lemma skipWhile_ge (p : N -> bool) (text : jsstring) (i : Z) :
  i <= skipWhile p text i.
Proof. apply skipWhile_loop_ge. Qed.

Lemma condEnd_loop_ge (text : jsstring) :
  forall fuel k d, k <= condEnd_loop fuel text k d.
Proof.
  induction fuel as [|fuel IH]; intros k d; [simpl; lia|].
  cbn [condEnd_loop].
  destruct (k <? len text) eqn:E; [|lia].
  destruct (charIs text k QUOTE).
  - pose proof (readSwiftString_ge text k ltac:(lia)).
    specialize (IH (readSwiftString text k + 1) d). lia.
  - cbv zeta.
    match goal with |- _ <= (if ?b then _ else _) => destruct b end; [lia|].
    match goal with
    | |- _ <= condEnd_loop _ _ _ ?d' => specialize (IH (k + 1) d')
    end.
    lia.
Qed.

Lemma condEnd_ge (text : jsstring) (k : Z) : k <= condEnd text k.
Proof. apply condEnd_loop_ge. Qed.

Lemma exprEnd_loop_ge (body : jsstring) :
  forall fuel i dp db inString, i <= exprEnd_loop fuel body i dp db inString.
Proof.
  induction fuel as [|fuel IH]; intros i dp db inString; [simpl; lia|].
  cbn [exprEnd_loop].
  destruct (i <? len body) eqn:E; [|lia].
  cbv zeta.
  repeat match goal with
         | |- _ <= (if ?b then _ else _) => destruct b
         | |- _ <= exprEnd_loop fuel body (readTripleQuoted body i + 1) ?a ?b ?c =>
             pose proof (readTripleQuoted_ge body i ltac:(lia));
             specialize (IH (readTripleQuoted body i + 1) a b c); lia
         | |- _ <= exprEnd_loop fuel body (i + 1) ?a ?b ?c =>
             specialize (IH (i + 1) a b c); lia
         | |- _ => lia
         end.
Qed.

Lemma exprEnd_ge (body : jsstring) (i : Z) : i <= exprEnd body i.
Proof. apply exprEnd_loop_ge. Qed.

Lemma skipLineComment_ge (text : jsstring) :
  forall fuel i, i <= skipLineComment fuel text i.
Proof.
  induction fuel as [|fuel IH]; intros i; simpl; [lia|].
  destruct ((i <? len text) && negb (charIs text i NEWLINE)); [|lia].
  specialize (IH (i + 1)). lia.
Qed.

Lemma skipBlockComment_ge (text : jsstring) :
  forall fuel i, i <= skipBlockComment fuel text i.
Proof.
  induction fuel as [|fuel IH]; intros i; cbn [skipBlockComment]; [lia|].
  match goal with |- _ <= (if ?b then _ else _) => destruct b end; [|lia].
  specialize (IH (i + 1)). lia.
Qed.

Lemma readBalanced_loop_block (text : jsstring) (openPos : Z) (o c : N) :
  forall fuel depth i blk,
    readBalanced_loop fuel text openPos o c depth i = Some blk ->
    inner blk = slice text (openPos + 1) (blockEnd blk) /\ i <= blockEnd blk.
Proof.
  induction fuel as [|fuel IH]; intros depth i blk; [intros [=]|].
  cbn [readBalanced_loop].
  destruct (i <? len text) eqn:E; [|intros [=]].
  destruct (charIs text i QUOTE).
  { intros H. apply IH in H as [H1 H2]. split; [exact H1|].
    pose proof (readSwiftString_ge text i ltac:(lia)). lia. }
  destruct (charIs text i (chr "/") && charIs text (i + 1) (chr "/")).
  { intros H. apply IH in H as [H1 H2]. split; [exact H1|].
    pose proof (skipLineComment_ge text (Z.to_nat (len text - i)) i).
    unfold lineCommentEnd in H2. lia. }
  destruct (charIs text i (chr "/") && charIs text (i + 1) (chr "*")).
  { intros H. apply IH in H as [H1 H2]. split; [exact H1|].
    pose proof (skipBlockComment_ge text (Z.to_nat (len text - (i + 2))) (i + 2)).
    unfold blockCommentEnd in H2. lia. }
  destruct (charIs text i o).
  { intros H. apply IH in H as [H1 H2]. split; [exact H1|lia]. }
  destruct (charIs text i c).
  - destruct (depth - 1 =? 0).
    + intros [= <-]. simpl. split; [reflexivity|lia].
    + intros H. apply IH in H as [H1 H2]. split; [exact H1|lia].
  - intros H. apply IH in H as [H1 H2]. split; [exact H1|lia].
Qed.

(** A block that [readBalanced] finds starts at [openPos], ends at or
    after it, and its inner text is shorter than the text. *)
Lemma readBalanced_block (text : jsstring) (openPos : Z) (o c : N) (blk : Block) :
  readBalanced text openPos o c = Some blk ->
  openPos <= blockEnd blk /\ (length (inner blk) < length text)%nat.
Proof.
  unfold readBalanced.
  destruct (charIs text openPos o) eqn:E; [|intros [=]]. cbn [negb].
  intros H. apply readBalanced_loop_block in H as [H1 H2].
  split; [exact H2|]. rewrite H1.
  apply charIs_bounds in E. apply slice_length_lt; lia.
Qed.

Lemma stripParams_loop_length (text : jsstring) :
  forall fuel i dp db,
    (length (stripParams_loop fuel text i dp db) <= length text)%nat.
Proof.
  induction fuel as [|fuel IH]; intros i dp db; [simpl; lia|].
  cbn [stripParams_loop].
  destruct (i <? len text); [|lia].
  destruct (charIs text i QUOTE); [apply IH|].
  cbv zeta.
  match goal with |- (length (if ?b then _ else _) <= _)%nat => destruct b end;
    [|apply IH].
  pose proof (trimStart_length (sliceFrom text (i + 2))).
  pose proof (slice_length_le text (i + 2) (len text)).
  unfold sliceFrom in *. lia.
Qed.

Lemma stripLeadingClosureParams_length (text : jsstring) :
  (length (stripLeadingClosureParams text) <= length text)%nat.
Proof. apply stripParams_loop_length. Qed.

(** ** The parser returns *)

Section Total.

Variable parseChildren : Parser.

Lemma parseContentClosure_total (s : jsstring) (j : Z) :
  (forall b, (length b < length s)%nat -> is_Some (parseChildren b)) ->
  is_Some (parseContentClosure parseChildren s j).
Proof.
  intros Hpc. unfold parseContentClosure.
  destruct (findContent (sliceFrom s j)) as [[index mlen]|]; [|eauto].
  destruct (readBalanced s _ (chr "{") (chr "}")) as [blk|] eqn:E; [|eauto].
  apply readBalanced_block in E as [_ E].
  destruct (Hpc (stripLeadingClosureParams (inner blk))) as [kids ->].
  - pose proof (stripLeadingClosureParams_length (inner blk)). lia.
  - cbn [mbind option_bind]. eauto.
Qed.

Lemma parseViewExpression_with_total (expr : jsstring) :
  (forall b, (length b < length expr)%nat -> is_Some (parseChildren b)) ->
  is_Some (parseViewExpression_with parseChildren expr).
Proof.
  intros Hpc. unfold parseViewExpression_with.
  set (s := trim expr). set (nm := baseName s). set (i := argsOpen s).
  assert (Hs : forall b, (length b < length s)%nat -> is_Some (parseChildren b)).
  { intros b Hb. apply Hpc. pose proof (trim_length expr). fold s in H. lia. }
  match goal with
  | |- is_Some (?m ≫= _) =>
      assert (H1 : is_Some m);
        [|destruct H1 as [[[props0 children0] i2] ->]]
  end.
  { destruct ((i <? len s) && charIs s i (chr "(")); [|eauto].
    destruct (bool_decide (baseKind nm = ForEach)); [|eauto].
    destruct (parseContentClosure_total s (fst (parenScan s i)) Hs)
      as [[kids j'] ->].
    cbn [mbind option_bind]. eauto. }
  cbn [mbind option_bind].
  match goal with
  | |- is_Some (?m ≫= _) =>
      assert (H2 : is_Some m);
        [|destruct H2 as [[[kind1 children1] baseEnd] ->]]
  end.
  { destruct ((skipWhile isSpace s i2 <? len s) && _); [|eauto].
    destruct (readBalanced s _ (chr "{") (chr "}")) as [blk|] eqn:E; [|eauto].
    apply readBalanced_block in E as [_ E].
    match goal with
    | |- is_Some (parseChildren ?b ≫= _) => destruct (Hs b) as [kids ->]
    end.
    - destruct (isForEachName nm); [|lia].
      pose proof (stripLeadingClosureParams_length (inner blk)). lia.
    - cbn [mbind option_bind]. eauto. }
  cbn [mbind option_bind]. eauto.
Qed.

Lemma parseIfElse_with_total (text : jsstring) :
  (forall b, (length b < length text)%nat -> is_Some (parseChildren b)) ->
  forall fuel i,
    (Z.to_nat (len text - i) < fuel)%nat ->
    exists node nextIndex,
      parseIfElse_with parseChildren fuel text i = Some (node, nextIndex)
      /\ i <= nextIndex.
Proof.
  intros Hpc. induction fuel as [|fuel IH]; intros i Hfuel; [lia|].
  cbn [parseIfElse_with].
  pose proof (skipWhile_ge isSpace text (i + 2)) as Hstart.
  pose proof (condEnd_ge text (skipWhile isSpace text (i + 2))) as Hk.
  set (k := condEnd text (skipWhile isSpace text (i + 2))) in *.
  destruct ((k >=? len text) || negb (charIs text k (chr "{"))) eqn:Ek;
    [eexists _, _; split; [reflexivity|lia]|].
  apply orb_false_iff in Ek as [Ek _].
  destruct (readBalanced text k (chr "{") (chr "}")) as [blk|] eqn:Eb;
    [|eexists _, _; split; [reflexivity|lia]].
  apply readBalanced_block in Eb as [Hend Hin].
  destruct (Hpc (inner blk) Hin) as [thenKids ->]. cbn [mbind option_bind].
  pose proof (skipWhile_ge isSpace text (blockEnd blk + 1)) as Hc.
  set (cursor := skipWhile isSpace text (blockEnd blk + 1)) in *.
  destruct (isWordAt text cursor (lit "else"));
    [|eexists _, _; split; [reflexivity|lia]].
  pose proof (skipWhile_ge isSpace text (cursor + 4)) as Hc1.
  set (cursor1 := skipWhile isSpace text (cursor + 4)) in *.
  destruct (isWordAt text cursor1 (lit "if")).
  - destruct (IH cursor1 ltac:(lia)) as (nested & nx & -> & Hnx).
    cbn [mbind option_bind].
    destruct nested; eexists _, _; (split; [reflexivity|lia]).
  - destruct (charIs text cursor1 (chr "{"));
      [|eexists _, _; split; [reflexivity|lia]].
    destruct (readBalanced text cursor1 (chr "{") (chr "}")) as [eb|] eqn:Ee;
      [|eexists _, _; split; [reflexivity|lia]].
    apply readBalanced_block in Ee as [Hee Hein].
    destruct (Hpc (inner eb) Hein) as [elseKids ->]. cbn [mbind option_bind].
    eexists _, _. split; [reflexivity|lia].
Qed.

Lemma parseChildren_loop_total (body : jsstring) :
  (forall b, (length b < length body)%nat -> is_Some (parseChildren b)) ->
  forall fuel i kids,
    (Z.to_nat (len body - i) < fuel)%nat ->
    is_Some (parseChildren_loop parseChildren fuel body i kids).
Proof.
  intros Hpc. induction fuel as [|fuel IH]; intros i kids Hfuel; [lia|].
  cbn [parseChildren_loop].
  destruct (i <? len body) eqn:Ei; [|eauto].
  pose proof (skipWhile_ge isSpaceOrComma body i) as Hi1.
  set (i1 := skipWhile isSpaceOrComma body i) in *.
  destruct (i1 >=? len body); [eauto|].
  pose proof (exprEnd_ge body i1) as He.
  assert (Hexpr : is_Some
    (kids1 ← (if truthy (trim (slice body i1 (exprEnd body i1)))
              then node ← parseViewExpression_with parseChildren
                             (trim (slice body i1 (exprEnd body i1)));
                   Some (kids ++ [node])
              else Some kids);
     parseChildren_loop parseChildren fuel body (exprEnd body i1 + 1) kids1)).
  { destruct (truthy _).
    - destruct (parseViewExpression_with_total
                  (trim (slice body i1 (exprEnd body i1)))) as [node ->].
      + intros b Hb. apply Hpc.
        pose proof (trim_length (slice body i1 (exprEnd body i1))).
        pose proof (slice_length_le body i1 (exprEnd body i1)). lia.
      + cbn [mbind option_bind]. apply IH. lia.
    - cbn [mbind option_bind]. apply IH. lia. }
  destruct (isWordAt body i1 (lit "if")); [|exact Hexpr].
  destruct (parseIfElse_with_total body Hpc (S (Z.to_nat (len body - i1))) i1
              ltac:(lia)) as (node & nx & -> & Hnx).
  cbn [mbind option_bind].
  destruct node; [|exact Hexpr]. apply IH. lia.
Qed.

End Total.

Lemma parseChildrenBlock_depth_total (depth : nat) :
  forall body,
    (length body < depth)%nat -> is_Some (parseChildrenBlock_depth depth body).
Proof.
  induction depth as [|depth IH]; intros body Hd; [lia|].
  cbn [parseChildrenBlock_depth].
  apply parseChildren_loop_total.
  - intros b Hb. apply IH. lia.
  - unfold len. lia.
Qed.

(** The three parsing functions return on every text. *)
Lemma parseChildrenBlock_total (body : jsstring) :
  is_Some (parseChildrenBlock body).
Proof. apply parseChildrenBlock_depth_total. lia. Qed.

Lemma parseViewExpression_total (expr : jsstring) :
  is_Some (parseViewExpression expr).
Proof.
  apply parseViewExpression_with_total. intros b _.
  apply parseChildrenBlock_total.
Qed.

Lemma parseIfElse_total (text : jsstring) (i : Z) :
  is_Some (parseIfElse text i).
Proof.
  destruct (parseIfElse_with_total parseChildrenBlock text
              (fun b _ => parseChildrenBlock_total b)
              (S (Z.to_nat (len text - i))) i ltac:(lia)) as (node & nx & H & _).
  unfold parseIfElse. rewrite H. eauto.
Qed.

(** ** The bound on the nesting does not matter *)

Section Agree.

Variables parseChildren1 parseChildren2 : Parser.

Lemma parseContentClosure_agree (s : jsstring) (j : Z) :
  (forall b, (length b < length s)%nat -> parseChildren1 b = parseChildren2 b) ->
  parseContentClosure parseChildren1 s j = parseContentClosure parseChildren2 s j.
Proof.
  intros Hpc. unfold parseContentClosure.
  destruct (findContent (sliceFrom s j)) as [[index mlen]|]; [|reflexivity].
  destruct (readBalanced s _ (chr "{") (chr "}")) as [blk|] eqn:E; [|reflexivity].
  apply readBalanced_block in E as [_ E].
  rewrite Hpc; [reflexivity|].
  pose proof (stripLeadingClosureParams_length (inner blk)). lia.
Qed.

Lemma parseViewExpression_with_agree (expr : jsstring) :
  (forall b, (length b < length expr)%nat -> parseChildren1 b = parseChildren2 b) ->
  parseViewExpression_with parseChildren1 expr
  = parseViewExpression_with parseChildren2 expr.
Proof.
  intros Hpc. unfold parseViewExpression_with.
  set (s := trim expr). set (nm := baseName s). set (i := argsOpen s).
  assert (Hs : forall b, (length b < length s)%nat ->
                         parseChildren1 b = parseChildren2 b).
  { intros b Hb. apply Hpc. pose proof (trim_length expr). fold s in H. lia. }
  rewrite (parseContentClosure_agree s (fst (parenScan s i)) Hs).
  match goal with
  | |- (?m ≫= _) = _ => destruct m as [[[props0 children0] i2]|]; [|reflexivity]
  end.
  cbn [mbind option_bind].
  destruct ((skipWhile isSpace s i2 <? len s) && _); [|reflexivity].
  destruct (readBalanced s _ (chr "{") (chr "}")) as [blk|] eqn:E; [|reflexivity].
  apply readBalanced_block in E as [_ E].
  rewrite Hs; [reflexivity|].
  destruct (isForEachName nm); [|lia].
  pose proof (stripLeadingClosureParams_length (inner blk)). lia.
Qed.

Lemma parseIfElse_with_agree (text : jsstring) :
  (forall b, (length b < length text)%nat -> parseChildren1 b = parseChildren2 b) ->
  forall fuel i,
    parseIfElse_with parseChildren1 fuel text i
    = parseIfElse_with parseChildren2 fuel text i.
Proof.
  intros Hpc. induction fuel as [|fuel IH]; intros i; [reflexivity|].
  cbn [parseIfElse_with].
  set (k := condEnd text (skipWhile isSpace text (i + 2))).
  destruct ((k >=? len text) || negb (charIs text k (chr "{"))); [reflexivity|].
  destruct (readBalanced text k (chr "{") (chr "}")) as [blk|] eqn:Eb;
    [|reflexivity].
  apply readBalanced_block in Eb as [_ Hin].
  rewrite (Hpc (inner blk) Hin).
  destruct (parseChildren2 (inner blk)) as [thenKids|]; [|reflexivity].
  cbn [mbind option_bind].
  set (cursor := skipWhile isSpace text (blockEnd blk + 1)).
  destruct (isWordAt text cursor (lit "else")); [|reflexivity].
  set (cursor1 := skipWhile isSpace text (cursor + 4)).
  destruct (isWordAt text cursor1 (lit "if")); [rewrite IH; reflexivity|].
  destruct (charIs text cursor1 (chr "{")); [|reflexivity].
  destruct (readBalanced text cursor1 (chr "{") (chr "}")) as [eb|] eqn:Ee;
    [|reflexivity].
  apply readBalanced_block in Ee as [_ Hein].
  rewrite (Hpc (inner eb) Hein). reflexivity.
Qed.

Lemma parseChildren_loop_agree (body : jsstring) :
  (forall b, (length b < length body)%nat -> parseChildren1 b = parseChildren2 b) ->
  forall fuel i kids,
    parseChildren_loop parseChildren1 fuel body i kids
    = parseChildren_loop parseChildren2 fuel body i kids.
Proof.
  intros Hpc. induction fuel as [|fuel IH]; intros i kids; [reflexivity|].
  cbn [parseChildren_loop].
  destruct (i <? len body); [|reflexivity].
  set (i1 := skipWhile isSpaceOrComma body i).
  destruct (i1 >=? len body); [reflexivity|].
  rewrite (parseIfElse_with_agree body Hpc).
  rewrite (parseViewExpression_with_agree (trim (slice body i1 (exprEnd body i1)))).
  - assert (Hexpr : forall ks,
      (ks ≫= fun kids' =>
         parseChildren_loop parseChildren1 fuel body (exprEnd body i1 + 1) kids')
      = (ks ≫= fun kids' =>
         parseChildren_loop parseChildren2 fuel body (exprEnd body i1 + 1) kids'))
      by (intros [ks|]; [apply IH|reflexivity]).
    rewrite Hexpr.
    destruct (isWordAt body i1 (lit "if")); [|reflexivity].
    destruct (parseIfElse_with parseChildren2 _ body i1) as [[[node|] nx]|];
      cbn [mbind option_bind]; [apply IH|reflexivity|reflexivity].
  - intros b Hb. apply Hpc.
    pose proof (trim_length (slice body i1 (exprEnd body i1))).
    pose proof (slice_length_le body i1 (exprEnd body i1)). lia.
Qed.

End Agree.

Lemma parseChildrenBlock_depth_stable (depth1 : nat) :
  forall depth2 body,
    (length body < depth1)%nat -> (length body < depth2)%nat ->
    parseChildrenBlock_depth depth1 body = parseChildrenBlock_depth depth2 body.
Proof.
  induction depth1 as [|depth1 IH]; intros depth2 body H1 H2; [lia|].
  destruct depth2 as [|depth2]; [lia|].
  cbn [parseChildrenBlock_depth].
  apply parseChildren_loop_agree. intros b Hb. apply IH; lia.
Qed.

(** [parseChildrenBlock] is the loop of the source, with itself for the
    nested blocks. *)
Lemma parseChildrenBlock_unfold (body : jsstring) :
  parseChildrenBlock body
  = parseChildren_loop parseChildrenBlock (S (length body)) body 0 [].
Proof.
  unfold parseChildrenBlock at 1. cbn [parseChildrenBlock_depth].
  apply parseChildren_loop_agree. intros b Hb.
  apply parseChildrenBlock_depth_stable; lia.
Qed.

(** ** Normalized text *)

Lemma singleSpaced_cons (c : N) (s : jsstring) :
  isSpace c = false -> singleSpaced s = true -> singleSpaced (c :: s) = true.
Proof.
  intros Hc Hs. destruct s as [|d s]; [reflexivity|].
  cbn [singleSpaced] in *. rewrite Hc. exact Hs.
Qed.

Lemma singleSpaced_two (w c : N) (s : jsstring) :
  singleSpaced (w :: c :: s)
  = negb (isSpace w && isSpace c) && singleSpaced (c :: s).
Proof. reflexivity. Qed.

Lemma singleSpaced_flush (run : jsstring) (c : N) (s : jsstring) :
  isSpace c = false -> singleSpaced s = true ->
  singleSpaced (flushRun 2 run ++ c :: s) = true.
Proof.
  intros Hc Hs. pose proof (singleSpaced_cons c s Hc Hs) as Hcs.
  unfold flushRun. destruct run as [|w [|w' run]]; cbn [length Nat.leb app].
  - exact Hcs.
  - rewrite singleSpaced_two, Hc, andb_false_r. exact Hcs.
  - rewrite singleSpaced_two, Hc, andb_false_r. exact Hcs.
Qed.

Lemma replaceRunsFrom_singleSpaced (s : jsstring) :
  forall run, singleSpaced (replaceRunsFrom isSpace 2 run s) = true.
Proof.
  induction s as [|c s IH]; intros run.
  - cbn [replaceRunsFrom]. unfold flushRun.
    destruct run as [|w [|w' run]]; reflexivity.
  - cbn [replaceRunsFrom]. destruct (isSpace c) eqn:E; [apply IH|].
    apply singleSpaced_flush; [exact E|apply IH].
Qed.

Lemma singleSpaced_app (a b : jsstring) :
  singleSpaced (a ++ b) = true -> singleSpaced a = true /\ singleSpaced b = true.
Proof.
  induction a as [|c a IH]; [intros H; split; [reflexivity|exact H]|].
  destruct a as [|d a].
  - destruct b as [|e b]; [intros _; split; reflexivity|].
    cbn [app singleSpaced]. intros H. apply andb_true_iff in H as [_ H].
    split; [reflexivity|exact H].
  - cbn [app singleSpaced] in *. intros H. apply andb_true_iff in H as [H1 H2].
    destruct (IH H2) as [Ha Hb]. rewrite H1, Ha. split; [reflexivity|exact Hb].
Qed.

Lemma replaceRunsFrom_Forall (Q : N -> Prop) (p : N -> bool) (min : nat)
    (s : jsstring) :
  Q SPACE -> Forall Q s ->
  forall run, Forall Q run -> Forall Q (replaceRunsFrom p min run s).
Proof.
  intros Hsp Hs. induction Hs as [|c s Hc Hs IH]; intros run Hrun.
  - cbn [replaceRunsFrom]. unfold flushRun.
    destruct (min <=? length run)%nat; [repeat constructor; exact Hsp|exact Hrun].
  - cbn [replaceRunsFrom]. destruct (p c).
    + apply IH. apply Forall_app. split; [exact Hrun|repeat constructor; exact Hc].
    + apply Forall_app. split.
      * unfold flushRun.
        destruct (min <=? length run)%nat; [repeat constructor; exact Hsp|exact Hrun].
      * constructor; [exact Hc|apply IH; constructor].
Qed.

Lemma replaceRunsFrom_plus (p : N -> bool) (s : jsstring) :
  p SPACE = false ->
  forall run, Forall (fun c => p c = true) run ->
  Forall (fun c => p c = false) (replaceRunsFrom p 1 run s).
Proof.
  intros Hsp. induction s as [|c s IH]; intros run Hrun.
  - cbn [replaceRunsFrom]. unfold flushRun.
    destruct run; cbn [length Nat.leb]; repeat constructor. exact Hsp.
  - cbn [replaceRunsFrom]. destruct (p c) eqn:E.
    + apply IH. apply Forall_app. split; [exact Hrun|repeat constructor; exact E].
    + apply Forall_app. split.
      * unfold flushRun.
        destruct run; cbn [length Nat.leb]; repeat constructor. exact Hsp.
      * constructor; [exact E|apply IH; constructor].
Qed.

(** The text that [normalizeValue] measures has no line break and no
    tab, no two white-space characters in a row, and no white space at
    either end. *)
Lemma normalizedText_collapsed (val : jsstring) :
  Forall (fun c => isLineBreakOrTab c = false) (normalizedText val)
  /\ singleSpaced (normalizedText val) = true
  /\ trimmed (normalizedText val) = true.
Proof.
  unfold normalizedText.
  set (t := replaceRuns isSpace 2 (replaceRuns isLineBreakOrTab 1 val)).
  assert (Ht1 : Forall (fun c => isLineBreakOrTab c = false) t).
  { apply replaceRunsFrom_Forall; [reflexivity| |constructor].
    apply replaceRunsFrom_plus; [reflexivity|constructor]. }
  assert (Ht2 : singleSpaced t = true) by apply replaceRunsFrom_singleSpaced.
  pose proof (trim_split t) as Hsplit.
  split; [|split; [|apply trim_trimmed]].
  - rewrite Hsplit in Ht1. apply Forall_app in Ht1 as [_ Ht1].
    apply Forall_app in Ht1 as [Ht1 _]. exact Ht1.
  - rewrite Hsplit in Ht2. apply singleSpaced_app in Ht2 as [_ Ht2].
    apply singleSpaced_app in Ht2 as [Ht2 _]. exact Ht2.
Qed.

(** Every prop is a normalized value, after its label when it has one. *)
Lemma parsePropsFromArgs_values (argsText prop : jsstring) :
  In prop (parsePropsFromArgs argsText) ->
  exists value,
    prop = normalizeValue value
    \/ exists key, prop = key ++ lit ": " ++ normalizeValue value.
Proof.
  unfold parsePropsFromArgs.
  destruct (negb (truthy argsText) || negb (truthy (trim argsText)));
    [intros []|].
  rewrite in_map_iff. intros (part & <- & _). unfold propOfArg.
  destruct (matchLabelled part) as [[key val]|].
  - exists val. right. exists key. reflexivity.
  - exists part. left. reflexivity.
Qed.

(** C4. The normalized text of a value has no line break or tab, no two
    white-space characters in a row and no white space at its ends.
    When it has more than 60 code units the value is stored as its first
    57 code units followed by the ellipsis, 58 code units in all; when it
    has at most 60 it is stored as it is. Every prop of an argument list
    is a value stored in this way, after its label when it has one. *)
Theorem normalizeValue_truncation (val : jsstring) :
  (Forall (fun c => isLineBreakOrTab c = false) (normalizedText val)
   /\ singleSpaced (normalizedText val) = true
   /\ trimmed (normalizedText val) = true)
  /\ (60 < len (normalizedText val) ->
     length (normalizeValue val) = 58%nat
     /\ normalizeValue val = take 57 (normalizedText val) ++ [ELLIPSIS])
  /\ (len (normalizedText val) <= 60 ->
     normalizeValue val = normalizedText val)
  /\ (forall argsText prop,
        In prop (parsePropsFromArgs argsText) ->
        exists value,
          prop = normalizeValue value
          \/ exists key, prop = key ++ lit ": " ++ normalizeValue value).
Proof.
  split; [apply normalizedText_collapsed|].
  unfold normalizeValue. split; [|split]; [intros H|intros H|].
  - destruct (len (normalizedText val) >? 60) eqn:E; [|lia].
    rewrite slice_0 by lia. split; [|reflexivity].
    rewrite length_app, length_take. unfold len in H.
    change (length [ELLIPSIS]) with 1%nat. lia.
  - destruct (len (normalizedText val) >? 60) eqn:E; [lia|reflexivity].
  - apply parsePropsFromArgs_values.
Qed.

Lemma normalizeValue_truncation_witness :
  length (normalizeValue longValue) = 58%nat
  /\ normalizeValue longValue = take 57 (normalizedText longValue) ++ [ELLIPSIS].
Proof.
  apply (proj1 (proj2 (normalizeValue_truncation longValue))).
  vm_compute. reflexivity.
Defined.

(** ** Where arguments are split *)

Lemma splitArgs_step_forward (s : jsstring) (st : SplitState) :
  sa_i st < len s -> sa_i st < sa_i (splitArgs_step s st).
Proof.
  intros Hi. unfold splitArgs_step.
  destruct (charIs s (sa_i st) QUOTE).
  - simpl. pose proof (readSwiftString_ge s (sa_i st) Hi). lia.
  - destruct (charIs s (sa_i st) (chr ",") && _); simpl; lia.
Qed.

Lemma splitArgs_state_S (k : nat) (s : jsstring) :
  sa_i (splitArgs_state k s) < len s ->
  splitArgs_state (S k) s = splitArgs_step s (splitArgs_state k s).
Proof.
  intros H. cbn [splitArgs_state].
  replace (sa_i (splitArgs_state k s) <? len s) with true by lia. reflexivity.
Qed.

Lemma splitArgs_state_mono (s : jsstring) (k : nat) :
  forall m, sa_i (splitArgs_state k s) <= sa_i (splitArgs_state (m + k) s).
Proof.
  induction m as [|m IH]; [simpl; lia|].
  cbn [Nat.add splitArgs_state].
  destruct (sa_i (splitArgs_state (m + k) s) <? len s) eqn:E; [|exact IH].
  pose proof (splitArgs_step_forward s (splitArgs_state (m + k) s)). lia.
Qed.

(** Two iterations of the loop are at different indices, the later one
    at the greater index. *)
Lemma splitArgs_state_lt (s : jsstring) (k k' : nat) :
  (k < k')%nat ->
  sa_i (splitArgs_state k s) < len s ->
  sa_i (splitArgs_step s (splitArgs_state k s)) <= sa_i (splitArgs_state k' s).
Proof.
  intros Hk Hi. rewrite <- (splitArgs_state_S k s Hi).
  replace k' with ((k' - S k) + S k)%nat by lia.
  apply splitArgs_state_mono.
Qed.

Lemma splitArgs_state_done (s : jsstring) (k : nat) :
  (sa_i (splitArgs_state k s) <? len s) = false ->
  forall m, splitArgs_state (m + k) s = splitArgs_state k s.
Proof.
  intros E. induction m as [|m IH]; [reflexivity|].
  cbn [Nat.add splitArgs_state]. rewrite IH, E. reflexivity.
Qed.

Lemma splitArgs_loop_state (s : jsstring) :
  forall fuel k,
    splitArgs_loop fuel s (splitArgs_state k s) = splitArgs_state (fuel + k) s.
Proof.
  induction fuel as [|fuel IH]; intros k; [reflexivity|].
  cbn [splitArgs_loop].
  destruct (sa_i (splitArgs_state k s) <? len s) eqn:E.
  - rewrite <- splitArgs_state_S by lia. rewrite IH. f_equal. lia.
  - symmetry. apply splitArgs_state_done. exact E.
Qed.

Lemma splitArgs_step_push (s : jsstring) (st : SplitState) :
  sa_parts (splitArgs_step s st) <> sa_parts st ->
  charIs s (sa_i st) QUOTE = false
  /\ charIs s (sa_i st) (chr ",") = true
  /\ sa_depth st = 0
  /\ sa_parts (splitArgs_step s st) = sa_parts st ++ [trim (sa_cur st)].
Proof.
  unfold splitArgs_step.
  destruct (charIs s (sa_i st) QUOTE); [simpl; congruence|].
  destruct (charIs s (sa_i st) (chr ",")) eqn:Ecomma.
  - assert (charIs s (sa_i st) (chr "(") = false /\ charIs s (sa_i st) (chr ")") = false)
      as [-> ->].
    { unfold charIs in *. destruct (charAt s (sa_i st)) as [c|]; [|discriminate].
      apply N.eqb_eq in Ecomma. subst c. split; reflexivity. }
    destruct (sa_depth st =? 0) eqn:Ed; simpl; [|congruence].
    intros _. repeat split. lia.
  - simpl. congruence.
Qed.

(** *** The parts are the texts between the boundaries *)

Lemma readString_loop_lt (text : jsstring) :
  forall fuel i, 0 < len text -> readString_loop fuel text i < len text.
Proof.
  induction fuel as [|fuel IH]; intros i Hn; simpl; [lia|].
  destruct (i <? len text) eqn:E; [|lia].
  destruct (charIs text i BACKSLASH); [apply IH; lia|].
  destruct (charIs text i QUOTE); [lia|apply IH; lia].
Qed.

Lemma readTripleQuoted_loop_lt (text : jsstring) :
  forall fuel i, 0 < len text -> readTripleQuoted_loop fuel text i < len text.
Proof.
  induction fuel as [|fuel IH]; intros i Hn; simpl; [lia|].
  destruct (i <? len text - 2) eqn:E; [|lia].
  destruct (charIs text i QUOTE && charIs text (i + 1) QUOTE
            && charIs text (i + 2) QUOTE); [lia|apply IH; lia].
Qed.

Lemma readSwiftString_lt (text : jsstring) (i : Z) :
  i < len text -> 0 <= i -> readSwiftString text i < len text.
Proof.
  intros Hi H0. unfold readSwiftString.
  destruct (negb (charIs text i QUOTE)); [lia|].
  destruct (charIs text (i + 1) QUOTE && charIs text (i + 2) QUOTE).
  - apply readTripleQuoted_loop_lt. lia.
  - apply readString_loop_lt. lia.
Qed.

Lemma slice_inside (s : jsstring) (a b : Z) :
  0 <= a -> a <= b -> b <= len s ->
  slice s a b = take (Z.to_nat (b - a)) (drop (Z.to_nat a) s).
Proof.
  intros Ha Hab Hb. unfold slice, clampIndex.
  destruct (a <? 0) eqn:Ea; [lia|]. destruct (b <? 0) eqn:Eb; [lia|].
  rewrite !Z.min_l by lia. reflexivity.
Qed.

Lemma slice_app (s : jsstring) (a b c : Z) :
  0 <= a -> a <= b -> b <= c -> c <= len s ->
  slice s a b ++ slice s b c = slice s a c.
Proof.
  intros Ha Hab Hbc Hc.
  rewrite !slice_inside by lia.
  replace (Z.to_nat (c - a)) with (Z.to_nat (b - a) + Z.to_nat (c - b))%nat by lia.
  rewrite <- take_take_drop, drop_drop.
  do 3 f_equal. lia.
Qed.

Lemma charStr_slice (s : jsstring) (i : Z) :
  0 <= i -> i < len s -> charStr s i = slice s i (i + 1).
Proof.
  intros H0 Hi. rewrite slice_inside by lia.
  unfold charStr, charAt. destruct (i <? 0) eqn:E; [lia|].
  replace (Z.to_nat (i + 1 - i)) with 1%nat by lia.
  destruct (s !! Z.to_nat i) as [c|] eqn:L.
  - rewrite (drop_S s c (Z.to_nat i) L). reflexivity.
  - apply lookup_ge_None in L. unfold len in Hi. lia.
Qed.

Lemma slice_empty (s : jsstring) (a : Z) : 0 <= a -> a <= len s -> slice s a a = [].
Proof.
  intros H0 Ha. rewrite slice_inside by lia. rewrite Z.sub_diag. reflexivity.
Qed.

(** What the loop has accumulated is the text from the start of the
    current argument to the current index. *)
Lemma splitArgs_state_cur (s : jsstring) :
  forall k,
    let st := splitArgs_state k s in
    0 <= argumentStart k s <= sa_i st
    /\ sa_i st <= len s
    /\ sa_cur st = slice s (argumentStart k s) (sa_i st).
Proof.
  induction k as [|k IH]; cbn zeta in *.
  - cbn. repeat split; try (unfold len; lia).
    symmetry. apply slice_empty; unfold len; lia.
  - cbn [splitArgs_state argumentStart].
    destruct IH as ((Hs0 & Hsi) & Hlen & Hcur).
    set (st := splitArgs_state k s) in *.
    destruct (sa_i st <? len s) eqn:Ei; cbn [andb]; [|repeat split; assumption].
    unfold splitArgs_step.
    destruct (charIs s (sa_i st) QUOTE) eqn:Eq.
    + cbn [sa_parts sa_i sa_cur].
      rewrite bool_decide_eq_true_2 by reflexivity. cbn [negb].
      pose proof (readSwiftString_ge s (sa_i st) ltac:(lia)).
      pose proof (readSwiftString_lt s (sa_i st) ltac:(lia) ltac:(lia)).
      repeat split; try lia.
      rewrite Hcur. apply slice_app; lia.
    + match goal with
      | |- context [if ?b then mkSplit _ ?d [] _ else _] => destruct b eqn:Ec
      end; cbn [sa_parts sa_i sa_cur].
      * rewrite bool_decide_eq_false_2.
        2:{ intros H. apply (f_equal length) in H.
            rewrite length_app in H. simpl in H. lia. }
        cbn [negb]. repeat split; try lia.
        symmetry. apply slice_empty; lia.
      * rewrite bool_decide_eq_true_2 by reflexivity. cbn [negb].
        repeat split; try lia.
        rewrite Hcur, charStr_slice by lia. apply slice_app; lia.
Qed.

Lemma splitArgs_state_final (s : jsstring) :
  sa_i (splitArgs_state (length s) s) = len s.
Proof.
  assert (H : forall k, (k <= length s)%nat ->
                        Z.of_nat k <= sa_i (splitArgs_state k s)).
  { induction k as [|k IH]; intros Hk; [simpl; lia|].
    cbn [splitArgs_state]. specialize (IH ltac:(lia)).
    destruct (sa_i (splitArgs_state k s) <? len s) eqn:E.
    - pose proof (splitArgs_step_forward s (splitArgs_state k s) ltac:(lia)). lia.
    - unfold len in *. lia. }
  specialize (H (length s) ltac:(lia)).
  pose proof (splitArgs_state_cur s (length s)) as (_ & Hle & _).
  unfold len in *. lia.
Qed.

(** The parts of [splitArgs] are those pushed at the boundaries, each the
    trimmed text since the previous boundary, and then the trimmed rest
    of the text when it is not blank. *)
Lemma splitArgs_parts (s : jsstring) :
  (forall k,
     let st := splitArgs_state k s in
     sa_i st < len s ->
     sa_parts (splitArgs_step s st) <> sa_parts st ->
     sa_parts (splitArgs_step s st)
     = sa_parts st ++ [trim (slice s (argumentStart k s) (sa_i st))])
  /\ splitArgs s =
       let st := splitArgs_state (length s) s in
       let rest := trim (slice s (argumentStart (length s) s) (len s)) in
       if truthy rest then sa_parts st ++ [rest] else sa_parts st.
Proof.
  split.
  - intros k st Hi Hpush.
    apply splitArgs_step_push in Hpush as (_ & _ & _ & ->).
    pose proof (splitArgs_state_cur s k) as (_ & _ & Hcur).
    fold st in Hcur. rewrite Hcur. reflexivity.
  - unfold splitArgs.
    change splitArgs_init with (splitArgs_state 0 s).
    rewrite splitArgs_loop_state, Nat.add_0_r.
    pose proof (splitArgs_state_cur s (length s)) as (_ & _ & Hcur).
    rewrite splitArgs_state_final in Hcur. cbv zeta. rewrite Hcur. reflexivity.
Qed.

Lemma parenBalance_app (a b : jsstring) :
  parenBalance (a ++ b) = parenBalance a + parenBalance b.
Proof. induction a as [|c a IH]; simpl; [reflexivity|]. rewrite IH. lia. Qed.

(** The depth after the character at [j] is the balance up to it. *)
Lemma parenScan_depth (s : jsstring) (j d : Z) :
  0 <= j -> j < len s ->
  (if charIs s j (chr "(") then d + 1
   else if charIs s j (chr ")") then d - 1 else d)
  = d + parenBalance (slice s j (j + 1)).
Proof.
  intros H0 Hj. rewrite <- charStr_slice by lia.
  unfold charStr, charIs. destruct (charAt s j) as [c|] eqn:E.
  - cbn [parenBalance]. unfold parenStep.
    destruct (N.eqb c (chr "(")); [lia|]. destruct (N.eqb c (chr ")")); lia.
  - unfold charAt in E. destruct (j <? 0) eqn:E0; [lia|].
    apply lookup_ge_None in E. unfold len in Hj. lia.
Qed.

(** ** Conditionals *)

Section IfShape.

Variable parseChildren : Parser.

Lemma parseIfElse_with_kind fuel text i node nextIndex :
  parseIfElse_with parseChildren fuel text i = Some (Some node, nextIndex) ->
  kind node = If.
Proof.
  destruct fuel as [|fuel]; [discriminate|]. simpl.
  repeat match goal with
         | |- (if ?b then _ else _) = _ -> _ => destruct b
         | |- match ?m with Some _ => _ | None => _ end = _ -> _ =>
             destruct m as [?|]
         | |- (?m ≫= _) = _ -> _ => destruct m as [?|]; simpl
         | |- match ?m with (_, _) => _ end = _ -> _ => destruct m as [[?|] ?]
         | |- Some _ = Some _ -> _ => intros [= <- <-]; reflexivity
         | |- _ => discriminate
         end.
Qed.

(** The branches of the node that [parseIfElse] builds, by what follows
    the block of the condition. *)
Lemma parseIfElse_with_children fuel text i node nextIndex :
  parseIfElse_with parseChildren fuel text i = Some (Some node, nextIndex) ->
  exists thenKids,
    if hasElseIf text i then
      children node = [branchNode "Then" thenKids]
      \/ exists nested,
           kind nested = If
           /\ children node =
                [branchNode "Then" thenKids; branchNode "Else" [nested]]
    else if hasElse text i then
      children node = [branchNode "Then" thenKids]
      \/ exists elseKids,
           children node =
             [branchNode "Then" thenKids; branchNode "Else" elseKids]
    else children node = [branchNode "Then" thenKids].
Proof.
  destruct fuel as [|fuel]; [discriminate|].
  unfold hasElseIf, hasElse, afterElse, afterThen, thenBlock.
  cbn [parseIfElse_with].
  set (k := condEnd text (skipWhile isSpace text (i + 2))).
  destruct ((k >=? len text) || negb (charIs text k (chr "{")));
    [intros [=]|].
  destruct (readBalanced text k (chr "{") (chr "}")) as [blk|]; [|intros [=]].
  destruct (parseChildren (inner blk)) as [thenKids|]; cbn [mbind option_bind]; [|intros [=]].
  intros H. exists thenKids. revert H.
  set (cursor := skipWhile isSpace text (blockEnd blk + 1)).
  destruct (isWordAt text cursor (lit "else")); cbn [mbind option_bind].
  - set (cursor1 := skipWhile isSpace text (cursor + 4)).
    destruct (isWordAt text cursor1 (lit "if")).
    + destruct (parseIfElse_with parseChildren fuel text cursor1)
        as [[[nested|] nx]|] eqn:Erec; cbn [mbind option_bind]; [| |intros [=]].
      * intros [= <- <-]. right. exists nested.
        split; [eapply parseIfElse_with_kind; eassumption|reflexivity].
      * intros [= <- <-]. left. reflexivity.
    + destruct (charIs text cursor1 (chr "{")).
      * destruct (readBalanced text cursor1 (chr "{") (chr "}")) as [eb|].
        -- destruct (parseChildren (inner eb)) as [elseKids|]; cbn [mbind option_bind];
             [|intros [=]].
           intros [= <- <-]. right. exists elseKids. reflexivity.
        -- intros [= <- <-]. left. reflexivity.
      * intros [= <- <-]. left. reflexivity.
  - intros [= <- <-]. reflexivity.
Qed.

End IfShape.

Lemma allNodes_unfold (P : ViewNode -> bool) (t : ViewNode) :
  allNodes P t = P t && forallb (allNodes P) (children t).
Proof. destruct t. reflexivity. Qed.

Lemma allNodes_branch (nm : string) (kids : list ViewNode) :
  allNodes ifInvariant (branchNode nm kids)
  = forallb (allNodes ifInvariant) kids.
Proof. rewrite allNodes_unfold. reflexivity. Qed.

Lemma allNodes_if_then (c : jsstring) (thenKids : list ViewNode) :
  allNodes ifInvariant (ifNode c [branchNode "Then" thenKids])
  = forallb (allNodes ifInvariant) thenKids.
Proof.
  rewrite allNodes_unfold. cbn [children ifNode forallb].
  rewrite allNodes_branch, andb_true_r. reflexivity.
Qed.

Lemma allNodes_if_then_else (c : jsstring) (thenKids elseKids : list ViewNode) :
  allNodes ifInvariant
    (ifNode c [branchNode "Then" thenKids; branchNode "Else" elseKids])
  = forallb (allNodes ifInvariant) thenKids
    && forallb (allNodes ifInvariant) elseKids.
Proof.
  rewrite allNodes_unfold. cbn [children ifNode forallb].
  rewrite !allNodes_branch, andb_true_r. reflexivity.
Qed.

Lemma baseKind_not_If (nm : jsstring) : baseKind nm <> If.
Proof.
  unfold baseKind. destruct (isForEachName nm); [discriminate|].
  destruct (isContainerName nm); discriminate.
Qed.

Lemma forallb_snoc (P : ViewNode -> bool) (l : list ViewNode) (x : ViewNode) :
  forallb P l = true -> P x = true -> forallb P (l ++ [x]) = true.
Proof.
  intros Hl Hx. rewrite forallb_app. simpl. rewrite Hl, Hx. reflexivity.
Qed.

Section IfInvariant.

Variable parseChildren : Parser.

Hypothesis parseChildren_inv :
  forall b kids,
    parseChildren b = Some kids -> forallb (allNodes ifInvariant) kids = true.

Lemma parseContentClosure_inv s j kids j' :
  parseContentClosure parseChildren s j = Some (kids, j') ->
  forallb (allNodes ifInvariant) kids = true.
Proof.
  unfold parseContentClosure.
  destruct (findContent (sliceFrom s j)) as [[index mlen]|];
    [|intros [= <- <-]; reflexivity].
  destruct (readBalanced s _ (chr "{") (chr "}")) as [blk|];
    [|intros [= <- <-]; reflexivity].
  destruct (parseChildren _) as [ks|] eqn:E; cbn [mbind option_bind];
    [|intros [=]].
  intros [= <- <-]. eapply parseChildren_inv. eassumption.
Qed.

Lemma parseViewExpression_with_inv expr node :
  parseViewExpression_with parseChildren expr = Some node ->
  allNodes ifInvariant node = true.
Proof.
  unfold parseViewExpression_with.
  set (s := trim expr). set (nm := baseName s). set (i := argsOpen s).
  match goal with
  | |- (?m ≫= _) = _ -> _ =>
      destruct m as [[[props0 children0] i2]|] eqn:E1; [|intros [=]]
  end.
  assert (H0 : forallb (allNodes ifInvariant) children0 = true).
  { destruct ((i <? len s) && charIs s i (chr "("));
      [|injection E1 as <- <- <-; reflexivity].
    destruct (bool_decide (baseKind nm = ForEach));
      [|injection E1 as <- <- <-; reflexivity].
    destruct (parseContentClosure parseChildren s _) as [[ks j']|] eqn:E;
      cbn [mbind option_bind] in E1; [|discriminate].
    injection E1 as <- <- <-. eapply parseContentClosure_inv. eassumption. }
  cbn [mbind option_bind].
  match goal with
  | |- (?m ≫= _) = _ -> _ =>
      destruct m as [[[kind1 children1] baseEnd]|] eqn:E2; [|intros [=]]
  end.
  cbn [mbind option_bind]. intros [= <-].
  assert (H1 : kind1 <> If /\ forallb (allNodes ifInvariant) children1 = true).
  { pose proof (baseKind_not_If nm).
    destruct ((skipWhile isSpace s i2 <? len s) && _);
      [|injection E2 as <- <- <-; split; assumption].
    destruct (readBalanced s _ (chr "{") (chr "}")) as [blk|];
      [|injection E2 as <- <- <-; split; assumption].
    destruct (parseChildren _) as [ks|] eqn:E; cbn [mbind option_bind] in E2;
      [|discriminate].
    injection E2 as <- <- <-. split.
    - destruct (isForEachName nm); [discriminate|assumption].
    - eapply parseChildren_inv. eassumption. }
  destruct H1 as [Hk Hc]. rewrite allNodes_unfold. cbn [children].
  rewrite Hc, andb_true_r. unfold ifInvariant. cbn [kind].
  rewrite bool_decide_eq_false_2 by assumption. reflexivity.
Qed.

Lemma parseIfElse_with_inv fuel :
  forall text i node nextIndex,
    parseIfElse_with parseChildren fuel text i = Some (Some node, nextIndex) ->
    allNodes ifInvariant node = true.
Proof.
  induction fuel as [|fuel IH]; intros text i node nextIndex; [intros [=]|].
  cbn [parseIfElse_with].
  set (k := condEnd text (skipWhile isSpace text (i + 2))).
  destruct ((k >=? len text) || negb (charIs text k (chr "{")));
    [intros [=]|].
  destruct (readBalanced text k (chr "{") (chr "}")) as [blk|]; [|intros [=]].
  destruct (parseChildren (inner blk)) as [thenKids|] eqn:Ethen;
    cbn [mbind option_bind]; [|intros [=]].
  apply parseChildren_inv in Ethen.
  set (cursor := skipWhile isSpace text (blockEnd blk + 1)).
  destruct (isWordAt text cursor (lit "else")).
  - set (cursor1 := skipWhile isSpace text (cursor + 4)).
    destruct (isWordAt text cursor1 (lit "if")).
    + destruct (parseIfElse_with parseChildren fuel text cursor1)
        as [[[nested|] nx]|] eqn:Erec; cbn [mbind option_bind]; [| |intros [=]].
      * intros [= <- <-]. apply IH in Erec.
        rewrite allNodes_if_then_else. cbn [forallb].
        rewrite Ethen, Erec. reflexivity.
      * intros [= <- <-]. rewrite allNodes_if_then. assumption.
    + destruct (charIs text cursor1 (chr "{")).
      * destruct (readBalanced text cursor1 (chr "{") (chr "}")) as [eb|].
        -- destruct (parseChildren (inner eb)) as [elseKids|] eqn:Eelse;
             cbn [mbind option_bind]; [|intros [=]].
           apply parseChildren_inv in Eelse.
           intros [= <- <-]. rewrite allNodes_if_then_else, Ethen, Eelse.
           reflexivity.
        -- intros [= <- <-]. rewrite allNodes_if_then. assumption.
      * intros [= <- <-]. rewrite allNodes_if_then. assumption.
  - intros [= <- <-]. rewrite allNodes_if_then. assumption.
Qed.

Lemma parseChildren_loop_inv fuel body :
  forall i kids kids',
    forallb (allNodes ifInvariant) kids = true ->
    parseChildren_loop parseChildren fuel body i kids = Some kids' ->
    forallb (allNodes ifInvariant) kids' = true.
Proof.
  induction fuel as [|fuel IH]; intros i kids kids' Hkids; [intros [=]|].
  cbn [parseChildren_loop].
  destruct (i <? len body); [|intros [= <-]; assumption].
  set (i1 := skipWhile isSpaceOrComma body i).
  destruct (i1 >=? len body); [intros [= <-]; assumption|].
  assert (Hexpr : forall r,
    (kids1 ← (if truthy (trim (slice body i1 (exprEnd body i1)))
              then node ← parseViewExpression_with parseChildren
                             (trim (slice body i1 (exprEnd body i1)));
                   Some (kids ++ [node])
              else Some kids);
     parseChildren_loop parseChildren fuel body (exprEnd body i1 + 1) kids1)
    = Some r -> forallb (allNodes ifInvariant) r = true).
  { intros r.
    destruct (truthy _).
    - destruct (parseViewExpression_with parseChildren _) as [node|] eqn:E;
        cbn [mbind option_bind]; [|intros [=]].
      apply IH. apply forallb_snoc; [assumption|].
      eapply parseViewExpression_with_inv. eassumption.
    - cbn [mbind option_bind]. apply IH. assumption. }
  destruct (isWordAt body i1 (lit "if")); [|apply Hexpr].
  destruct (parseIfElse_with parseChildren _ body i1) as [[[node|] nx]|] eqn:E;
    cbn [mbind option_bind]; [| |intros [=]].
  - apply IH. apply forallb_snoc; [assumption|].
    eapply parseIfElse_with_inv. eassumption.
  - apply Hexpr.
Qed.

End IfInvariant.

Lemma parseChildrenBlock_depth_inv depth :
  forall body kids,
    parseChildrenBlock_depth depth body = Some kids ->
    forallb (allNodes ifInvariant) kids = true.
Proof.
  induction depth as [|depth IH]; intros body kids; [intros [=]|].
  cbn [parseChildrenBlock_depth].
  apply parseChildren_loop_inv; [exact IH|reflexivity].
Qed.

(** C5. The node that [parseIfElse] builds has kind [If]; its children
    are one [Then] branch, followed by at most one [Else] branch, which
    holds a nested [If] node when [else] is followed by [if]; without
    [else] there is only the [Then] branch. Every [If] node of a parsed
    block has this shape, and [if flag { A() } else { B() }] parses to an
    [If] node with the two branches [Then] and [Else]. *)
Theorem if_node_branches :
  (forall text i node nextIndex,
     parseIfElse text i = Some (Some node, nextIndex) ->
     kind node = If
     /\ ifShape node = true
     /\ exists thenKids,
          if hasElseIf text i then
            children node = [branchNode "Then" thenKids]
            \/ exists nested,
                 kind nested = If
                 /\ children node =
                      [branchNode "Then" thenKids; branchNode "Else" [nested]]
          else if hasElse text i then
            children node = [branchNode "Then" thenKids]
            \/ exists elseKids,
                 children node =
                   [branchNode "Then" thenKids; branchNode "Else" elseKids]
          else children node = [branchNode "Then" thenKids])
  /\ (forall body kids,
        parseChildrenBlock body = Some kids ->
        forallb (allNodes ifInvariant) kids = true)
  /\ parseChildrenBlock ifElseText =
       Some [ifNode (lit "flag")
               [branchNode "Then" [leaf "A"]; branchNode "Else" [leaf "B"]]]
  /\ parseChildrenBlock ifOnlyText =
       Some [ifNode (lit "flag") [branchNode "Then" [leaf "A"]]].
Proof.
  split; [|split; [|split; vm_compute; reflexivity]].
  - intros text i node nextIndex H. unfold parseIfElse in H.
    pose proof (parseIfElse_with_kind _ _ _ _ _ _ H) as Hkind.
    pose proof (parseIfElse_with_children _ _ _ _ _ _ H) as [thenKids Hc].
    split; [assumption|]. split; [|exists thenKids; assumption].
    unfold ifShape.
    destruct (hasElseIf text i); [|destruct (hasElse text i)].
    + destruct Hc as [->|(nested & _ & ->)]; reflexivity.
    + destruct Hc as [->|(elseKids & ->)]; reflexivity.
    + rewrite Hc. reflexivity.
  - intros body kids. apply parseChildrenBlock_depth_inv.
Qed.

Lemma if_node_branches_witness :
  kind (ifNode (lit "flag")
          [branchNode "Then" [leaf "A"]; branchNode "Else" [leaf "B"]]) = If
  /\ ifShape (ifNode (lit "flag")
               [branchNode "Then" [leaf "A"]; branchNode "Else" [leaf "B"]])
     = true.
Proof.
  destruct (proj1 if_node_branches ifElseText 0
              (ifNode (lit "flag")
                 [branchNode "Then" [leaf "A"]; branchNode "Else" [leaf "B"]])
              28 ltac:(vm_compute; reflexivity)) as (Hk & Hs & _).
  split; assumption.
Defined.

(** ** The bound on the recursion *)

Lemma resolveCustomViews_S fuel viewMap tree seen :
  resolveCustomViews (S fuel) viewMap tree seen =
    ('(tree1, seen1) ← inlineCustomView viewMap tree seen;
     '(kids, seen2) ← forEachChild (resolveCustomViews fuel viewMap)
                        (children tree1) seen1;
     Some (Node (kind tree1) (name tree1) (modifiers tree1) kids (props tree1),
           seen2)).
Proof. reflexivity. Qed.

Lemma forEachChild_more (resolve1 resolve2 : ViewNode -> Seen -> option (ViewNode * Seen)) :
  (forall c seen r, resolve1 c seen = Some r -> resolve2 c seen = Some r) ->
  forall kids seen r,
    forEachChild resolve1 kids seen = Some r ->
    forEachChild resolve2 kids seen = Some r.
Proof.
  intros Hres kids. induction kids as [|c rest IH]; intros seen r;
    [intros H; exact H|].
  cbn [forEachChild].
  destruct (resolve1 c seen) as [[c1 s1]|] eqn:E1; cbn [mbind option_bind];
    [|intros [=]].
  rewrite (Hres _ _ _ E1). cbn [mbind option_bind].
  destruct (forEachChild resolve1 rest s1) as [[r1 s2]|] eqn:E2;
    cbn [mbind option_bind]; [|intros [=]].
  rewrite (IH _ _ E2). cbn [mbind option_bind]. intros H. exact H.
Qed.

(** A call that returns within a bound returns the same tree within any
    greater bound: the bound is not part of the result. *)
Lemma resolveCustomViews_more fuel :
  forall viewMap tree seen r,
    resolveCustomViews fuel viewMap tree seen = Some r ->
    resolveCustomViews (S fuel) viewMap tree seen = Some r.
Proof.
  induction fuel as [|fuel IH]; intros viewMap tree seen r; [intros [=]|].
  rewrite (resolveCustomViews_S (S fuel)), (resolveCustomViews_S fuel).
  destruct (inlineCustomView viewMap tree seen) as [[t1 s1]|];
    cbn [mbind option_bind]; [|intros [=]].
  destruct (forEachChild (resolveCustomViews fuel viewMap) (children t1) s1)
    as [[kids s2]|] eqn:E; cbn [mbind option_bind]; [|intros [=]].
  rewrite (forEachChild_more _ (resolveCustomViews (S fuel) viewMap)
             (fun c seen r => IH viewMap c seen r) _ _ _ E).
  intros H. exact H.
Qed.

Lemma buildTreeForRoot_more fuel viewMap rootName r :
  buildTreeForRoot fuel viewMap rootName = Some r ->
  buildTreeForRoot (S fuel) viewMap rootName = Some r.
Proof.
  unfold buildTreeForRoot.
  destruct (map_get viewMap rootName) as [body|]; [|intros H; exact H].
  destruct (negb (truthy body)); [intros H; exact H|].
  destruct (parseChildrenBlock body) as [kids|]; cbn [mbind option_bind];
    [|intros [=]].
  assert (Hstep : forall t,
    ('(root, _) ← resolveCustomViews fuel viewMap t ∅; Some (Some root)) = Some r ->
    ('(root, _) ← resolveCustomViews (S fuel) viewMap t ∅; Some (Some root))
    = Some r).
  { intros t.
    destruct (resolveCustomViews fuel viewMap t ∅) as [[root s]|] eqn:E;
      cbn [mbind option_bind]; [|intros [=]].
    rewrite (resolveCustomViews_more _ _ _ _ _ E). intros H. exact H. }
  destruct kids as [|k1 [|k2 rest]]; apply Hstep.
Qed.

(** ** The in-progress set *)

Lemma forEachChild_seen (resolve : ViewNode -> Seen -> option (ViewNode * Seen)) :
  (forall c seen c' seen', resolve c seen = Some (c', seen') -> seen' = seen) ->
  forall kids seen kids' seen',
    forEachChild resolve kids seen = Some (kids', seen') -> seen' = seen.
Proof.
  intros Hres kids. induction kids as [|c rest IH]; intros seen kids' seen' H.
  - simpl in H. congruence.
  - simpl in H.
    destruct (resolve c seen) as [[c1 s1]|] eqn:E1; simpl in H; [|discriminate].
    destruct (forEachChild resolve rest s1) as [[r2 s2]|] eqn:E2; simpl in H;
      [|discriminate].
    injection H as <- <-.
    apply IH in E2. apply Hres in E1. congruence.
Qed.

Lemma seen_add_delete (nm : jsstring) (seen : Seen) :
  nm ∉ seen -> ({[nm]} ∪ seen) ∖ {[nm]} = seen.
Proof.
  intros Hnot. apply set_eq. intros x.
  rewrite elem_of_difference, elem_of_union, elem_of_singleton.
  split; [intros [[->|H] Hne]; [contradiction|assumption]|].
  intros H. split; [right; assumption|]. intros ->. contradiction.
Qed.

Lemma inlineCustomView_seen viewMap tree seen tree' seen' :
  inlineCustomView viewMap tree seen = Some (tree', seen') -> seen' = seen.
Proof.
  unfold inlineCustomView. intros H.
  destruct (map_has viewMap (name tree) && negb (includes CONTAINER_TYPES (name tree)));
    [|congruence].
  destruct (bool_decide (name tree ∈ seen)) eqn:E; [congruence|].
  apply bool_decide_eq_false in E.
  destruct (map_get viewMap (name tree)) as [body|]; simpl in H; [|discriminate].
  destruct (parseChildrenBlock body) as [parsed|]; simpl in H; [|discriminate].
  simplify_eq. apply seen_add_delete. assumption.
Qed.

(** When a call of [resolveCustomViews] returns, the in-progress set is
    what it was when the call started. *)
Lemma resolveCustomViews_seen fuel viewMap :
  forall tree seen tree' seen',
    resolveCustomViews fuel viewMap tree seen = Some (tree', seen') ->
    seen' = seen.
Proof.
  induction fuel as [|fuel IH]; intros tree seen tree' seen' H; [discriminate|].
  simpl in H.
  destruct (inlineCustomView viewMap tree seen) as [[t1 s1]|] eqn:E1;
    simpl in H; [|discriminate].
  destruct (forEachChild (resolveCustomViews fuel viewMap) (children t1) s1)
    as [[k2 s2]|] eqn:E2; simpl in H; [|discriminate].
  injection H as <- <-.
  apply inlineCustomView_seen in E1.
  apply (forEachChild_seen _ IH) in E2. congruence.
Qed.

(** A node that names a declaration, is not reserved and is not in
    progress is inlined, whatever its children were. *)
Lemma inlineCustomView_inlines viewMap tree seen :
  map_has viewMap (name tree) = true ->
  includes CONTAINER_TYPES (name tree) = false ->
  name tree ∉ seen ->
  inlineCustomView viewMap tree seen =
    (body ← map_get viewMap (name tree);
     parsed ← parseChildrenBlock body;
     Some (Node CustomView (name tree) (modifiers tree) parsed (props tree), seen)).
Proof.
  intros Hhas Hres Hseen. unfold inlineCustomView.
  rewrite Hhas, Hres. simpl.
  rewrite bool_decide_eq_false_2 by assumption.
  rewrite seen_add_delete by assumption. reflexivity.
Qed.

Lemma resolveCustomViews_inlines fuel viewMap tree seen :
  map_has viewMap (name tree) = true ->
  includes CONTAINER_TYPES (name tree) = false ->
  name tree ∉ seen ->
  resolveCustomViews (S fuel) viewMap tree seen =
    (body ← map_get viewMap (name tree);
     parsed ← parseChildrenBlock body;
     '(inlined, _) ← forEachChild (resolveCustomViews fuel viewMap) parsed seen;
     Some (Node CustomView (name tree) (modifiers tree) inlined (props tree), seen)).
Proof.
  intros Hhas Hres Hseen. simpl.
  rewrite inlineCustomView_inlines by assumption.
  destruct (map_get viewMap (name tree)) as [body|]; simpl; [|reflexivity].
  destruct (parseChildrenBlock body) as [parsed|]; simpl; [|reflexivity].
  destruct (forEachChild (resolveCustomViews fuel viewMap) parsed seen)
    as [[inlined s]|] eqn:E; simpl; [|reflexivity].
  apply (forEachChild_seen _ (resolveCustomViews_seen fuel viewMap)) in E.
  subst s. reflexivity.
Qed.

Lemma forEachChild_independent fuel viewMap (kids : list ViewNode) (seen : Seen) :
  forEachChild (resolveCustomViews fuel viewMap) kids seen =
    (kids' ← mapM (fun c => fst <$> resolveCustomViews fuel viewMap c seen) kids;
     Some (kids', seen)).
Proof.
  induction kids as [|c rest IH]; [reflexivity|].
  simpl.
  destruct (resolveCustomViews fuel viewMap c seen) as [[c' s]|] eqn:E; simpl;
    [|reflexivity].
  apply resolveCustomViews_seen in E. subst s.
  rewrite IH.
  destruct (mapM _ rest) as [rest'|]; reflexivity.
Qed.

(** ** Self-reference *)

Lemma group_is_reserved : includes CONTAINER_TYPES (lit "Group") = true.
Proof. vm_compute. reflexivity. Qed.

Lemma forEachChild_None_elem fuel viewMap (kids : list ViewNode) (seen : Seen) k :
  k ∈ kids ->
  resolveCustomViews fuel viewMap k seen = None ->
  forEachChild (resolveCustomViews fuel viewMap) kids seen = None.
Proof.
  intros Hin Hk. rewrite forEachChild_independent.
  destruct (mapM _ kids) as [kids'|] eqn:E; [|reflexivity].
  exfalso.
  assert (Hs : is_Some (mapM (fun c => fst <$> resolveCustomViews fuel viewMap c seen) kids))
    by (rewrite E; eauto).
  rewrite mapM_is_Some in Hs.
  rewrite Forall_forall in Hs. specialize (Hs k Hin).
  simpl in Hs. rewrite Hk in Hs. destruct Hs as [? Hs]. discriminate.
Qed.

(** A declaration whose body refers to the declaration itself is
    inlined again at every level: no bound on the depth of the recursion
    is enough for [resolveCustomViews] to return. *)
Lemma self_reference_never_returns viewMap nm body kids k :
  map_get viewMap nm = Some body ->
  includes CONTAINER_TYPES nm = false ->
  parseChildrenBlock body = Some kids ->
  k ∈ kids -> refersTo viewMap nm k ->
  forall fuel tree seen,
    refersTo viewMap nm tree -> nm ∉ seen ->
    resolveCustomViews fuel viewMap tree seen = None.
Proof.
  intros Hget Hres Hparse Hin Hk fuel.
  induction fuel as [|fuel IH]; intros tree seen Hrefers Hseen; [reflexivity|].
  destruct Hrefers as [tree Hname|tree c Hkeeps Hc Hrefers].
  - rewrite resolveCustomViews_inlines; rewrite ?Hname; try assumption.
    + rewrite Hget. simpl. rewrite Hparse. simpl.
      rewrite (forEachChild_None_elem fuel viewMap kids seen k Hin);
        [reflexivity|].
      apply IH; assumption.
    + unfold map_has. rewrite Hget. reflexivity.
  - rewrite resolveCustomViews_S. unfold inlineCustomView.
    unfold keepsChildren in Hkeeps. apply negb_true_iff in Hkeeps.
    rewrite Hkeeps. cbn [mbind option_bind].
    rewrite (forEachChild_None_elem fuel viewMap (children tree) seen c Hc);
      [reflexivity|].
    apply IH; assumption.
Qed.

(** C1. When the body of a declaration refers to the declaration itself
    (and the name is not reserved), [buildTreeForRoot] on that
    declaration does not return, however deep the recursion is allowed
    to go: the reference is inlined again at every level and never
    marked. *)
Theorem buildTree_self_reference_unbounded viewMap nm body kids k :
  map_get viewMap nm = Some body ->
  includes CONTAINER_TYPES nm = false ->
  parseChildrenBlock body = Some kids ->
  k ∈ kids -> refersTo viewMap nm k ->
  forall fuel, buildTreeForRoot fuel viewMap nm = None.
Proof.
  intros Hget Hres Hparse Hin Hk fuel.
  pose proof (self_reference_never_returns viewMap nm body kids k
                Hget Hres Hparse Hin Hk) as Hloop.
  unfold buildTreeForRoot. rewrite Hget.
  destruct body as [|c body'].
  { change (parseChildrenBlock []) with (Some (@nil ViewNode)) in Hparse.
    injection Hparse as <-. inversion Hin. }
  cbn [truthy negb]. rewrite Hparse. cbn [mbind option_bind].
  assert (Hgroup : resolveCustomViews fuel viewMap (groupNode kids) ∅ = None).
  { apply Hloop; [|apply not_elem_of_empty].
    apply (refers_below _ _ (groupNode kids) k); [|exact Hin|exact Hk].
    unfold keepsChildren. change (name (groupNode kids)) with (lit "Group").
    rewrite group_is_reserved, andb_false_r. reflexivity. }
  destruct kids as [|k1 [|k2 rest]].
  - inversion Hin.
  - apply list_elem_of_singleton in Hin. subst k1.
    rewrite (Hloop fuel k ∅ Hk (not_elem_of_empty _)). reflexivity.
  - rewrite Hgroup. reflexivity.
Qed.

(** [struct A: View { var body: some View { A() } }]: the body parses
    to the one leaf [A], and the tree of [A] is never returned; nor is
    it when the body is [VStack { A() }]. *)
Lemma buildTree_self_reference_unbounded_witness :
  extractViews selfReferencingSource = selfReferencing
  /\ parseChildrenBlock (lit " A() ") = Some [leaf "A"]
  /\ (forall fuel, buildTreeForRoot fuel selfReferencing (lit "A") = None)
  /\ (forall fuel, buildTreeForRoot fuel nestedSelfReferencing (lit "A") = None).
Proof.
  split; [vm_compute; reflexivity|]. split; [vm_compute; reflexivity|]. split.
  - apply (buildTree_self_reference_unbounded selfReferencing (lit "A")
             (lit " A() ") [leaf "A"] (leaf "A")).
    + reflexivity.
    + reflexivity.
    + vm_compute. reflexivity.
    + apply list_elem_of_here.
    + apply refers_here. reflexivity.
  - apply (buildTree_self_reference_unbounded nestedSelfReferencing (lit "A")
             (lit " VStack { A() } ")
             [Node Container (lit "VStack") [] [leaf "A"] (Some [])]
             (Node Container (lit "VStack") [] [leaf "A"] (Some []))).
    + reflexivity.
    + reflexivity.
    + vm_compute. reflexivity.
    + apply list_elem_of_here.
    + apply (refers_below _ _ _ (leaf "A")).
      * vm_compute. reflexivity.
      * apply list_elem_of_here.
      * apply refers_here. reflexivity.
Defined.

(** ** Siblings that name the same declaration *)




(** ** Nodes with children of their own *)

(** C2. [Card { Text("kept") }] parses to a node with one child; [Card]
    being a declaration, [buildTreeForRoot] replaces that child by the
    parsed body of the declaration. *)
Theorem non_leaf_children_replaced :
  extractViews cardSource = cardMap
  /\ parseChildrenBlock (lit " Card { Text(" ++ quoted "kept" ++ lit ") } ")
    = Some [Node View (lit "Card") [] [textNode (quoted "kept")] (Some [])]
  /\ buildTreeForRoot 2 cardMap (lit "Root")
    = Some (Some (Node CustomView (lit "Card") []
                    [textNode (quoted "declared")] (Some []))).
Proof. repeat split; vm_compute; reflexivity. Qed.

(** ** Declarations *)

Lemma eqb_eq (a b : jsstring) : eqb a b = true <-> a = b.
Proof. unfold eqb. apply bool_decide_eq_true. Qed.

Lemma map_get_set (viewMap : ViewMap) (key value key' : jsstring) :
  map_get (map_set viewMap key value) key'
  = if eqb key key' then Some value else map_get viewMap key'.
Proof.
  induction viewMap as [|[k v] rest IH]; cbn [map_set map_get].
  - destruct (eqb key key'); reflexivity.
  - destruct (eqb k key) eqn:E; cbn [map_get]; rewrite ?IH;
      unfold eqb in *; repeat case_bool_decide; congruence.
Qed.

Lemma search_Some {A : Type} (matchAt : Z -> option A) :
  forall fuel p q r,
    search matchAt fuel p = Some (q, r) -> matchAt q = Some r.
Proof.
  induction fuel as [|fuel IH]; intros p q r; [intros [=]|].
  cbn [search]. destruct (matchAt p) as [r'|] eqn:E.
  - intros [= <- <-]. exact E.
  - apply IH.
Qed.

(** Every entry of the map comes from a declaration whose rendering body
    was found: a declaration without one is not in the map. *)
Lemma extractViews_loop_entries (source : jsstring) :
  forall fuel lastIndex viewMap nm body,
    (forall k v, map_get viewMap k = Some v ->
       exists p start,
         matchStructAt source p = Some (k, start)
         /\ bodyOfStruct source start = Some v) ->
    map_get (extractViews_loop fuel source lastIndex viewMap) nm = Some body ->
    exists p start,
      matchStructAt source p = Some (nm, start)
      /\ bodyOfStruct source start = Some body.
Proof.
  induction fuel as [|fuel IH]; intros lastIndex viewMap nm body Hmap;
    [apply Hmap|].
  cbn [extractViews_loop].
  destruct (searchFrom source (matchStructAt source) lastIndex)
    as [[p [k start]]|] eqn:E; [|apply Hmap].
  apply search_Some in E.
  destruct (bodyOfStruct source start) as [v|] eqn:Eb; apply IH; [|exact Hmap].
  intros k' v'. rewrite map_get_set.
  destruct (eqb k k') eqn:Ek; [|apply Hmap].
  apply eqb_eq in Ek. subst k'. intros [= <-]. eauto.
Qed.

Lemma extractViews_entries (source nm body : jsstring) :
  map_get (extractViews source) nm = Some body ->
  exists p start,
    matchStructAt source p = Some (nm, start)
    /\ bodyOfStruct source start = Some body.
Proof.
  apply extractViews_loop_entries. intros k v [=].
Qed.

(** ** Roots *)

(** C6. For a root name that is not a key of the map, and for one whose
    body text is empty, [buildTreeForRoot] returns [null], whatever the
    bound on the recursion; so it does on the map of a source text for
    a name none of whose declarations has a rendering body that can be
    found. *)
Theorem unresolvable_root_is_null fuel rootName :
  (forall viewMap,
     map_get viewMap rootName = None \/ map_get viewMap rootName = Some [] ->
     buildTreeForRoot fuel viewMap rootName = Some None)
  /\ (forall source,
       (forall p start,
          matchStructAt source p = Some (rootName, start) ->
          bodyOfStruct source start = None) ->
       buildTreeForRoot fuel (extractViews source) rootName = Some None).
Proof.
  assert (Hnull : forall viewMap,
    map_get viewMap rootName = None \/ map_get viewMap rootName = Some [] ->
    buildTreeForRoot fuel viewMap rootName = Some None).
  { intros viewMap [H|H]; unfold buildTreeForRoot; rewrite H; reflexivity. }
  split; [exact Hnull|].
  intros source Hnone. apply Hnull. left.
  destruct (map_get (extractViews source) rootName) as [body|] eqn:E;
    [|reflexivity].
  apply extractViews_entries in E as (p & start & Hm & Hb).
  rewrite (Hnone p start Hm) in Hb. discriminate.
Qed.

Lemma unresolvable_root_is_null_witness :
  extractViews helperSource = []
  /\ buildTreeForRoot 0 (extractViews helperSource) (lit "Helper") = Some None
  /\ buildTreeForRoot 0 cardMap (lit "Missing") = Some None.
Proof.
  split; [vm_compute; reflexivity|]. split.
  - apply (proj1 (unresolvable_root_is_null 0 (lit "Helper"))).
    left. vm_compute. reflexivity.
  - apply (proj1 (unresolvable_root_is_null 0 (lit "Missing"))).
    left. vm_compute. reflexivity.
Defined.

Lemma resolveCustomViews_group fuel viewMap kids seen :
  resolveCustomViews (S fuel) viewMap (groupNode kids) seen =
    (kids' ← mapM (fun c => fst <$> resolveCustomViews fuel viewMap c seen) kids;
     Some (groupNode kids', seen)).
Proof.
  simpl. unfold inlineCustomView.
  change (name (groupNode kids)) with (lit "Group").
  rewrite group_is_reserved, andb_false_r. simpl.
  rewrite forEachChild_independent.
  destruct (mapM _ kids); reflexivity.
Qed.

Lemma parseViewExpression_with_props parseChildren expr node :
  parseViewExpression_with parseChildren expr = Some node ->
  props node <> None.
Proof.
  unfold parseViewExpression_with. intros H.
  repeat match type of H with
         | (?m ≫= _) = Some _ =>
             let E := fresh "E" in
             destruct m as [[[? ?] ?]|] eqn:E; simpl in H; [|discriminate]
         end.
  injection H as <-. simpl. discriminate.
Qed.

(** C10, counterexample. An empty body parses to no expression, and the
    result is [null], not a wrapper. *)
Lemma empty_body_is_not_wrapped :
  map_get emptyBodyMap (lit "Empty") = Some []
  /\ parseChildrenBlock [] = Some []
  /\ forall fuel, buildTreeForRoot fuel emptyBodyMap (lit "Empty") = Some None.
Proof. repeat split. Qed.

(** C10, amended. For a root whose body text is not empty and parses to
    no expression or to more than one, [buildTreeForRoot] returns, when
    the resolution of every expression returns, the node [Group] of kind
    [View], built without props and without modifiers, whose children
    are the resolved expressions in their order; a node of the
    expression parser always has props. *)
Theorem group_wrapper fuel viewMap rootName body kids :
  map_get viewMap rootName = Some body ->
  body <> [] ->
  parseChildrenBlock body = Some kids ->
  length kids <> 1%nat ->
  buildTreeForRoot (S fuel) viewMap rootName =
    (kids' ← mapM (fun c => fst <$> resolveCustomViews fuel viewMap c ∅) kids;
     Some (Some (Node View (lit "Group") [] kids' None)))
  /\ (forall expr node, parseViewExpression expr = Some node -> props node <> None).
Proof.
  intros Hget Hbody Hparse Hlen. split.
  - unfold buildTreeForRoot. rewrite Hget.
    destruct body as [|c body']; [congruence|]. cbn [truthy negb].
    rewrite Hparse. cbn [mbind option_bind].
    assert (Hgroup :
      ('(root, _) ← resolveCustomViews (S fuel) viewMap (groupNode kids) ∅;
       Some (Some root)) =
      (kids' ← mapM (fun c => fst <$> resolveCustomViews fuel viewMap c ∅) kids;
       Some (Some (Node View (lit "Group") [] kids' None)))).
    { rewrite resolveCustomViews_group. destruct (mapM _ kids); reflexivity. }
    destruct kids as [|k1 [|k2 rest]]; [exact Hgroup| |exact Hgroup].
    simpl in Hlen. congruence.
  - intros expr node. apply parseViewExpression_with_props.
Qed.

Lemma group_wrapper_witness :
  buildTreeForRoot 2 twoRootsMap (lit "Pair") =
    Some (Some (Node View (lit "Group") []
                  [textNode (quoted "a"); textNode (quoted "b")] None)).
Proof.
  rewrite (proj1 (group_wrapper 1 twoRootsMap (lit "Pair")
             (lit " Text(" ++ quoted "a" ++ lit ")" ++ [NEWLINE]
              ++ lit " Text(" ++ quoted "b" ++ lit ") ")
             [textNode (quoted "a"); textNode (quoted "b")]
             eq_refl ltac:(discriminate) ltac:(vm_compute; reflexivity)
             ltac:(simpl; lia))).
  vm_compute. reflexivity.
Defined.

(** ** Root candidates *)

Section RootOrder.

Variable localeCompare : jsstring -> jsstring -> Z.

(** The comparator is consistent, as a collation is. *)
Hypothesis localeCompare_swap :
  forall a b, 0 < localeCompare a b -> localeCompare b a <= 0.
Hypothesis localeCompare_trans :
  forall a b c,
    localeCompare a b <= 0 -> localeCompare b c <= 0 -> localeCompare a c <= 0.

Let before := ordersBefore localeCompare.

Lemma score_range (nm : jsstring) : score nm = 0 \/ score nm = 1.
Proof. unfold score. destruct (isEntryName nm); [left|right]; reflexivity. Qed.

Lemma before_swap (a b : jsstring) :
  0 < compareNames localeCompare a b -> before b a.
Proof.
  unfold before, ordersBefore, compareNames.
  destruct (score_range a) as [-> | ->], (score_range b) as [-> | ->];
    simpl; try lia; apply localeCompare_swap.
Qed.

Lemma before_trans (a b c : jsstring) : before a b -> before b c -> before a c.
Proof.
  unfold before, ordersBefore, compareNames.
  destruct (score_range a) as [-> | ->], (score_range b) as [-> | ->],
           (score_range c) as [-> | ->];
    simpl; try lia; apply localeCompare_trans.
Qed.

Lemma insertSorted_Permutation (x : jsstring) (l : list jsstring) :
  Permutation (insertSorted (compareNames localeCompare) x l) (x :: l).
Proof.
  induction l as [|y l IH]; [reflexivity|].
  simpl. destruct (compareNames localeCompare x y >? 0); [|reflexivity].
  rewrite IH. apply perm_swap.
Qed.

Lemma insertSorted_sorted (x : jsstring) (l : list jsstring) :
  StronglySorted before l ->
  StronglySorted before (insertSorted (compareNames localeCompare) x l).
Proof.
  induction 1 as [|y l Hl IH Hy].
  - repeat constructor.
  - simpl. destruct (compareNames localeCompare x y >? 0) eqn:E.
    + constructor; [exact IH|].
      rewrite Forall_forall. intros z Hz.
      apply list_elem_of_In in Hz.
      apply (Permutation_in _ (insertSorted_Permutation x l)) in Hz.
      destruct Hz as [<-|Hz]; [apply before_swap; lia|].
      rewrite Forall_forall in Hy. apply Hy, list_elem_of_In, Hz.
    + assert (Hxy : before x y) by (unfold before, ordersBefore; lia).
      constructor; [constructor; assumption|].
      constructor; [exact Hxy|].
      eapply Forall_impl; [exact Hy|].
      intros z Hz. eapply before_trans; eassumption.
Qed.

Lemma sortWith_sorted (l : list jsstring) :
  StronglySorted before (sortWith (compareNames localeCompare) l)
  /\ Permutation (sortWith (compareNames localeCompare) l) l.
Proof.
  induction l as [|x l [IHs IHp]]; [split; constructor|].
  simpl. split; [apply insertSorted_sorted, IHs|].
  rewrite insertSorted_Permutation. constructor. exact IHp.
Qed.

Lemma StronglySorted_lookup (l : list jsstring) :
  StronglySorted before l ->
  forall i j a b,
    (i < j)%nat -> l !! i = Some a -> l !! j = Some b -> before a b.
Proof.
  induction 1 as [|y l Hl IH Hy]; intros i j a b Hij Ha Hb.
  - rewrite lookup_nil in Ha. discriminate.
  - destruct j as [|j]; [lia|]. simpl in Hb.
    destruct i as [|i].
    + simpl in Ha. injection Ha as <-.
      rewrite Forall_forall in Hy. apply Hy.
      eapply list_elem_of_lookup_2. eassumption.
    + simpl in Ha. apply (IH i j); [lia|assumption|assumption].
Qed.

Lemma before_groups (a b : jsstring) :
  before a b ->
  (isEntryName b = true -> isEntryName a = true)
  /\ (isEntryName a = isEntryName b -> localeCompare a b <= 0).
Proof.
  unfold before, ordersBefore, compareNames, score.
  destruct (isEntryName a), (isEntryName b); simpl; intros H; split;
    intros; try lia; congruence.
Qed.

End RootOrder.

Lemma compareCodeUnits_swap (a b : jsstring) :
  0 < compareCodeUnits a b -> compareCodeUnits b a <= 0.
Proof.
  revert b. induction a as [|x a IH]; intros [|y b]; simpl; try lia.
  destruct (x <? y)%N eqn:E1, (y <? x)%N eqn:E2;
    rewrite ?N.ltb_lt, ?N.ltb_ge in *; try lia.
  apply IH.
Qed.

Lemma compareCodeUnits_trans (a b c : jsstring) :
  compareCodeUnits a b <= 0 -> compareCodeUnits b c <= 0 ->
  compareCodeUnits a c <= 0.
Proof.
  revert b c. induction a as [|x a IH]; intros [|y b] [|z c]; simpl; try lia.
  destruct (x <? y)%N eqn:E1, (y <? x)%N eqn:E2, (y <? z)%N eqn:E3,
           (z <? y)%N eqn:E4, (x <? z)%N eqn:E5, (z <? x)%N eqn:E6;
    rewrite ?N.ltb_lt, ?N.ltb_ge in *; try lia.
  apply IH.
Qed.

Lemma compareCodeUnits_eq (a b : jsstring) :
  compareCodeUnits a b = 0 -> a = b.
Proof.
  revert b. induction a as [|x a IH]; intros [|y b]; simpl; try lia;
    [reflexivity|].
  destruct (x <? y)%N eqn:E1; [lia|]. destruct (y <? x)%N eqn:E2; [lia|].
  rewrite N.ltb_ge in E1, E2. intros H. f_equal; [lia|apply IH, H].
Qed.

Lemma compareCodeUnits_refl (a : jsstring) : compareCodeUnits a a = 0.
Proof.
  induction a as [|x a IH]; [reflexivity|]. simpl.
  rewrite N.ltb_irrefl. exact IH.
Qed.

Lemma compareCodeUnits_opp (a b : jsstring) :
  compareCodeUnits b a = - compareCodeUnits a b.
Proof.
  revert b. induction a as [|x a IH]; intros [|y b]; simpl; try lia.
  destruct (x <? y)%N eqn:E1, (y <? x)%N eqn:E2;
    rewrite ?N.ltb_lt, ?N.ltb_ge in *; try lia.
  apply IH.
Qed.

(** The collation of the host is a consistent comparator. *)
Lemma hostCollation_swap (a b : jsstring) :
  0 < hostCollation a b -> hostCollation b a <= 0.
Proof.
  unfold hostCollation.
  rewrite (compareCodeUnits_opp (map primaryWeight a) (map primaryWeight b)).
  rewrite (compareCodeUnits_opp (map caseWeight a) (map caseWeight b)).
  destruct (compareCodeUnits (map primaryWeight a) (map primaryWeight b) =? 0) eqn:E1,
           (- compareCodeUnits (map primaryWeight a) (map primaryWeight b) =? 0) eqn:E2;
    lia.
Qed.

Lemma hostCollation_trans (a b c : jsstring) :
  hostCollation a b <= 0 -> hostCollation b c <= 0 -> hostCollation a c <= 0.
Proof.
  unfold hostCollation.
  set (P := fun x y => compareCodeUnits (map primaryWeight x) (map primaryWeight y)).
  set (T := fun x y => compareCodeUnits (map caseWeight x) (map caseWeight y)).
  change (compareCodeUnits (map primaryWeight a) (map primaryWeight b)) with (P a b).
  change (compareCodeUnits (map primaryWeight b) (map primaryWeight c)) with (P b c).
  change (compareCodeUnits (map primaryWeight a) (map primaryWeight c)) with (P a c).
  change (compareCodeUnits (map caseWeight a) (map caseWeight b)) with (T a b).
  change (compareCodeUnits (map caseWeight b) (map caseWeight c)) with (T b c).
  change (compareCodeUnits (map caseWeight a) (map caseWeight c)) with (T a c).
  pose proof (compareCodeUnits_trans (map primaryWeight a) (map primaryWeight b)
                (map primaryWeight c)) as HP.
  pose proof (compareCodeUnits_trans (map caseWeight a) (map caseWeight b)
                (map caseWeight c)) as HT.
  fold (P a b) (P b c) (P a c) in HP. fold (T a b) (T b c) (T a c) in HT.
  destruct (P a b =? 0) eqn:Eab, (P b c =? 0) eqn:Ebc.
  - assert (Hac : P a c = 0).
    { unfold P in *. apply Z.eqb_eq, compareCodeUnits_eq in Eab, Ebc.
      rewrite Eab, Ebc. apply compareCodeUnits_refl. }
    rewrite Hac. cbn [Z.eqb]. exact HT.
  - assert (Hac : P a c = P b c).
    { unfold P in *. apply Z.eqb_eq, compareCodeUnits_eq in Eab.
      rewrite Eab. reflexivity. }
    rewrite Hac, Ebc. lia.
  - assert (Hac : P a c = P a b).
    { unfold P in *. apply Z.eqb_eq, compareCodeUnits_eq in Ebc.
      rewrite Ebc. reflexivity. }
    rewrite Hac, Eab. lia.
  - intros Hab Hbc. specialize (HP Hab Hbc).
    destruct (P a c =? 0) eqn:Eac; [|exact HP].
    exfalso.
    assert (Hba : P b a = P b c).
    { unfold P in *. apply Z.eqb_eq, compareCodeUnits_eq in Eac.
      rewrite Eac. reflexivity. }
    unfold P in Hba. rewrite (compareCodeUnits_opp (map primaryWeight a)) in Hba.
    fold (P a b) (P b c) in Hba. lia.
Qed.

(** C7, counterexample. None of [Yak], [Zeta] and [yak] matches an
    entry-point pattern; the host ranks them [yak], [Yak], [Zeta], and
    the order of code units is [Yak], [Zeta], [yak]: the candidates are
    not in lexicographic order. *)
Lemma candidates_in_collation_order :
  (isEntryName (lit "Yak") = false /\ isEntryName (lit "Zeta") = false
   /\ isEntryName (lit "yak") = false)
  /\ collectRootCandidates hostCollation caseViews
     = [lit "yak"; lit "Yak"; lit "Zeta"]
  /\ compareCodeUnits (lit "Yak") (lit "yak") < 0
  /\ compareCodeUnits (lit "Zeta") (lit "yak") < 0
  /\ sortWith compareCodeUnits (map_keys caseViews)
     = [lit "Yak"; lit "Zeta"; lit "yak"].
Proof. repeat split; vm_compute; reflexivity. Qed.

(** C7, amended. The candidates are the keys of the map, reordered: a
    name that matches [/ContentView|MainView|Root|App/i] never comes
    after a name that does not, and two names of the same group are in
    the order of [localeCompare], whatever consistent comparator the
    host has for it. With the collation of the hosts of the page this
    is the order of the letters without regard to case, and not the
    order of the code units. [HeaderView, ContentView, TitleView] ranks
    as [ContentView, HeaderView, TitleView] with that collation, and
    with every [localeCompare] that puts [HeaderView] before
    [TitleView]; an empty map has no candidate. *)
Theorem root_candidates_order :
  (forall localeCompare : jsstring -> jsstring -> Z,
     (forall a b, 0 < localeCompare a b -> localeCompare b a <= 0) ->
     (forall a b c,
        localeCompare a b <= 0 -> localeCompare b c <= 0 ->
        localeCompare a c <= 0) ->
     forall viewMap,
       Permutation (collectRootCandidates localeCompare viewMap) (map_keys viewMap)
       /\ forall i j a b,
            (i < j)%nat ->
            collectRootCandidates localeCompare viewMap !! i = Some a ->
            collectRootCandidates localeCompare viewMap !! j = Some b ->
            (isEntryName b = true -> isEntryName a = true)
            /\ (isEntryName a = isEntryName b -> localeCompare a b <= 0))
  /\ (forall viewMap,
        Permutation (collectRootCandidates hostCollation viewMap) (map_keys viewMap)
        /\ forall i j a b,
             (i < j)%nat ->
             collectRootCandidates hostCollation viewMap !! i = Some a ->
             collectRootCandidates hostCollation viewMap !! j = Some b ->
             (isEntryName b = true -> isEntryName a = true)
             /\ (isEntryName a = isEntryName b -> hostCollation a b <= 0))
  /\ collectRootCandidates hostCollation threeViews
     = [lit "ContentView"; lit "HeaderView"; lit "TitleView"]
  /\ (forall localeCompare : jsstring -> jsstring -> Z,
        localeCompare (lit "HeaderView") (lit "TitleView") < 0 ->
        collectRootCandidates localeCompare threeViews
        = [lit "ContentView"; lit "HeaderView"; lit "TitleView"])
  /\ (forall localeCompare : jsstring -> jsstring -> Z,
        collectRootCandidates localeCompare [] = []).
Proof.
  assert (Hany : forall localeCompare : jsstring -> jsstring -> Z,
     (forall a b, 0 < localeCompare a b -> localeCompare b a <= 0) ->
     (forall a b c,
        localeCompare a b <= 0 -> localeCompare b c <= 0 ->
        localeCompare a c <= 0) ->
     forall viewMap,
       Permutation (collectRootCandidates localeCompare viewMap) (map_keys viewMap)
       /\ forall i j a b,
            (i < j)%nat ->
            collectRootCandidates localeCompare viewMap !! i = Some a ->
            collectRootCandidates localeCompare viewMap !! j = Some b ->
            (isEntryName b = true -> isEntryName a = true)
            /\ (isEntryName a = isEntryName b -> localeCompare a b <= 0)).
  { intros localeCompare Hswap Htrans viewMap. unfold collectRootCandidates.
    destruct (sortWith_sorted localeCompare Hswap Htrans (map_keys viewMap))
      as [Hsorted Hperm].
    split; [exact Hperm|].
    intros i j a b Hij Ha Hb. apply before_groups.
    eapply StronglySorted_lookup; eassumption. }
  split; [exact Hany|].
  split; [exact (Hany hostCollation hostCollation_swap hostCollation_trans)|].
  split; [vm_compute; reflexivity|].
  split; [|reflexivity].
  intros localeCompare Hlt. unfold collectRootCandidates, threeViews, map_keys.
  cbn [map fst sortWith foldr insertSorted].
  assert (Hct : compareNames localeCompare (lit "ContentView") (lit "TitleView") = -1)
    by reflexivity.
  assert (Hhc : compareNames localeCompare (lit "HeaderView") (lit "ContentView") = 1)
    by reflexivity.
  assert (Hht : compareNames localeCompare (lit "HeaderView") (lit "TitleView")
                = localeCompare (lit "HeaderView") (lit "TitleView"))
    by reflexivity.
  rewrite Hct. cbn [Z.gtb Z.compare insertSorted].
  rewrite Hhc. cbn [Z.gtb Z.compare insertSorted].
  rewrite Hht.
  replace (localeCompare (lit "HeaderView") (lit "TitleView") >? 0) with false
    by lia.
  reflexivity.
Qed.

Lemma root_candidates_order_witness :
  Permutation (collectRootCandidates hostCollation caseViews) (map_keys caseViews)
  /\ hostCollation (lit "yak") (lit "Yak") <= 0
  /\ collectRootCandidates compareCodeUnits threeViews
     = [lit "ContentView"; lit "HeaderView"; lit "TitleView"].
Proof.
  destruct root_candidates_order as (_ & Hhost & _ & Hscenario & _).
  destruct (Hhost caseViews) as [Hperm Horder].
  split; [exact Hperm|]. split.
  - apply (proj2 (Horder 0%nat 1%nat (lit "yak") (lit "Yak")
                    ltac:(lia) eq_refl eq_refl)).
    reflexivity.
  - apply Hscenario. vm_compute. reflexivity.
Defined.

(** ** Termination of the parser *)

(** X1. No text makes the parser loop or recurse without end. Each of
    the three parsing functions returns on a text when the parsing of
    the blocks nested in it does, these blocks being shorter than the
    text. So when [depth] nested calls of [parseChildrenBlock] are
    allowed, every text shorter than [depth] is parsed, and allowing
    more calls gives the same nodes. The source sets no bound on the
    nesting: what bounds it is the call stack of the host, and a text
    nested deeper than that stack allows is not parsed, which is [None]
    here; one level is not enough for [A { B() }], two are. *)
Theorem parser_returns_within_depth :
  (forall depth body,
     (length body < depth)%nat ->
     exists kids,
       parseChildrenBlock_depth depth body = Some kids
       /\ forall depth', (depth <= depth')%nat ->
            parseChildrenBlock_depth depth' body = Some kids)
  /\ (forall (parseChildren : Parser) body,
        (forall b, (length b < length body)%nat -> is_Some (parseChildren b)) ->
        is_Some (parseChildren_loop parseChildren (S (length body)) body 0 []))
  /\ (forall (parseChildren : Parser) expr,
        (forall b, (length b < length expr)%nat -> is_Some (parseChildren b)) ->
        is_Some (parseViewExpression_with parseChildren expr))
  /\ (forall (parseChildren : Parser) text i,
        (forall b, (length b < length text)%nat -> is_Some (parseChildren b)) ->
        is_Some (parseIfElse_with parseChildren
                   (S (Z.to_nat (len text - i))) text i))
  /\ parseChildrenBlock_depth 1 (lit "A { B() }") = None
  /\ parseChildrenBlock_depth 2 (lit "A { B() }")
     = Some [Node View (lit "A") [] [leaf "B"] (Some [])].
Proof.
  split; [|split; [|split; [|split; [|split]]]].
  - intros depth body Hd.
    destruct (parseChildrenBlock_depth_total depth body Hd) as [kids H].
    exists kids. split; [exact H|].
    intros depth' Hle. rewrite <- H.
    apply parseChildrenBlock_depth_stable; lia.
  - intros parseChildren body Hpc.
    apply parseChildren_loop_total; [exact Hpc|]. unfold len. lia.
  - intros parseChildren expr Hpc.
    apply parseViewExpression_with_total, Hpc.
  - intros parseChildren text i Hpc.
    destruct (parseIfElse_with_total parseChildren text Hpc
                (S (Z.to_nat (len text - i))) i ltac:(lia))
      as (node & nx & H & _).
    rewrite H. eauto.
  - vm_compute. reflexivity.
  - vm_compute. reflexivity.
Qed.

(** ** Blocks *)

Lemma readBalanced_loop_close (text : jsstring) (openPos : Z) (o c : N) :
  forall fuel depth i blk,
    readBalanced_loop fuel text openPos o c depth i = Some blk ->
    charIs text (blockEnd blk) c = true.
Proof.
  induction fuel as [|fuel IH]; intros depth i blk; [intros [=]|].
  cbn [readBalanced_loop].
  destruct (i <? len text); [|intros [=]].
  destruct (charIs text i QUOTE); [apply IH|].
  destruct (charIs text i (chr "/") && charIs text (i + 1) (chr "/")); [apply IH|].
  destruct (charIs text i (chr "/") && charIs text (i + 1) (chr "*")); [apply IH|].
  destruct (charIs text i o); [apply IH|].
  destruct (charIs text i c) eqn:Ec; [|apply IH].
  destruct (depth - 1 =? 0); [|apply IH].
  intros [= <-]. exact Ec.
Qed.

Lemma readBalanced_loop_first (text : jsstring) (openPos : Z) (o c : N) :
  forall fuel i blk,
    charIs text i o = true ->
    readBalanced_loop fuel text openPos o c 0 i = Some blk ->
    i < blockEnd blk.
Proof.
  intros [|fuel] i blk Ho; [intros [=]|].
  cbn [readBalanced_loop].
  pose proof (charIs_bounds _ _ _ Ho) as Hi.
  destruct (i <? len text); [|intros [=]].
  destruct (charIs text i QUOTE).
  { intros H. apply readBalanced_loop_block in H as [_ H].
    pose proof (readSwiftString_ge text i ltac:(lia)). lia. }
  destruct (charIs text i (chr "/") && charIs text (i + 1) (chr "/")).
  { intros H. apply readBalanced_loop_block in H as [_ H].
    pose proof (skipLineComment_ge text (Z.to_nat (len text - i)) i).
    unfold lineCommentEnd in H. lia. }
  destruct (charIs text i (chr "/") && charIs text (i + 1) (chr "*")).
  { intros H. apply readBalanced_loop_block in H as [_ H].
    pose proof (skipBlockComment_ge text (Z.to_nat (len text - (i + 2))) (i + 2)).
    unfold blockCommentEnd in H. lia. }
  rewrite Ho.
  intros H. apply readBalanced_loop_block in H as [_ H]. lia.
Qed.

Lemma slice_len (s : jsstring) (a b : Z) :
  0 <= a -> a <= b -> b <= len s -> len (slice s a b) = b - a.
Proof.
  intros Ha Hab Hb. rewrite slice_inside by lia. unfold len in *.
  rewrite length_take, length_drop. lia.
Qed.

(** X2. A block that [readBalanced] returns starts at the opening
    character at [openPos] and ends at a closing character after it,
    inside the text; its inner text is the text strictly between the two.
    When the character at [openPos] is not the opening character, the
    result is [null]. *)
Theorem readBalanced_result (text : jsstring) (openPos : Z) (o c : N) :
  (forall blk,
     readBalanced text openPos o c = Some blk ->
     charIs text openPos o = true
     /\ openPos < blockEnd blk < len text
     /\ charIs text (blockEnd blk) c = true
     /\ inner blk = slice text (openPos + 1) (blockEnd blk)
     /\ len (inner blk) = blockEnd blk - openPos - 1)
  /\ (charIs text openPos o = false -> readBalanced text openPos o c = None).
Proof.
  split.
  - intros blk. unfold readBalanced.
    destruct (charIs text openPos o) eqn:Eo; [|intros [=]]. cbn [negb].
    intros H.
    pose proof (readBalanced_loop_close _ _ _ _ _ _ _ _ H) as Hc.
    pose proof (readBalanced_loop_first _ _ _ _ _ _ _ Eo H) as Hf.
    apply readBalanced_loop_block in H as [Hin _].
    pose proof (charIs_bounds _ _ _ Hc). pose proof (charIs_bounds _ _ _ Eo).
    repeat split; try lia; try assumption.
    rewrite Hin, slice_len; lia.
  - intros E. unfold readBalanced. rewrite E. reflexivity.
Qed.

Lemma readBalanced_result_witness :
  let text := lit "x { a { b } } c" in
  readBalanced text 2 (chr "{") (chr "}") = Some (mkBlock (lit " a { b } ") 12)
  /\ charIs text 2 (chr "{") = true
  /\ 2 < 12 < len text
  /\ charIs text 12 (chr "}") = true
  /\ readBalanced text 0 (chr "{") (chr "}") = None.
Proof.
  pose proof (readBalanced_result (lit "x { a { b } } c") 2 (chr "{") (chr "}"))
    as [H1 _].
  pose proof (readBalanced_result (lit "x { a { b } } c") 0 (chr "{") (chr "}"))
    as [_ H2].
  specialize (H1 (mkBlock (lit " a { b } ") 12) eq_refl).
  specialize (H2 eq_refl).
  destruct H1 as (Ho & Hb & Hc & _ & _).
  cbv zeta. repeat split; try assumption; try reflexivity; apply Hb.
Defined.

Lemma charAt_middle (a : jsstring) (c : N) (r : jsstring) :
  charAt (a ++ c :: r) (len a) = Some c.
Proof.
  unfold charAt, len.
  destruct (Z.of_nat (length a) <? 0) eqn:E; [apply Z.ltb_lt in E; lia|].
  rewrite Nat2Z.id. apply list_lookup_middle. reflexivity.
Qed.

Lemma charIs_middle (a : jsstring) (c : N) (r : jsstring) (x : N) :
  charIs (a ++ c :: r) (len a) x = N.eqb c x.
Proof. unfold charIs. rewrite charAt_middle. reflexivity. Qed.

Lemma len_app (a b : jsstring) : len (a ++ b) = len a + len b.
Proof. unfold len. rewrite length_app. lia. Qed.

Lemma slice_middle (a b c : jsstring) :
  slice (a ++ b ++ c) (len a) (len a + len b) = b.
Proof.
  assert (0 <= len a /\ 0 <= len b /\ 0 <= len c) by (unfold len; lia).
  rewrite slice_inside by (rewrite ?len_app; lia).
  unfold len. rewrite Nat2Z.id.
  rewrite drop_app_length.
  replace (Z.to_nat (Z.of_nat (length a) + Z.of_nat (length b) - Z.of_nat (length a)))
    with (length b) by lia.
  apply take_app_length.
Qed.

Ltac len_lit :=
  rewrite ?len_app;
  repeat match goal with
         | |- context [len (lit ?w)] =>
             let v := eval vm_compute in (len (lit w)) in
             change (len (lit w)) with v
         | |- context [len [?c]] => change (len [c]) with 1
         end;
  unfold len in *; lia.

Ltac same_text := rewrite <- ?app_assoc; reflexivity.

Lemma charIs_at (s pre : jsstring) (c : N) (rest : jsstring) (i : Z) (x : N) :
  s = pre ++ c :: rest -> i = len pre -> charIs s i x = N.eqb c x.
Proof. intros -> ->. apply charIs_middle. Qed.

Lemma slice_at (s pre m post : jsstring) (i j : Z) :
  s = pre ++ m ++ post -> i = len pre -> j = len pre + len m -> slice s i j = m.
Proof. intros -> -> ->. apply slice_middle. Qed.

Lemma readBalanced_loop_nested (before after : jsstring) :
  forall rest pre d fuel,
    forallb plainChar rest = true ->
    bracesNest d rest = true ->
    0 <= d ->
    (length rest < fuel)%nat ->
    let text := before ++ [chr "{"] ++ pre ++ rest ++ [chr "}"] ++ after in
    let e := len before + 1 + len pre + len rest in
    readBalanced_loop fuel text (len before) (chr "{") (chr "}") (d + 1)
      (len before + 1 + len pre)
    = Some (mkBlock (slice text (len before + 1) e) e).
Proof.
  induction rest as [|c rest IH]; intros pre d fuel Hplain Hnest Hd Hfuel text e;
    (destruct fuel as [|fuel]; [simpl in Hfuel; lia|]).
  - cbn [bracesNest] in Hnest. apply Z.eqb_eq in Hnest. subst d.
    set (i := len before + 1 + len pre).
    assert (Hchar : forall x, charIs text i x = N.eqb (chr "}") x).
    { intros x. unfold text, i.
      replace (len before + 1 + len pre) with (len (before ++ [chr "{"] ++ pre))
        by (rewrite !len_app; change (len [chr "{"]) with 1; lia).
      replace (before ++ [chr "{"] ++ pre ++ [] ++ [chr "}"] ++ after)
        with ((before ++ [chr "{"] ++ pre) ++ chr "}" :: after)
        by (rewrite <- !app_assoc; reflexivity).
      apply charIs_middle. }
    pose proof (charIs_bounds text i (chr "}") ltac:(rewrite Hchar; reflexivity)).
    cbn [readBalanced_loop].
    replace (i <? len text) with true by lia.
    rewrite !Hchar.
    replace (chr "}" =? QUOTE)%N with false by reflexivity.
    replace (chr "}" =? chr "/")%N with false by reflexivity.
    replace (chr "}" =? chr "{")%N with false by reflexivity.
    replace (chr "}" =? chr "}")%N with true by reflexivity.
    cbn [andb]. replace (0 + 1 - 1 =? 0) with true by reflexivity.
    unfold e. replace (len []) with 0 by reflexivity.
    rewrite Z.add_0_r. reflexivity.
  - cbn [forallb] in Hplain. apply andb_prop in Hplain as [Hc Hplain].
    cbn [bracesNest] in Hnest. cbv zeta in Hnest.
    apply andb_prop in Hnest as [Hd' Hnest]. apply Z.leb_le in Hd'.
    unfold plainChar in Hc. apply andb_prop in Hc as [Hq Hs].
    apply negb_true_iff in Hq, Hs.
    set (i := len before + 1 + len pre).
    assert (Hchar : forall x, charIs text i x = N.eqb c x).
    { intros x. unfold text, i.
      replace (len before + 1 + len pre) with (len (before ++ [chr "{"] ++ pre))
        by (rewrite !len_app; change (len [chr "{"]) with 1; lia).
      replace (before ++ [chr "{"] ++ pre ++ (c :: rest) ++ [chr "}"] ++ after)
        with ((before ++ [chr "{"] ++ pre) ++ c :: (rest ++ [chr "}"] ++ after))
        by (rewrite <- !app_assoc; reflexivity).
      apply charIs_middle. }
    assert (Hlt : i < len text).
    { unfold text, i. rewrite !len_app. unfold len. simpl. lia. }
    cbn [readBalanced_loop].
    replace (i <? len text) with true by lia.
    rewrite !Hchar. rewrite Hq, Hs. cbn [andb].
    specialize (IH (pre ++ [c]) (d + braceStep c) fuel Hplain Hnest Hd'
                  ltac:(simpl in Hfuel; lia)).
    cbv zeta in IH.
    replace (before ++ [chr "{"] ++ (pre ++ [c]) ++ rest ++ [chr "}"] ++ after)
      with text in IH
      by (unfold text; rewrite <- !app_assoc; reflexivity).
    replace (len before + 1 + len (pre ++ [c])) with (i + 1)
      in IH by (unfold i; rewrite len_app; unfold len; simpl; lia).
    replace (i + 1 + len rest) with e in IH
      by (unfold e, i, len; simpl; lia).
    unfold braceStep in IH, Hd'.
    destruct (c =? chr "{")%N.
    { rewrite <- IH. f_equal. }
    destruct (c =? chr "}")%N.
    { replace (d + 1 - 1 =? 0) with false by lia.
      rewrite <- IH. f_equal. lia. }
    rewrite <- IH. f_equal. lia.
Qed.

Lemma readBalanced_nested (before body after : jsstring) :
  forallb plainChar body = true ->
  bracesNest 0 body = true ->
  readBalanced (before ++ braced body ++ after) (len before) (chr "{") (chr "}")
  = Some (mkBlock body (len before + 1 + len body)).
Proof.
  intros Hplain Hnest. unfold readBalanced, braced.
  rewrite <- !app_assoc. cbn [app].
  rewrite charIs_middle. replace (chr "{" =? chr "{")%N with true by reflexivity.
  cbn [negb].
  set (text := before ++ chr "{" :: body ++ chr "}" :: after).
  assert (Hlen : len text = len before + 1 + len body + 1 + len after).
  { unfold text, len. rewrite length_app. simpl. rewrite length_app. simpl. lia. }
  assert (0 <= len before /\ 0 <= len body /\ 0 <= len after) by (unfold len; lia).
  destruct (Z.to_nat (len text - len before)) as [|fuel] eqn:Ef; [lia|].
  cbn [readBalanced_loop].
  replace (len before <? len text) with true by lia.
  assert (Hchar : forall x, charIs text (len before) x = N.eqb (chr "{") x).
  { intros x. apply charIs_middle. }
  rewrite !Hchar.
  replace (chr "{" =? QUOTE)%N with false by reflexivity.
  replace (chr "{" =? chr "/")%N with false by reflexivity.
  replace (chr "{" =? chr "{")%N with true by reflexivity.
  cbn [andb].
  pose proof (readBalanced_loop_nested before after body [] 0 fuel Hplain Hnest
                ltac:(lia) ltac:(unfold len in *; lia)) as HL.
  cbv zeta in HL. cbn [app] in HL. fold text in HL.
  replace (len before + 1 + len []) with (len before + 1) in HL by (unfold len; simpl; lia).
  rewrite HL. f_equal. f_equal.
  replace (len before + 1) with (len (before ++ [chr "{"])) by (rewrite len_app; reflexivity).
  replace text with ((before ++ [chr "{"]) ++ body ++ chr "}" :: after)
    by (unfold text; rewrite <- app_assoc; reflexivity).
  apply slice_middle.
Qed.

Lemma readBalanced_at (s before body after : jsstring) (i : Z) :
  s = before ++ braced body ++ after -> i = len before ->
  forallb plainChar body = true -> bracesNest 0 body = true ->
  readBalanced s i (chr "{") (chr "}") = Some (mkBlock body (i + 1 + len body)).
Proof. intros -> ->. apply readBalanced_nested. Qed.

(** X3. A text between braces is read back: when the braces of [body]
    nest and [body] has neither a quote nor a slash, [readBalanced] at
    the opening brace of [{body}] returns [body] and the index of the
    closing brace, whatever stands before and after. *)
Theorem readBalanced_braced (before body after : jsstring) :
  forallb plainChar body = true ->
  bracesNest 0 body = true ->
  readBalanced (before ++ braced body ++ after) (len before) (chr "{") (chr "}")
  = Some (mkBlock body (len before + 1 + len body)).
Proof. apply readBalanced_nested. Qed.

Lemma readBalanced_braced_witness :
  readBalanced (lit "VStack " ++ braced (lit " HStack { A() } ") ++ lit ".padding()")
    7 (chr "{") (chr "}")
  = Some (mkBlock (lit " HStack { A() } ") 24).
Proof.
  exact (readBalanced_braced (lit "VStack ") (lit " HStack { A() } ")
           (lit ".padding()") eq_refl eq_refl).
Defined.

(** ** String literals *)

Lemma readString_loop_quote (text : jsstring) :
  forall fuel i,
    charIs text (readString_loop fuel text i) QUOTE = true
    \/ readString_loop fuel text i = len text - 1.
Proof.
  induction fuel as [|fuel IH]; intros i; cbn [readString_loop]; [right; reflexivity|].
  destruct (i <? len text); [|right; reflexivity].
  destruct (charIs text i BACKSLASH); [apply IH|].
  destruct (charIs text i QUOTE) eqn:E; [left; exact E|apply IH].
Qed.

Lemma readTripleQuoted_loop_quote (text : jsstring) :
  forall fuel i,
    charIs text (readTripleQuoted_loop fuel text i) QUOTE = true
    \/ readTripleQuoted_loop fuel text i = len text - 1.
Proof.
  induction fuel as [|fuel IH]; intros i; cbn [readTripleQuoted_loop];
    [right; reflexivity|].
  destruct (i <? len text - 2); [|right; reflexivity].
  destruct (charIs text i QUOTE && charIs text (i + 1) QUOTE
            && charIs text (i + 2) QUOTE) eqn:E; [|apply IH].
  left. apply andb_prop in E as [_ E]. exact E.
Qed.

(** X4. From an index inside the text, [readSwiftString] returns an
    index inside the text and not before the start: the start itself
    when no quote is there, and otherwise the index of a quote after the
    start or, for a literal that is not closed, the last index of the
    text. *)
Theorem readSwiftString_range (text : jsstring) (start : Z) :
  0 <= start < len text ->
  let e := readSwiftString text start in
  start <= e < len text
  /\ (charIs text start QUOTE = false -> e = start)
  /\ (charIs text start QUOTE = true ->
      (start < e /\ charIs text e QUOTE = true) \/ e = len text - 1).
Proof.
  intros Hs e.
  pose proof (readSwiftString_ge text start ltac:(lia)).
  pose proof (readSwiftString_lt text start ltac:(lia) ltac:(lia)).
  split; [unfold e; lia|]. unfold e, readSwiftString.
  split.
  - intros ->. reflexivity.
  - intros ->. cbn [negb].
    destruct (charIs text (start + 1) QUOTE && charIs text (start + 2) QUOTE).
    + unfold readTripleQuoted.
      pose proof (readTripleQuoted_loop_quote text
                    (Z.to_nat (len text - 2 - (start + 3))) (start + 3)) as [Hq|He];
        [|right; exact He].
      pose proof (readTripleQuoted_loop_ge text
                    (Z.to_nat (len text - 2 - (start + 3))) (start + 3)) as [Hg|He];
        [left; split; [lia|exact Hq]|right; exact He].
    + unfold readString.
      pose proof (readString_loop_quote text
                    (Z.to_nat (len text - (start + 1))) (start + 1)) as [Hq|He];
        [|right; exact He].
      pose proof (readString_loop_ge text
                    (Z.to_nat (len text - (start + 1))) (start + 1)) as [Hg|He];
        [left; split; [lia|exact Hq]|right; exact He].
Qed.

Lemma readSwiftString_range_witness :
  readSwiftString (lit "f(" ++ quoted "a, b" ++ lit ")") 2 = 7
  /\ 2 <= readSwiftString (lit "f(" ++ quoted "a, b" ++ lit ")") 2 < 9
  /\ readSwiftString (lit "f(" ++ [QUOTE] ++ lit "a, b)") 2 = 7.
Proof.
  split; [reflexivity|]. split; [|reflexivity].
  exact (proj1 (readSwiftString_range (lit "f(" ++ quoted "a, b" ++ lit ")") 2
                  ltac:(vm_compute; split; [discriminate|reflexivity]))).
Defined.

(** ** Closed string literals *)

Lemma readString_loop_content (pre rest : jsstring) :
  forall n content done fuel,
    (length content <= n)%nat ->
    literalContent content = true ->
    let text := pre ++ [QUOTE] ++ done ++ content ++ [QUOTE] ++ rest in
    (length content < fuel)%nat ->
    readString_loop fuel text (len pre + 1 + len done)
    = len pre + 1 + len done + len content.
Proof.
  induction n as [|n IH]; intros content done fuel Hn Hc text Hfuel.
  - destruct content; [|simpl in Hn; lia].
    destruct fuel as [|fuel]; [simpl in Hfuel; lia|].
    cbn [readString_loop].
    assert (Hchar : forall x,
              charIs text (len pre + 1 + len done) x = N.eqb QUOTE x).
    { intros x. apply (charIs_at text (pre ++ [QUOTE] ++ done) QUOTE rest);
        [unfold text; same_text|len_lit]. }
    pose proof (charIs_bounds text _ QUOTE ltac:(rewrite Hchar; reflexivity)).
    replace (len pre + 1 + len done <? len text) with true by lia.
    rewrite !Hchar. change (len []) with 0. cbn. lia.
  - destruct content as [|c content].
    { apply (IH [] done fuel); [simpl; lia|exact Hc|exact Hfuel]. }
    destruct fuel as [|fuel]; [simpl in Hfuel; lia|].
    cbn [readString_loop].
    assert (Hchar : forall x,
              charIs text (len pre + 1 + len done) x = N.eqb c x).
    { intros x. apply (charIs_at text (pre ++ [QUOTE] ++ done) c
                         (content ++ [QUOTE] ++ rest));
        [unfold text; same_text|len_lit]. }
    pose proof (charIs_bounds text _ c ltac:(rewrite Hchar; apply N.eqb_refl)).
    replace (len pre + 1 + len done <? len text) with true by lia.
    rewrite !Hchar. cbn [literalContent] in Hc.
    destruct (c =? BACKSLASH)%N.
    + destruct content as [|e content]; [discriminate|].
      pose proof (IH content (done ++ [c; e]) fuel ltac:(simpl in Hn; lia) Hc) as H1.
      cbv zeta in H1.
      replace (pre ++ [QUOTE] ++ (done ++ [c; e]) ++ content ++ [QUOTE] ++ rest)
        with text in H1 by (unfold text; same_text).
      replace (len pre + 1 + len (done ++ [c; e]))
        with (len pre + 1 + len done + 2) in H1 by (rewrite len_app; unfold len; simpl; lia).
      rewrite H1 by (simpl in Hfuel; lia). unfold len. simpl. lia.
    + apply andb_prop in Hc as [Hq Hc]. apply negb_true_iff in Hq. rewrite Hq.
      pose proof (IH content (done ++ [c]) fuel ltac:(simpl in Hn; lia) Hc) as H1.
      cbv zeta in H1.
      replace (pre ++ [QUOTE] ++ (done ++ [c]) ++ content ++ [QUOTE] ++ rest)
        with text in H1 by (unfold text; same_text).
      replace (len pre + 1 + len (done ++ [c]))
        with (len pre + 1 + len done + 1) in H1 by (rewrite len_app; unfold len; simpl; lia).
      rewrite H1 by (simpl in Hfuel; lia). unfold len. simpl. lia.
Qed.

(** X5. The end of a closed string literal is its closing quote: when
    the content has no quote except after a backslash, and the literal
    is not the start of three quotes in a row, [readSwiftString] at the
    opening quote returns the index of the closing quote, whatever
    stands before and after the literal. *)
Theorem readSwiftString_closed (pre content rest : jsstring) :
  literalContent content = true ->
  (content = [] -> head rest <> Some QUOTE) ->
  readSwiftString (pre ++ [QUOTE] ++ content ++ [QUOTE] ++ rest) (len pre)
  = len pre + 1 + len content.
Proof.
  intros Hc Hempty.
  set (text := pre ++ [QUOTE] ++ content ++ [QUOTE] ++ rest).
  assert (Hlens : len text = len pre + 1 + len content + 1 + len rest).
  { unfold text. rewrite !len_app. unfold len. simpl. lia. }
  assert (0 <= len pre /\ 0 <= len content /\ 0 <= len rest) as (? & ? & ?)
    by (unfold len; lia).
  unfold readSwiftString.
  rewrite (charIs_at text pre QUOTE (content ++ [QUOTE] ++ rest) (len pre) QUOTE
             eq_refl eq_refl).
  rewrite N.eqb_refl. cbn [negb].
  assert (Htriple : charIs text (len pre + 1) QUOTE
                    && charIs text (len pre + 2) QUOTE = false).
  { destruct content as [|c content].
    - rewrite (charIs_at text (pre ++ [QUOTE]) QUOTE rest (len pre + 1) QUOTE)
        by (unfold text; try same_text; len_lit).
      rewrite N.eqb_refl. cbn [andb].
      destruct rest as [|r rest'].
      + destruct (charIs text (len pre + 2) QUOTE) eqn:E; [|reflexivity].
        apply charIs_bounds in E. rewrite Hlens in E. unfold len in E.
        simpl in E. lia.
      + rewrite (charIs_at text (pre ++ [QUOTE; QUOTE]) r rest' (len pre + 2) QUOTE)
          by (unfold text; try same_text; rewrite len_app; unfold len; simpl; lia).
        apply N.eqb_neq. intros ->. apply (Hempty eq_refl). reflexivity.
    - rewrite (charIs_at text (pre ++ [QUOTE]) c (content ++ [QUOTE] ++ rest)
                 (len pre + 1) QUOTE)
        by (unfold text; try same_text; len_lit).
      cbn [literalContent] in Hc.
      destruct (c =? QUOTE)%N eqn:E; [|reflexivity].
      apply N.eqb_eq in E. subst c. discriminate Hc. }
  rewrite Htriple. unfold readString.
  pose proof (readString_loop_content pre rest (length content) content []
                (Z.to_nat (len text - (len pre + 1))) ltac:(lia) Hc) as H2.
  cbv zeta in H2. cbn [app] in H2.
  replace (len pre + 1 + len []) with (len pre + 1) in H2
    by (unfold len; simpl; lia).
  apply H2. fold text in Hlens. unfold len in *.
  change (pre ++ QUOTE :: content ++ QUOTE :: rest) with text. lia.
Qed.

Lemma readSwiftString_closed_witness :
  readSwiftString (lit "f(" ++ [QUOTE] ++ (lit "a" ++ [BACKSLASH; QUOTE] ++ lit "b")
                   ++ [QUOTE] ++ lit ", c)") 2 = 7.
Proof.
  exact (readSwiftString_closed (lit "f(") (lit "a" ++ [BACKSLASH; QUOTE] ++ lit "b")
           (lit ", c)") eq_refl ltac:(discriminate)).
Defined.

(** ** Arguments *)

Lemma splitArgs_step_parts (s : jsstring) (st : SplitState) :
  sa_parts (splitArgs_step s st) = sa_parts st
  \/ (charIs s (sa_i st) (chr ",") = true
      /\ sa_parts (splitArgs_step s st) = sa_parts st ++ [trim (sa_cur st)]).
Proof.
  destruct (decide (sa_parts (splitArgs_step s st) = sa_parts st)) as [E|E];
    [left; exact E|right].
  apply splitArgs_step_push in E as (_ & Hc & _ & Hp). split; assumption.
Qed.

Lemma splitArgs_state_trimmed (s : jsstring) :
  forall k, Forall (fun p => trimmed p = true) (sa_parts (splitArgs_state k s)).
Proof.
  induction k as [|k IH]; cbn [splitArgs_state]; [constructor|].
  destruct (sa_i (splitArgs_state k s) <? len s); [|exact IH].
  destruct (splitArgs_step_parts s (splitArgs_state k s)) as [->|[_ ->]];
    [exact IH|].
  apply Forall_app. split; [exact IH|].
  constructor; [apply trim_trimmed|constructor].
Qed.

Lemma charIs_Forall (P : N -> bool) (s : jsstring) (i : Z) (c : N) :
  forallb P s = true -> P c = false -> charIs s i c = false.
Proof.
  intros Hall Hc. unfold charIs, charAt.
  destruct (i <? 0); [reflexivity|].
  destruct (s !! Z.to_nat i) as [x|] eqn:L; [|reflexivity].
  apply N.eqb_neq. intros ->.
  apply list_elem_of_lookup_2, list_elem_of_In in L.
  rewrite forallb_forall in Hall. apply Hall in L. congruence.
Qed.

Lemma slice_all (s : jsstring) : slice s 0 (len s) = s.
Proof.
  rewrite slice_0 by (unfold len; lia). unfold len. rewrite Nat2Z.id.
  apply firstn_all.
Qed.

Lemma splitArgs_state_no_comma (s : jsstring) :
  forallb notComma s = true ->
  forall k, sa_parts (splitArgs_state k s) = [] /\ argumentStart k s = 0.
Proof.
  intros Hs. induction k as [|k [IHp IHa]]; [split; reflexivity|].
  cbn [splitArgs_state argumentStart].
  assert (Hsame : sa_parts (splitArgs_step s (splitArgs_state k s))
                  = sa_parts (splitArgs_state k s)).
  { destruct (splitArgs_step_parts s (splitArgs_state k s)) as [E|[Hc _]];
      [exact E|].
    rewrite (charIs_Forall notComma s _ (chr ",") Hs eq_refl) in Hc.
    discriminate. }
  rewrite Hsame, bool_decide_eq_true_2 by reflexivity.
  rewrite andb_false_r.
  destruct (sa_i (splitArgs_state k s) <? len s); [rewrite Hsame|]; split; assumption.
Qed.

(** X6. Every part that [splitArgs] returns is trimmed. An argument
    text without a comma is one argument, its trimmed text, and no
    argument at all when it is blank. *)
Theorem splitArgs_single (s : jsstring) :
  Forall (fun p => trimmed p = true) (splitArgs s)
  /\ (forallb notComma s = true ->
      splitArgs s = if truthy (trim s) then [trim s] else []).
Proof.
  pose proof (proj2 (splitArgs_parts s)) as Hparts. cbv zeta in Hparts.
  split.
  - rewrite Hparts.
    pose proof (splitArgs_state_trimmed s (length s)) as Hall.
    destruct (truthy _); [|exact Hall].
    apply Forall_app. split; [exact Hall|].
    constructor; [apply trim_trimmed|constructor].
  - intros Hs. rewrite Hparts.
    destruct (splitArgs_state_no_comma s Hs (length s)) as [-> ->].
    rewrite slice_all. reflexivity.
Qed.

Lemma splitArgs_single_witness :
  splitArgs (lit "  .init(x: 1)  ") = [lit ".init(x: 1)"]
  /\ splitArgs (lit "   ") = [].
Proof.
  split.
  - exact (proj2 (splitArgs_single (lit "  .init(x: 1)  ")) eq_refl).
  - exact (proj2 (splitArgs_single (lit "   ")) eq_refl).
Defined.

(** ** Stored values *)

Lemma replaceRunsFrom_none (p : N -> bool) (min : nat) (s : jsstring) :
  (0 < min)%nat ->
  Forall (fun c => p c = false) s ->
  replaceRunsFrom p min [] s = s.
Proof.
  intros Hmin Hs. induction Hs as [|c s Hc Hs IH]; cbn [replaceRunsFrom].
  - unfold flushRun. destruct min; [lia|reflexivity].
  - rewrite Hc, IH. unfold flushRun. destruct min; [lia|reflexivity].
Qed.

Lemma replaceRunsFrom_single (s : jsstring) :
  forall run,
    (length run <= 1)%nat ->
    Forall (fun c => isSpace c = true) run ->
    singleSpaced (run ++ s) = true ->
    replaceRunsFrom isSpace 2 run s = run ++ s.
Proof.
  induction s as [|c s IH]; intros run Hlen Hrun Hsingle; cbn [replaceRunsFrom].
  - rewrite app_nil_r. unfold flushRun.
    destruct run as [|w [|w' run]]; [reflexivity|reflexivity|simpl in Hlen; lia].
  - destruct (isSpace c) eqn:Ec.
    + destruct run as [|w run].
      * cbn [app] in *. apply (IH [c]); [simpl; lia|repeat constructor; exact Ec|].
        exact Hsingle.
      * exfalso. destruct run; [|simpl in Hlen; lia].
        cbn [app] in Hsingle. rewrite singleSpaced_two in Hsingle.
        apply Forall_cons in Hrun as [Hw _]. rewrite Hw, Ec in Hsingle.
        discriminate.
    + apply singleSpaced_app in Hsingle as Hs. destruct Hs as [_ Hs].
      assert (Hs' : singleSpaced s = true).
      { change (c :: s) with ([c] ++ s) in Hs.
        apply singleSpaced_app in Hs as [_ Hs]. exact Hs. }
      rewrite (IH [] ltac:(simpl; lia) ltac:(constructor) Hs').
      unfold flushRun.
      destruct run as [|w [|w' run]]; [reflexivity|reflexivity|simpl in Hlen; lia].
Qed.

Lemma trim_id (s : jsstring) : trimmed s = true -> trim s = s.
Proof.
  destruct s as [|c s]; [reflexivity|].
  unfold trimmed. intros H. apply andb_prop in H as [Hc Hl].
  apply negb_true_iff in Hc.
  unfold trim, trimStart, trimEnd. cbn [dropWhile]. rewrite Hc.
  destruct (last (c :: s)) as [d|] eqn:L.
  - apply last_Some in L as [r Hr]. rewrite Hr, reverse_app. cbn [reverse app].
    change (reverse [d]) with [d]. cbn [app dropWhile].
    apply negb_true_iff in Hl. rewrite Hl.
    change (d :: reverse r) with ([d] ++ reverse r).
    change [d] with (reverse [d]). rewrite <- reverse_app.
    apply reverse_involutive.
  - apply last_None in L. discriminate.
Qed.

Lemma normalizedText_id (s : jsstring) :
  Forall (fun c => isLineBreakOrTab c = false) s ->
  singleSpaced s = true ->
  trimmed s = true ->
  normalizedText s = s.
Proof.
  intros H1 H2 H3. unfold normalizedText, replaceRuns.
  rewrite (replaceRunsFrom_none isLineBreakOrTab 1 s ltac:(lia) H1).
  rewrite (replaceRunsFrom_single s [] ltac:(simpl; lia) ltac:(constructor) H2).
  apply trim_id. exact H3.
Qed.

Lemma singleSpaced_snoc (s : jsstring) (c : N) :
  singleSpaced s = true -> isSpace c = false -> singleSpaced (s ++ [c]) = true.
Proof.
  intros Hs Hc. induction s as [|a s IH]; [reflexivity|].
  destruct s as [|b s].
  - cbn [app]. rewrite singleSpaced_two, Hc, andb_false_r. reflexivity.
  - cbn [app] in *. rewrite singleSpaced_two in Hs |- *.
    apply andb_prop in Hs as [Hab Hs]. rewrite Hab. apply IH. exact Hs.
Qed.

(** X7. [normalizeValue] is idempotent: a stored value, truncated or
    not, is stored as it is when it goes through [normalizeValue] again. *)
Theorem normalizeValue_idempotent (val : jsstring) :
  normalizeValue (normalizeValue val) = normalizeValue val.
Proof.
  pose proof (normalizedText_collapsed val) as (H1 & H2 & H3).
  remember (normalizeValue val) as v eqn:Hv.
  unfold normalizeValue in Hv.
  set (single := normalizedText val) in *.
  assert (Hid : normalizedText v = v /\ len v <= 60).
  { destruct (len single >? 60) eqn:E.
    - assert (Hlen : (60 < length single)%nat) by (unfold len in E; lia).
      rewrite slice_0 in Hv by lia.
      change (Z.to_nat 57) with 57%nat in Hv. subst v. split.
      + apply normalizedText_id.
        * apply Forall_app. split; [apply Forall_take; exact H1|].
          repeat constructor.
        * apply singleSpaced_snoc; [|reflexivity].
          rewrite <- (take_drop 57 single) in H2.
          apply singleSpaced_app in H2 as [H2 _]. exact H2.
        * destruct single as [|c single]; [simpl in Hlen; lia|].
          cbn [take app]. unfold trimmed in H3 |- *.
          apply andb_prop in H3 as [Hc _]. rewrite Hc. cbn [andb].
          change (c :: take 56 single ++ [ELLIPSIS])
            with ((c :: take 56 single) ++ [ELLIPSIS]).
          rewrite last_snoc. reflexivity.
      + unfold len. rewrite length_app, length_take.
        change (length [ELLIPSIS]) with 1%nat. lia.
    - subst v. split; [apply normalizedText_id; assumption|lia]. }
  destruct Hid as [Hid Hle]. unfold normalizeValue. rewrite Hid.
  destruct (len v >? 60) eqn:E'; [lia|reflexivity].
Qed.

(** ** Labelled arguments *)

Lemma space_not_word (c : N) : isSpace c = true -> isWordChar c = false.
Proof.
  intros Hs. destruct (isWordChar c) eqn:Hw; [exfalso|reflexivity].
  unfold isSpace, isWordChar, inRange in *.
  rewrite ?orb_true_iff, ?andb_true_iff, ?N.leb_le, ?N.eqb_eq in *. lia.
Qed.

Lemma takeWhile_app (p : N -> bool) (a b : jsstring) :
  forallb p a = true ->
  match b with c :: _ => p c = false | [] => True end ->
  takeWhile p (a ++ b) = a.
Proof.
  intros Ha Hb. induction a as [|x a IH]; cbn [app].
  - destruct b as [|c b]; [reflexivity|]. cbn [takeWhile]. rewrite Hb. reflexivity.
  - cbn [forallb] in Ha. apply andb_prop in Ha as [Hx Ha].
    cbn [takeWhile]. rewrite Hx, IH by exact Ha. reflexivity.
Qed.

Lemma dropWhile_app (p : N -> bool) (a b : jsstring) :
  forallb p a = true -> dropWhile p (a ++ b) = dropWhile p b.
Proof.
  intros Ha. induction a as [|x a IH]; [reflexivity|].
  cbn [forallb] in Ha. apply andb_prop in Ha as [Hx Ha].
  cbn [app dropWhile]. rewrite Hx. apply IH. exact Ha.
Qed.

(** X8. An argument [key : value], with a label of word characters
    and any white space around the colon, is stored as the label, a
    colon, one space and the normalized value. *)
Theorem propOfArg_labelled (key ws1 ws2 v : jsstring) :
  key <> [] ->
  forallb isWordChar key = true ->
  forallb isSpace ws1 = true ->
  forallb isSpace ws2 = true ->
  startsWithText v = true ->
  propOfArg (key ++ ws1 ++ [chr ":"] ++ ws2 ++ v)
  = key ++ lit ": " ++ normalizeValue v.
Proof.
  intros Hkey Hword Hws1 Hws2 Hv.
  unfold propOfArg, matchLabelled.
  assert (Hnext : match ws1 ++ [chr ":"] ++ ws2 ++ v with
                  | c :: _ => isWordChar c = false
                  | [] => True
                  end).
  { destruct ws1 as [|c ws1]; [reflexivity|].
    cbn [forallb] in Hws1. apply andb_prop in Hws1 as [Hc _].
    apply space_not_word. exact Hc. }
  rewrite (takeWhile_app isWordChar key _ Hword Hnext).
  rewrite drop_app_length.
  rewrite (dropWhile_app isSpace ws1) by exact Hws1.
  cbn [app dropWhile]. replace (isSpace (chr ":")) with false by reflexivity.
  rewrite N.eqb_refl.
  rewrite (dropWhile_app isSpace ws2) by exact Hws2.
  destruct v as [|c v]; [discriminate|].
  cbn [startsWithText] in Hv. apply negb_true_iff in Hv.
  cbn [dropWhile]. rewrite Hv.
  destruct key; [congruence|reflexivity].
Qed.

Lemma propOfArg_labelled_witness :
  propOfArg (lit "spacing :  8") = lit "spacing: 8".
Proof.
  exact (propOfArg_labelled (lit "spacing") (lit " ") (lit "  ") (lit "8")
           ltac:(discriminate) eq_refl eq_refl eq_refl eq_refl).
Defined.

(** ** Closure parameters *)

Lemma stripParams_loop_result (text : jsstring) :
  forall fuel i dp db,
    stripParams_loop fuel text i dp db = text
    \/ exists j,
         standaloneIn text j = true
         /\ stripParams_loop fuel text i dp db = trimStart (sliceFrom text (j + 2)).
Proof.
  induction fuel as [|fuel IH]; intros i dp db; cbn [stripParams_loop];
    [left; reflexivity|].
  destruct (i <? len text); [|left; reflexivity].
  destruct (charIs text i QUOTE); [apply IH|]. cbv zeta.
  match goal with
  | |- context [if ?b then trimStart _ else _] => destruct b eqn:E
  end; [|apply IH].
  right. exists i. split; [|reflexivity].
  unfold standaloneIn.
  repeat (apply andb_prop in E as [E ?]).
  repeat (apply andb_true_intro; split); assumption.
Qed.

(** X9. [stripLeadingClosureParams] returns either the text as it is
    or what follows a stand-alone word [in], without the white space
    that follows the word. A text with no stand-alone [in] is returned
    as it is. *)
Theorem stripLeadingClosureParams_result (text : jsstring) :
  (stripLeadingClosureParams text = text
   \/ exists i,
        standaloneIn text i = true
        /\ stripLeadingClosureParams text = trimStart (sliceFrom text (i + 2)))
  /\ ((forall i, standaloneIn text i = false) ->
      stripLeadingClosureParams text = text).
Proof.
  assert (H : stripLeadingClosureParams text = text
              \/ exists i,
                   standaloneIn text i = true
                   /\ stripLeadingClosureParams text
                      = trimStart (sliceFrom text (i + 2)))
    by apply stripParams_loop_result.
  split; [exact H|].
  intros Hnone. destruct H as [H|(i & Hi & _)]; [exact H|].
  rewrite Hnone in Hi. discriminate.
Qed.

Lemma stripLeadingClosureParams_result_witness :
  stripLeadingClosureParams (lit " item in Text(item)") = lit "Text(item)"
  /\ standaloneIn (lit " item in Text(item)") 6 = true
  /\ stripLeadingClosureParams (lit "Text(main)") = lit "Text(main)".
Proof.
  split; [reflexivity|]. split; [reflexivity|].
  apply (proj2 (stripLeadingClosureParams_result (lit "Text(main)"))).
  intros i. unfold standaloneIn.
  destruct (charIs (lit "Text(main)") i (chr "i")) eqn:E; [|reflexivity].
  apply charIs_bounds in E as Hb.
  assert (Hi : i = 7).
  { change (len (lit "Text(main)")) with 10 in Hb.
    assert (Hc : i = 0 \/ i = 1 \/ i = 2 \/ i = 3 \/ i = 4 \/ i = 5 \/ i = 6
                 \/ i = 7 \/ i = 8 \/ i = 9) by lia.
    repeat (destruct Hc as [->|Hc]; [try discriminate E; reflexivity|]).
    subst i. discriminate E. }
  subst i. reflexivity.
Defined.

(** ** Nodes of the parser *)

Lemma slice_same (s : jsstring) (a : Z) : slice s a a = [].
Proof. unfold slice. rewrite Z.sub_diag. reflexivity. Qed.

Lemma skipWhile_loop_le (p : N -> bool) (text : jsstring) :
  forall fuel i, i <= len text -> skipWhile_loop fuel p text i <= len text.
Proof.
  induction fuel as [|fuel IH]; intros i Hi; cbn [skipWhile_loop]; [exact Hi|].
  destruct (i <? len text) eqn:E; cbn [andb]; [|exact Hi].
  destruct (charIn p text i); [apply IH; lia|exact Hi].
Qed.

Lemma skipWhile_loop_all (p : N -> bool) (text : jsstring) :
  forall fuel i,
    0 <= i -> forallb p (slice text i (skipWhile_loop fuel p text i)) = true.
Proof.
  induction fuel as [|fuel IH]; intros i Hi; cbn [skipWhile_loop];
    [rewrite slice_same; reflexivity|].
  destruct (i <? len text) eqn:E; cbn [andb]; [|rewrite slice_same; reflexivity].
  destruct (charIn p text i) eqn:Ep; [|rewrite slice_same; reflexivity].
  pose proof (skipWhile_loop_ge p text fuel (i + 1)).
  pose proof (skipWhile_loop_le p text fuel (i + 1) ltac:(lia)).
  rewrite <- (slice_app text i (i + 1)) by lia.
  rewrite forallb_app, IH by lia.
  rewrite <- charStr_slice by lia.
  unfold charStr, charIn in *. destruct (charAt text i); [|discriminate].
  cbn [forallb]. rewrite Ep. reflexivity.
Qed.

Lemma skipWhile_all (p : N -> bool) (text : jsstring) (i : Z) :
  0 <= i -> forallb p (slice text i (skipWhile p text i)) = true.
Proof. apply skipWhile_loop_all. Qed.

Lemma forallb_trim (p : N -> bool) (s : jsstring) :
  forallb p s = true -> forallb p (trim s) = true.
Proof.
  intros H. rewrite (trim_split s) in H.
  rewrite !forallb_app in H.
  apply andb_prop in H as [_ H]. apply andb_prop in H as [H _]. exact H.
Qed.

Lemma takeWhile_all (p : N -> bool) (s : jsstring) :
  forallb p s = true -> takeWhile p s = s.
Proof.
  intros H. rewrite <- (app_nil_r s) at 1.
  rewrite takeWhile_app; [reflexivity|exact H|exact I].
Qed.

Lemma isModifierText_name (nm : jsstring) :
  forallb isWordChar nm = true -> isModifierText nm = true.
Proof.
  intros H. unfold isModifierText. rewrite takeWhile_all by exact H.
  rewrite drop_all. reflexivity.
Qed.

Lemma isModifierText_call (nm args : jsstring) :
  forallb isWordChar nm = true ->
  isModifierText (nm ++ lit "(" ++ args ++ lit ")") = true.
Proof.
  intros H. unfold isModifierText.
  rewrite (takeWhile_app isWordChar nm) by (exact H || reflexivity).
  rewrite drop_app_length. cbn [lit list_ascii_of_string map app].
  replace (N_of_ascii "(" =? chr "(")%N with true by reflexivity.
  change (args ++ [N_of_ascii ")"]) with (args ++ [chr ")"]).
  rewrite last_snoc. reflexivity.
Qed.

Lemma modifiers_loop_texts (tail : jsstring) :
  forall fuel k depth mods,
    forallb isModifierText mods = true ->
    forallb isModifierText (modifiers_loop fuel tail k depth mods) = true.
Proof.
  induction fuel as [|fuel IH]; intros k depth mods Hmods;
    cbn [modifiers_loop]; [exact Hmods|].
  destruct (k <? len tail); [|exact Hmods].
  destruct (charIs tail k QUOTE); [apply IH; exact Hmods|]. cbv zeta.
  destruct (charIs tail k (chr ".")) eqn:Edot; cbn [andb];
    [|apply IH; exact Hmods].
  match goal with |- context [if ?b =? 0 then _ else _] => destruct (b =? 0) end;
    [|apply IH; exact Hmods].
  apply charIs_bounds in Edot.
  pose proof (skipWhile_all isWordChar tail (k + 1) ltac:(lia)) as Hname.
  match goal with |- context [if ?b then modifiers_loop _ _ _ _ _ else _] =>
    destruct b
  end; apply IH; rewrite forallb_app, Hmods; cbn [forallb andb];
    rewrite andb_true_r.
  - destruct (truthy _);
      [apply isModifierText_call|apply isModifierText_name]; exact Hname.
  - apply isModifierText_name. exact Hname.
Qed.

Lemma parseModifiers_texts (tail : jsstring) :
  forallb isModifierText (parseModifiers tail) = true.
Proof. apply modifiers_loop_texts. reflexivity. Qed.

Lemma baseName_ident (s : jsstring) :
  truthy (baseName s) = true /\ forallb isIdentChar (baseName s) = true.
Proof.
  unfold baseName.
  destruct (truthy (trim _)) eqn:E; [|split; reflexivity].
  split; [exact E|]. apply forallb_trim. apply skipWhile_all.
  pose proof (skipWhile_ge isSpace s 0). lia.
Qed.

Section ParsedNodes.

(** A property of single nodes that holds of the three kinds of nodes
    that the parser builds. *)
Variable P : ViewNode -> bool.

Hypothesis P_expression :
  forall s tail kids props0,
    P (Node (baseKind (baseName s)) (baseName s) (parseModifiers tail) kids
         (Some props0)) = true.

Hypothesis P_if : forall c branches, P (ifNode c branches) = true.

Hypothesis P_branch :
  forall kids,
    P (branchNode "Then" kids) = true /\ P (branchNode "Else" kids) = true.

Variable parseChildren : Parser.

Hypothesis parseChildren_all :
  forall b kids, parseChildren b = Some kids -> forallb (allNodes P) kids = true.

Lemma parseContentClosure_all s j kids j' :
  parseContentClosure parseChildren s j = Some (kids, j') ->
  forallb (allNodes P) kids = true.
Proof.
  unfold parseContentClosure.
  destruct (findContent (sliceFrom s j)) as [[index mlen]|];
    [|intros [= <- <-]; reflexivity].
  destruct (readBalanced s _ (chr "{") (chr "}")) as [blk|];
    [|intros [= <- <-]; reflexivity].
  destruct (parseChildren _) as [ks|] eqn:E; cbn [mbind option_bind];
    [|intros [=]].
  intros [= <- <-]. eapply parseChildren_all. eassumption.
Qed.

Lemma parseViewExpression_with_all expr node :
  parseViewExpression_with parseChildren expr = Some node ->
  allNodes P node = true.
Proof.
  unfold parseViewExpression_with.
  set (s := trim expr). set (nm := baseName s). set (i := argsOpen s).
  match goal with
  | |- (?m ≫= _) = _ -> _ =>
      destruct m as [[[props0 children0] i2]|] eqn:E1; [|intros [=]]
  end.
  assert (H0 : forallb (allNodes P) children0 = true).
  { destruct ((i <? len s) && charIs s i (chr "("));
      [|injection E1 as <- <- <-; reflexivity].
    destruct (bool_decide (baseKind nm = ForEach));
      [|injection E1 as <- <- <-; reflexivity].
    destruct (parseContentClosure parseChildren s _) as [[ks j']|] eqn:E;
      cbn [mbind option_bind] in E1; [|discriminate].
    injection E1 as <- <- <-. eapply parseContentClosure_all. eassumption. }
  cbn [mbind option_bind].
  match goal with
  | |- (?m ≫= _) = _ -> _ =>
      destruct m as [[[kind1 children1] baseEnd]|] eqn:E2; [|intros [=]]
  end.
  cbn [mbind option_bind]. intros [= <-].
  assert (H1 : kind1 = baseKind nm /\ forallb (allNodes P) children1 = true).
  { destruct ((skipWhile isSpace s i2 <? len s) && _);
      [|injection E2 as <- <- <-; split; [reflexivity|assumption]].
    destruct (readBalanced s _ (chr "{") (chr "}")) as [blk|];
      [|injection E2 as <- <- <-; split; [reflexivity|assumption]].
    destruct (parseChildren _) as [ks|] eqn:E; cbn [mbind option_bind] in E2;
      [|discriminate].
    injection E2 as <- <- <-. split.
    - unfold baseKind. destruct (isForEachName nm); reflexivity.
    - eapply parseChildren_all. eassumption. }
  destruct H1 as [-> Hc]. rewrite allNodes_unfold. cbn [children].
  rewrite Hc, andb_true_r. apply P_expression.
Qed.

Lemma parseIfElse_with_all fuel :
  forall text i node nextIndex,
    parseIfElse_with parseChildren fuel text i = Some (Some node, nextIndex) ->
    allNodes P node = true.
Proof.
  assert (Hbranch : forall nm kids,
            P (branchNode nm kids) = true ->
            forallb (allNodes P) kids = true ->
            allNodes P (branchNode nm kids) = true).
  { intros nm kids Hp Hk. rewrite allNodes_unfold. cbn [children branchNode].
    rewrite Hk, andb_true_r. exact Hp. }
  induction fuel as [|fuel IH]; intros text i node nextIndex; [intros [=]|].
  cbn [parseIfElse_with].
  set (k := condEnd text (skipWhile isSpace text (i + 2))).
  destruct ((k >=? len text) || negb (charIs text k (chr "{")));
    [intros [=]|].
  destruct (readBalanced text k (chr "{") (chr "}")) as [blk|]; [|intros [=]].
  destruct (parseChildren (inner blk)) as [thenKids|] eqn:Ethen;
    cbn [mbind option_bind]; [|intros [=]].
  apply parseChildren_all in Ethen.
  pose proof (Hbranch "Then"%string thenKids (proj1 (P_branch thenKids)) Ethen)
    as Hthen.
  assert (Hone : allNodes P (ifNode (trim (slice text
                   (skipWhile isSpace text (i + 2)) k))
                   [branchNode "Then" thenKids]) = true).
  { rewrite allNodes_unfold. cbn [children ifNode forallb].
    rewrite Hthen, P_if. reflexivity. }
  set (cursor := skipWhile isSpace text (blockEnd blk + 1)).
  destruct (isWordAt text cursor (lit "else")).
  - set (cursor1 := skipWhile isSpace text (cursor + 4)).
    destruct (isWordAt text cursor1 (lit "if")).
    + destruct (parseIfElse_with parseChildren fuel text cursor1)
        as [[[nested|] nx]|] eqn:Erec; cbn [mbind option_bind]; [| |intros [=]].
      * intros [= <- <-]. apply IH in Erec.
        rewrite allNodes_unfold. cbn [children ifNode forallb].
        rewrite Hthen, P_if, Hbranch; [reflexivity|apply P_branch|].
        cbn [forallb]. rewrite Erec. reflexivity.
      * intros [= <- <-]. exact Hone.
    + destruct (charIs text cursor1 (chr "{")).
      * destruct (readBalanced text cursor1 (chr "{") (chr "}")) as [eb|].
        -- destruct (parseChildren (inner eb)) as [elseKids|] eqn:Eelse;
             cbn [mbind option_bind]; [|intros [=]].
           apply parseChildren_all in Eelse.
           intros [= <- <-].
           rewrite allNodes_unfold. cbn [children ifNode forallb].
           rewrite Hthen, P_if, Hbranch; [reflexivity|apply P_branch|exact Eelse].
        -- intros [= <- <-]. exact Hone.
      * intros [= <- <-]. exact Hone.
  - intros [= <- <-]. exact Hone.
Qed.

Lemma parseChildren_loop_all fuel body :
  forall i kids kids',
    forallb (allNodes P) kids = true ->
    parseChildren_loop parseChildren fuel body i kids = Some kids' ->
    forallb (allNodes P) kids' = true.
Proof.
  induction fuel as [|fuel IH]; intros i kids kids' Hkids; [intros [=]|].
  cbn [parseChildren_loop].
  destruct (i <? len body); [|intros [= <-]; assumption].
  set (i1 := skipWhile isSpaceOrComma body i).
  destruct (i1 >=? len body); [intros [= <-]; assumption|].
  assert (Hexpr : forall r,
    (kids1 ← (if truthy (trim (slice body i1 (exprEnd body i1)))
              then node ← parseViewExpression_with parseChildren
                             (trim (slice body i1 (exprEnd body i1)));
                   Some (kids ++ [node])
              else Some kids);
     parseChildren_loop parseChildren fuel body (exprEnd body i1 + 1) kids1)
    = Some r -> forallb (allNodes P) r = true).
  { intros r.
    destruct (truthy _).
    - destruct (parseViewExpression_with parseChildren _) as [node|] eqn:E;
        cbn [mbind option_bind]; [|intros [=]].
      apply IH. apply forallb_snoc; [assumption|].
      eapply parseViewExpression_with_all. eassumption.
    - cbn [mbind option_bind]. apply IH. assumption. }
  destruct (isWordAt body i1 (lit "if")); [|apply Hexpr].
  destruct (parseIfElse_with parseChildren _ body i1) as [[[node|] nx]|] eqn:E;
    cbn [mbind option_bind]; [| |intros [=]].
  - apply IH. apply forallb_snoc; [assumption|].
    eapply parseIfElse_with_all. eassumption.
  - apply Hexpr.
Qed.

End ParsedNodes.

Lemma parseChildrenBlock_depth_all (P : ViewNode -> bool) :
  (forall s tail kids props0,
     P (Node (baseKind (baseName s)) (baseName s) (parseModifiers tail) kids
          (Some props0)) = true) ->
  (forall c branches, P (ifNode c branches) = true) ->
  (forall kids,
     P (branchNode "Then" kids) = true /\ P (branchNode "Else" kids) = true) ->
  forall depth body kids,
    parseChildrenBlock_depth depth body = Some kids ->
    forallb (allNodes P) kids = true.
Proof.
  intros H1 H2 H3.
  induction depth as [|depth IH]; intros body kids; [intros [=]|].
  cbn [parseChildrenBlock_depth].
  apply parseChildren_loop_all; try assumption. reflexivity.
Qed.

Lemma parsedNode_expression (s tail : jsstring) (kids : list ViewNode)
    (props0 : list jsstring) :
  parsedNode (Node (baseKind (baseName s)) (baseName s) (parseModifiers tail)
                kids (Some props0)) = true.
Proof.
  destruct (baseName_ident s) as [Ht Hi].
  unfold parsedNode, hasProps. cbn [name props modifiers kind].
  rewrite Ht, parseModifiers_texts, Hi. cbn [andb].
  rewrite bool_decide_eq_true_2 by reflexivity.
  unfold baseKind. destruct (isForEachName _); [reflexivity|].
  destruct (isContainerName _); reflexivity.
Qed.

(** X10. Every node of the lists that [parseChildrenBlock] returns, at
    any depth, and of the node that [parseViewExpression] returns, is
    well formed: it has a name that is not empty and a list of props;
    an expression node has a name of identifier characters, the kind that
    its name gives, and modifiers of the form [name] or [name(...)]; a
    conditional is named [if ...], its branches [Then] and [Else],
    without modifiers and props; and no node has the kind [CustomView]. *)
Theorem parsed_nodes_well_formed :
  (forall body kids,
     parseChildrenBlock body = Some kids ->
     forallb (allNodes parsedNode) kids = true)
  /\ (forall expr node,
        parseViewExpression expr = Some node ->
        allNodes parsedNode node = true).
Proof.
  assert (H : forall body kids,
            parseChildrenBlock body = Some kids ->
            forallb (allNodes parsedNode) kids = true).
  { intros body kids. unfold parseChildrenBlock.
    apply parseChildrenBlock_depth_all.
    - apply parsedNode_expression.
    - reflexivity.
    - split; reflexivity. }
  split; [exact H|].
  intros expr node. unfold parseViewExpression.
  apply parseViewExpression_with_all; [apply parsedNode_expression|exact H].
Qed.

Lemma parsed_nodes_well_formed_witness :
  exists kids,
    parseChildrenBlock stackWithConditional = Some kids
    /\ forallb (allNodes parsedNode) kids = true.
Proof.
  destruct (parseChildrenBlock stackWithConditional) as [kids|] eqn:E;
    [|vm_compute in E; discriminate E].
  exists kids. split; [reflexivity|].
  exact (proj1 parsed_nodes_well_formed stackWithConditional kids E).
Defined.

(** ** Containers are reserved *)

Lemma containerNames_reserved (nm : jsstring) :
  isContainerName nm = true -> includes CONTAINER_TYPES nm = true.
Proof.
  unfold isContainerName, includes. rewrite existsb_exists.
  intros (x & Hin & Hx). apply eqb_eq in Hx. subst x.
  assert (Hall : forallb (includes CONTAINER_TYPES) containerNames = true)
    by (vm_compute; reflexivity).
  rewrite forallb_forall in Hall. apply Hall. exact Hin.
Qed.

Lemma containerKept_expression (viewMap : ViewMap) (nm : jsstring)
    (mods : list jsstring) (kids : list ViewNode) (pr : option (list jsstring)) :
  containerKept viewMap (Node (baseKind nm) nm mods kids pr) = true.
Proof.
  unfold containerKept, keepsChildren. cbn [kind name].
  case_bool_decide as Hk; [|reflexivity].
  unfold baseKind in Hk. destruct (isForEachName nm); [discriminate|].
  destruct (isContainerName nm) eqn:E; [|discriminate].
  rewrite (containerNames_reserved nm E), andb_false_r. reflexivity.
Qed.

(** X11. Every name that [parseViewExpression] classifies as a container
    is one of the reserved names of [resolveCustomViews]. So every node
    of kind [Container] in a parsed block keeps its children when the
    custom views are resolved, whatever the declarations are, also one
    with the name of the container. *)
Theorem containers_keep_children :
  (forall nm, baseKind nm = Container -> includes CONTAINER_TYPES nm = true)
  /\ (forall viewMap body kids,
        parseChildrenBlock body = Some kids ->
        forallb (allNodes (containerKept viewMap)) kids = true)
  /\ (forall viewMap t seen,
        containerKept viewMap t = true -> kind t = Container ->
        inlineCustomView viewMap t seen = Some (t, seen)).
Proof.
  split; [|split].
  - intros nm. unfold baseKind. destruct (isForEachName nm); [discriminate|].
    destruct (isContainerName nm) eqn:E; [|discriminate].
    intros _. apply containerNames_reserved. exact E.
  - intros viewMap body kids. unfold parseChildrenBlock.
    apply parseChildrenBlock_depth_all.
    + intros. apply containerKept_expression.
    + reflexivity.
    + split; reflexivity.
  - intros viewMap t seen Hkept Hkind. unfold containerKept in Hkept.
    rewrite bool_decide_eq_true_2 in Hkept by exact Hkind.
    unfold keepsChildren in Hkept. apply negb_true_iff in Hkept.
    unfold inlineCustomView. rewrite Hkept. reflexivity.
Qed.

Lemma containers_keep_children_witness :
  parseChildrenBlock (lit "List { Text(a) }")
  = Some [Node Container (lit "List") [] [Node View (lit "Text") [] [] (Some [lit "a"])]
            (Some [])]
  /\ forallb (allNodes (containerKept [(lit "List", lit " Text(b) ")]))
       [Node Container (lit "List") []
          [Node View (lit "Text") [] [] (Some [lit "a"])] (Some [])] = true.
Proof.
  split; [vm_compute; reflexivity|].
  apply (proj1 (proj2 containers_keep_children)
           [(lit "List", lit " Text(b) ")] (lit "List { Text(a) }")).
  vm_compute. reflexivity.
Defined.

(** ** The recursion mark *)

Lemma includes_forallb (Q : jsstring -> bool) (l : list jsstring) (x : jsstring) :
  forallb Q l = true -> Q x = false -> includes l x = false.
Proof.
  intros Hl Hx. unfold includes. induction l as [|y l IH]; [reflexivity|].
  cbn [forallb] in Hl. apply andb_prop in Hl as [Hy Hl].
  cbn [existsb]. rewrite (IH Hl), orb_false_r.
  unfold eqb. apply bool_decide_eq_false_2. intros ->. congruence.
Qed.

Lemma parseChildrenBlock_unmarked (body : jsstring) (kids : list ViewNode) :
  parseChildrenBlock body = Some kids ->
  forallb (allNodes unmarked) kids = true.
Proof.
  unfold parseChildrenBlock. apply parseChildrenBlock_depth_all.
  - intros s tail ks props0. unfold unmarked. cbn [modifiers].
    rewrite (includes_forallb isModifierText _ RECURSION_MARK
               (parseModifiers_texts tail) eq_refl).
    reflexivity.
  - reflexivity.
  - split; reflexivity.
Qed.

Lemma inlineCustomView_unmarked viewMap t t' seen' :
  inlineCustomView viewMap t ∅ = Some (t', seen') ->
  allNodes unmarked t = true ->
  allNodes unmarked t' = true /\ seen' = ∅.
Proof.
  intros H Ht. split; [|eapply inlineCustomView_seen; exact H].
  unfold inlineCustomView in H.
  destruct (map_has viewMap (name t) && negb (includes CONTAINER_TYPES (name t)));
    [|injection H as <- <-; exact Ht].
  rewrite bool_decide_eq_false_2 in H by set_solver.
  destruct (map_get viewMap (name t)) as [body|]; [|discriminate].
  cbn [mbind option_bind] in H.
  destruct (parseChildrenBlock body) as [parsed|] eqn:E; [|discriminate].
  cbn [mbind option_bind] in H. injection H as <- <-.
  rewrite allNodes_unfold in Ht |- *. apply andb_prop in Ht as [Ht _].
  cbn [children]. rewrite (parseChildrenBlock_unmarked body parsed E).
  unfold unmarked in *. cbn [modifiers]. rewrite Ht. reflexivity.
Qed.

Lemma forEachChild_unmarked
    (resolve : ViewNode -> Seen -> option (ViewNode * Seen)) :
  (forall c c' seen',
     resolve c ∅ = Some (c', seen') ->
     allNodes unmarked c = true -> allNodes unmarked c' = true /\ seen' = ∅) ->
  forall kids kids' seen',
    forEachChild resolve kids ∅ = Some (kids', seen') ->
    forallb (allNodes unmarked) kids = true ->
    forallb (allNodes unmarked) kids' = true /\ seen' = ∅.
Proof.
  intros Hres. induction kids as [|c kids IH]; intros kids' seen'.
  - intros [= <- <-] _. split; reflexivity.
  - cbn [forEachChild forallb].
    destruct (resolve c ∅) as [[c' s1]|] eqn:Ec; cbn [mbind option_bind];
      [|intros [=]].
    intros H Hall. apply andb_prop in Hall as [Hc Hall].
    destruct (Hres c c' s1 Ec Hc) as [Hc' ->].
    destruct (forEachChild resolve kids ∅) as [[rest' s2]|] eqn:Er;
      cbn [mbind option_bind] in H; [|discriminate].
    injection H as <- <-.
    destruct (IH rest' s2 eq_refl Hall) as [Hrest ->].
    cbn [forallb]. rewrite Hc', Hrest. split; reflexivity.
Qed.

Lemma resolveCustomViews_unmarked fuel viewMap :
  forall t t' seen',
    resolveCustomViews fuel viewMap t ∅ = Some (t', seen') ->
    allNodes unmarked t = true ->
    allNodes unmarked t' = true /\ seen' = ∅.
Proof.
  induction fuel as [|fuel IH]; intros t t' seen'; [intros [=]|].
  rewrite resolveCustomViews_S.
  destruct (inlineCustomView viewMap t ∅) as [[t1 s1]|] eqn:E1;
    cbn [mbind option_bind]; [|intros [=]].
  intros H Ht.
  destruct (inlineCustomView_unmarked _ _ _ _ E1 Ht) as [Ht1 ->].
  destruct (forEachChild (resolveCustomViews fuel viewMap) (children t1) ∅)
    as [[kids s2]|] eqn:E2; cbn [mbind option_bind] in H; [|discriminate].
  injection H as <- <-.
  rewrite allNodes_unfold in Ht1. apply andb_prop in Ht1 as [Hm Hkids].
  destruct (forEachChild_unmarked _ IH _ _ _ E2 Hkids) as [Hkids' ->].
  split; [|reflexivity].
  rewrite allNodes_unfold. cbn [children]. rewrite Hkids', andb_true_r.
  exact Hm.
Qed.

(** X12. No tree that [buildTreeForRoot] returns has the modifier
    ['/* recursion */'] on any of its nodes: the parser never writes
    it, and when the custom views are resolved from the root the set of
    names in progress is empty at every node. *)
Theorem built_tree_has_no_recursion_mark fuel viewMap rootName tree :
  buildTreeForRoot fuel viewMap rootName = Some (Some tree) ->
  allNodes unmarked tree = true.
Proof.
  unfold buildTreeForRoot.
  destruct (map_get viewMap rootName) as [body|]; [|intros [=]].
  destruct (negb (truthy body)); [intros [=]|].
  destruct (parseChildrenBlock body) as [kids|] eqn:E; cbn [mbind option_bind];
    [|intros [=]].
  apply parseChildrenBlock_unmarked in E.
  assert (Hgroup : allNodes unmarked (groupNode kids) = true).
  { rewrite allNodes_unfold. cbn [children groupNode]. rewrite E. reflexivity. }
  assert (Hres : forall root,
            allNodes unmarked root = true ->
            ('(root', _) ← resolveCustomViews fuel viewMap root ∅;
             Some (Some root')) = Some (Some tree) ->
            allNodes unmarked tree = true).
  { intros root Hroot.
    destruct (resolveCustomViews fuel viewMap root ∅) as [[root' s]|] eqn:Er;
      cbn [mbind option_bind]; [|intros [=]].
    intros [= <-]. eapply resolveCustomViews_unmarked; eassumption. }
  destruct kids as [|k1 [|k2 rest]]; [apply Hres; exact Hgroup| |apply Hres; exact Hgroup].
  apply Hres. cbn [forallb] in E. rewrite andb_true_r in E. exact E.
Qed.

Lemma built_tree_has_no_recursion_mark_witness :
  exists tree,
    buildTreeForRoot 3 siblingsMap (lit "ContentView") = Some (Some tree)
    /\ allNodes unmarked tree = true.
Proof.
  destruct (buildTreeForRoot 3 siblingsMap (lit "ContentView"))
    as [[tree|]|] eqn:E; [|vm_compute in E; discriminate E..].
  exists tree. split; [reflexivity|].
  exact (built_tree_has_no_recursion_mark 3 siblingsMap (lit "ContentView") tree E).
Defined.

(** ** Trees without custom views *)

Lemma ViewNode_rect' (Q : ViewNode -> Prop) :
  (forall k nm mods kids pr, Forall Q kids -> Q (Node k nm mods kids pr)) ->
  forall t, Q t.
Proof.
  intros H. fix IH 1. intros [k nm mods kids pr]. apply H.
  induction kids as [|c kids IHk]; constructor; [apply IH|exact IHk].
Qed.

Lemma height_children (t c : ViewNode) :
  In c (children t) -> (height c < height t)%nat.
Proof.
  destruct t as [k nm mods kids pr]. cbn [children height]. intros Hin.
  pose proof (proj1 (list_max_le (map height kids) (list_max (map height kids)))
                (Nat.le_refl _)) as Hall.
  rewrite List.Forall_forall in Hall.
  specialize (Hall (height c) (in_map height kids c Hin)). lia.
Qed.

Lemma forEachChild_same
    (resolve : ViewNode -> Seen -> option (ViewNode * Seen)) (seen : Seen) :
  forall kids,
    (forall c, In c kids -> resolve c seen = Some (c, seen)) ->
    forEachChild resolve kids seen = Some (kids, seen).
Proof.
  induction kids as [|c kids IH]; intros H; [reflexivity|].
  cbn [forEachChild]. rewrite (H c (or_introl eq_refl)). cbn [mbind option_bind].
  rewrite IH by (intros c' Hc'; apply H; right; exact Hc').
  reflexivity.
Qed.

Lemma resolveCustomViews_same viewMap (seen : Seen) :
  forall fuel t,
    (height t <= fuel)%nat ->
    allNodes (keepsChildren viewMap) t = true ->
    resolveCustomViews fuel viewMap t seen = Some (t, seen).
Proof.
  induction fuel as [|fuel IH]; intros t Hh Hkeep.
  { destruct t. cbn [height] in Hh. lia. }
  rewrite resolveCustomViews_S.
  rewrite allNodes_unfold in Hkeep. apply andb_prop in Hkeep as [Ht Hkids].
  unfold inlineCustomView. unfold keepsChildren in Ht.
  apply negb_true_iff in Ht. rewrite Ht. cbn [mbind option_bind].
  rewrite forEachChild_same.
  - cbn [mbind option_bind]. destruct t. reflexivity.
  - intros c Hc. apply IH.
    + pose proof (height_children t c Hc). lia.
    + rewrite forallb_forall in Hkids. apply Hkids. exact Hc.
Qed.

Lemma keepsChildren_empty (t : ViewNode) : allNodes (keepsChildren []) t = true.
Proof.
  induction t as [k nm mods kids pr IH] using ViewNode_rect'.
  rewrite allNodes_unfold. cbn [children]. apply andb_true_intro. split;
    [reflexivity|].
  apply forallb_forall. rewrite List.Forall_forall in IH. exact IH.
Qed.

(** X13. When no node of a tree has the name of a declaration that is
    not reserved, [resolveCustomViews] returns the tree as it is, with
    the set of names in progress as it was, and its recursion is as deep
    as the tree is high. This is so of every tree when nothing is
    declared. *)
Theorem resolve_without_custom_views fuel viewMap t (seen : Seen) :
  (height t <= fuel)%nat ->
  (allNodes (keepsChildren viewMap) t = true ->
   resolveCustomViews fuel viewMap t seen = Some (t, seen))
  /\ resolveCustomViews fuel [] t seen = Some (t, seen).
Proof.
  intros Hh. split.
  - apply resolveCustomViews_same. exact Hh.
  - apply resolveCustomViews_same; [exact Hh|apply keepsChildren_empty].
Qed.

Lemma resolve_without_custom_views_witness :
  resolveCustomViews 2 headerMap plainStack ∅ = Some (plainStack, ∅)
  /\ resolveCustomViews 2 [] plainStack ∅ = Some (plainStack, ∅).
Proof.
  destruct (resolve_without_custom_views 2 headerMap plainStack ∅
              ltac:(vm_compute; lia)) as [H1 H2].
  split; [apply H1; reflexivity|exact H2].
Defined.

(** ** Blank bodies *)

Lemma skipWhile_loop_stop (p : N -> bool) (text : jsstring) :
  forall fuel i,
    len text - i <= Z.of_nat fuel ->
    skipWhile_loop fuel p text i < len text ->
    charIn p text (skipWhile_loop fuel p text i) = false.
Proof.
  induction fuel as [|fuel IH]; intros i Hf; cbn [skipWhile_loop]; [lia|].
  destruct (i <? len text) eqn:E; cbn [andb]; [|lia].
  destruct (charIn p text i) eqn:Ep; [apply IH; lia|intros _; exact Ep].
Qed.

Lemma skipWhile_stop (p : N -> bool) (text : jsstring) (i : Z) :
  skipWhile p text i < len text -> charIn p text (skipWhile p text i) = false.
Proof. apply skipWhile_loop_stop. lia. Qed.

Lemma skipWhile_le (p : N -> bool) (text : jsstring) (i : Z) :
  i <= len text -> skipWhile p text i <= len text.
Proof. apply skipWhile_loop_le. Qed.

Lemma skipWhile_here (p : N -> bool) (text : jsstring) (i : Z) :
  charIn p text i = false -> skipWhile p text i = i.
Proof.
  intros H. unfold skipWhile.
  destruct (Z.to_nat (len text - i)); cbn [skipWhile_loop]; [reflexivity|].
  rewrite H, andb_false_r. reflexivity.
Qed.

Lemma charIn_forallb (p : N -> bool) (s : jsstring) (i : Z) :
  forallb p s = true -> 0 <= i < len s -> charIn p s i = true.
Proof.
  intros Hall Hi. unfold charIn, charAt.
  destruct (i <? 0) eqn:E; [apply Z.ltb_lt in E; lia|].
  destruct (s !! Z.to_nat i) as [c|] eqn:L.
  - rewrite forallb_forall in Hall. apply Hall.
    apply list_elem_of_In. eapply list_elem_of_lookup_2. exact L.
  - apply lookup_ge_None in L. unfold len in Hi. lia.
Qed.

Lemma skipWhile_full (p : N -> bool) (s : jsstring) (i : Z) :
  forallb p s = true -> 0 <= i <= len s -> skipWhile p s i = len s.
Proof.
  intros Hall Hi.
  pose proof (skipWhile_ge p s i). pose proof (skipWhile_le p s i ltac:(lia)).
  destruct (Z.eq_dec (skipWhile p s i) (len s)) as [E|E]; [exact E|].
  pose proof (skipWhile_stop p s i ltac:(lia)) as Hstop.
  rewrite charIn_forallb in Hstop by (assumption || lia). discriminate.
Qed.

Lemma skipWhile_whole (p : N -> bool) (s : jsstring) :
  len s <= skipWhile p s 0 -> forallb p s = true.
Proof.
  intros H. pose proof (skipWhile_le p s 0 ltac:(unfold len; lia)).
  pose proof (skipWhile_all p s 0 ltac:(lia)) as Hall.
  replace (skipWhile p s 0) with (len s) in Hall by lia.
  rewrite slice_all in Hall. exact Hall.
Qed.

Lemma slice_head (s : jsstring) (i e : Z) (c : N) :
  charAt s i = Some c -> i < e -> exists rest, slice s i e = c :: rest.
Proof.
  unfold charAt. destruct (i <? 0) eqn:E; [intros [=]|]. intros L He.
  apply Z.ltb_ge in E. pose proof (lookup_lt_Some _ _ _ L) as Hlt.
  unfold slice, clampIndex. rewrite (proj2 (Z.ltb_ge i 0)) by lia.
  rewrite (proj2 (Z.ltb_ge e 0)) by lia. unfold len.
  rewrite (Z.min_l i) by lia.
  rewrite (drop_S _ _ _ L).
  destruct (Z.to_nat (Z.min e (Z.of_nat (length s)) - i)) as [|k] eqn:Ek; [lia|].
  cbn [take]. eauto.
Qed.

Lemma dropWhile_nil (p : N -> bool) (s : jsstring) :
  dropWhile p s = [] -> forallb p s = true.
Proof.
  induction s as [|c s IH]; [reflexivity|]. cbn [dropWhile forallb].
  destruct (p c); [exact IH|intros [=]].
Qed.

Lemma trim_truthy (c : N) (rest : jsstring) :
  isSpace c = false -> truthy (trim (c :: rest)) = true.
Proof.
  intros Hc. unfold trim, trimStart, trimEnd. cbn [dropWhile]. rewrite Hc.
  destruct (dropWhile isSpace (reverse (c :: rest))) as [|d l] eqn:E.
  - apply dropWhile_nil in E. rewrite reverse_cons, forallb_app in E.
    apply andb_prop in E as [_ E]. cbn [forallb] in E. rewrite Hc in E.
    discriminate.
  - rewrite reverse_cons. destruct (reverse l); reflexivity.
Qed.

Lemma exprEnd_gt (body : jsstring) (i : Z) :
  i < len body -> charIs body i NEWLINE = false -> i < exprEnd body i.
Proof.
  intros Hi Hn. unfold exprEnd.
  destruct (Z.to_nat (len body - i)) as [|fuel] eqn:Ef; [lia|].
  cbn [exprEnd_loop]. replace (i <? len body) with true by lia. cbv zeta.
  rewrite Hn. cbn [andb].
  repeat match goal with
         | |- context [if ?b then _ else _] => destruct b
         end;
    try (match goal with
         | |- _ < exprEnd_loop ?f ?b ?j ?dp ?db ?s =>
             pose proof (exprEnd_loop_ge b f j dp db s)
         end;
         try pose proof (readTripleQuoted_ge body i ltac:(lia)); lia).
Qed.

Section SiblingLoop.

Variable parseChildren : Parser.

Lemma parseChildren_loop_extends (body : jsstring) :
  forall fuel i kids r,
    parseChildren_loop parseChildren fuel body i kids = Some r ->
    exists more, r = kids ++ more.
Proof.
  induction fuel as [|fuel IH]; intros i kids r; [intros [=]|].
  cbn [parseChildren_loop].
  destruct (i <? len body); [|intros [= <-]; exists []; symmetry; apply app_nil_r].
  set (i1 := skipWhile isSpaceOrComma body i).
  destruct (i1 >=? len body);
    [intros [= <-]; exists []; symmetry; apply app_nil_r|].
  assert (Hexpr : forall r,
    (kids1 ← (if truthy (trim (slice body i1 (exprEnd body i1)))
              then node ← parseViewExpression_with parseChildren
                             (trim (slice body i1 (exprEnd body i1)));
                   Some (kids ++ [node])
              else Some kids);
     parseChildren_loop parseChildren fuel body (exprEnd body i1 + 1) kids1)
    = Some r -> exists more, r = kids ++ more).
  { intros r'.
    destruct (truthy _).
    - destruct (parseViewExpression_with parseChildren _) as [node|];
        cbn [mbind option_bind]; [|intros [=]].
      intros H. apply IH in H as [more ->]. rewrite <- app_assoc. eauto.
    - cbn [mbind option_bind]. apply IH. }
  destruct (isWordAt body i1 (lit "if")); [|apply Hexpr].
  destruct (parseIfElse_with parseChildren _ body i1) as [[[node|] nx]|];
    cbn [mbind option_bind]; [| |intros [=]].
  - intros H. apply IH in H as [more ->]. rewrite <- app_assoc. eauto.
  - apply Hexpr.
Qed.

Lemma parseChildren_loop_first (body : jsstring) (fuel : nat) (r : list ViewNode) :
  skipWhile isSpaceOrComma body 0 < len body ->
  parseChildren_loop parseChildren fuel body 0 [] = Some r ->
  r <> [].
Proof.
  intros Hi1. destruct fuel as [|fuel]; [intros [=]|].
  cbn [parseChildren_loop].
  set (i1 := skipWhile isSpaceOrComma body 0) in *.
  pose proof (skipWhile_ge isSpaceOrComma body 0) as Hge. fold i1 in Hge.
  replace (0 <? len body) with true by lia.
  replace (i1 >=? len body) with false by lia.
  pose proof (skipWhile_stop isSpaceOrComma body 0 Hi1) as Hstop. fold i1 in Hstop.
  assert (Hc : exists c, charAt body i1 = Some c /\ isSpace c = false
                         /\ charIs body i1 NEWLINE = false).
  { unfold charIn, charIs in *. destruct (charAt body i1) as [c|] eqn:Ec.
    - exists c. unfold isSpaceOrComma in Hstop.
      apply orb_false_elim in Hstop as [Hs _]. repeat split; [exact Hs|].
      destruct (c =? NEWLINE)%N eqn:En; [|reflexivity].
      apply N.eqb_eq in En. subst c. discriminate Hs.
    - exfalso. unfold charAt in Ec.
      destruct (i1 <? 0) eqn:E0; [apply Z.ltb_lt in E0; lia|].
      apply lookup_ge_None in Ec. unfold len in Hi1. lia. }
  destruct Hc as (c & Hc & Hsp & Hnl).
  pose proof (exprEnd_gt body i1 Hi1 Hnl) as He.
  destruct (slice_head body i1 (exprEnd body i1) c Hc He) as [rest Hslice].
  assert (Hexpr : forall r,
    (kids1 ← (if truthy (trim (slice body i1 (exprEnd body i1)))
              then node ← parseViewExpression_with parseChildren
                             (trim (slice body i1 (exprEnd body i1)));
                   Some ([] ++ [node])
              else Some []);
     parseChildren_loop parseChildren fuel body (exprEnd body i1 + 1) kids1)
    = Some r -> r <> []).
  { intros r'. rewrite Hslice, trim_truthy by exact Hsp.
    destruct (parseViewExpression_with parseChildren _) as [node|];
      cbn [mbind option_bind]; [|intros [=]].
    intros H. apply parseChildren_loop_extends in H as [more ->]. discriminate. }
  destruct (isWordAt body i1 (lit "if")); [|apply Hexpr].
  destruct (parseIfElse_with parseChildren _ body i1) as [[[node|] nx]|];
    cbn [mbind option_bind]; [| |intros [=]].
  - intros H. apply parseChildren_loop_extends in H as [more ->]. discriminate.
  - apply Hexpr.
Qed.

End SiblingLoop.

(** X14. A body gives no node exactly when it is blank: white space and
    commas only, or nothing at all. *)
Theorem no_children_iff_blank (body : jsstring) :
  parseChildrenBlock body = Some [] <-> forallb isSpaceOrComma body = true.
Proof.
  rewrite parseChildrenBlock_unfold. split.
  - intros H.
    destruct (Z_lt_le_dec (skipWhile isSpaceOrComma body 0) (len body)) as [Hlt|Hge].
    + exfalso. eapply parseChildren_loop_first; [exact Hlt|exact H|reflexivity].
    + apply skipWhile_whole. exact Hge.
  - intros Hblank. cbn [parseChildren_loop].
    destruct (0 <? len body); [|reflexivity].
    rewrite (skipWhile_full _ _ 0 Hblank) by (unfold len; lia).
    replace (len body >=? len body) with true by lia. reflexivity.
Qed.

Lemma no_children_iff_blank_witness :
  parseChildrenBlock (lit " , ") = Some [].
Proof.
  apply (proj2 (no_children_iff_blank (lit " , "))). reflexivity.
Defined.

(** ** What follows a conditional *)

Lemma parseIfElse_no_else (text : jsstring) (i : Z) (node : ViewNode) (next : Z) :
  parseIfElse text i = Some (Some node, next) ->
  hasElse text i = false ->
  next = afterThen text i.
Proof.
  unfold parseIfElse, hasElse, afterThen, thenBlock. cbn [parseIfElse_with].
  set (k := condEnd text (skipWhile isSpace text (i + 2))).
  destruct ((k >=? len text) || negb (charIs text k (chr "{")));
    [intros [=]|].
  destruct (readBalanced text k (chr "{") (chr "}")) as [blk|]; [|intros [=]].
  destruct (parseChildrenBlock (inner blk)) as [thenKids|];
    cbn [mbind option_bind]; [|intros [=]].
  intros H Helse. rewrite Helse in H. injection H as _ <-. reflexivity.
Qed.

Lemma parseIfElse_thenBlock (text : jsstring) (i : Z) (node : ViewNode) (next : Z) :
  parseIfElse text i = Some (Some node, next) ->
  exists blk, thenBlock text i = Some blk.
Proof.
  unfold parseIfElse, thenBlock. cbn [parseIfElse_with].
  set (k := condEnd text (skipWhile isSpace text (i + 2))).
  destruct ((k >=? len text) || negb (charIs text k (chr "{")));
    [intros [=]|].
  destruct (readBalanced text k (chr "{") (chr "}")) as [blk|]; [|intros [=]].
  intros _. eauto.
Qed.

Lemma isWordAt_inside (text : jsstring) (i : Z) (word : jsstring) :
  word <> [] -> isWordAt text i word = true -> i < len text.
Proof.
  intros Hw H. unfold isWordAt in H.
  destruct (eqb (slice text i (i + len word)) word) eqn:E; [|discriminate].
  apply eqb_eq in E.
  destruct (Z_lt_le_dec i (len text)) as [Hlt|Hge]; [exact Hlt|exfalso].
  apply Hw. rewrite <- E. unfold slice, clampIndex.
  assert (0 <= len text /\ 0 <= len word) as [? ?] by (unfold len; lia).
  rewrite (proj2 (Z.ltb_ge i 0)) by lia.
  rewrite (proj2 (Z.ltb_ge (i + len word) 0)) by lia.
  rewrite !Z.min_r by lia. rewrite Z.sub_diag. reflexivity.
Qed.

(** X15. After a conditional without [else], [parseIfElse] returns the
    index of the first character after the block that is not white
    space, and [parseChildrenBlock] goes on one character after that
    index: the character at the index, the first one of what follows the
    conditional, is part of no expression. *)
Theorem sibling_after_conditional (body : jsstring) (i : Z) (node : ViewNode)
    (next : Z) :
  parseIfElse body i = Some (Some node, next) ->
  hasElse body i = false ->
  next = afterThen body i
  /\ (next < len body -> charIn isSpace body next = false)
  /\ (charIn isSpaceOrComma body i = false ->
      isWordAt body i (lit "if") = true ->
      forall fuel kids,
        parseChildren_loop parseChildrenBlock (S fuel) body i kids
        = parseChildren_loop parseChildrenBlock fuel body (next + 1)
            (kids ++ [node])).
Proof.
  intros Hif Helse.
  pose proof (parseIfElse_no_else body i node next Hif Helse) as Hnext.
  split; [exact Hnext|]. split.
  - intros Hlt. rewrite Hnext in Hlt |- *. unfold afterThen in *.
    destruct (parseIfElse_thenBlock body i node next Hif) as [blk Hblk].
    rewrite Hblk in Hlt |- *. apply skipWhile_stop. exact Hlt.
  - intros Hhere Hword fuel kids.
    pose proof (isWordAt_inside body i (lit "if") ltac:(discriminate) Hword) as Hi.
    cbn [parseChildren_loop].
    replace (i <? len body) with true by lia.
    rewrite (skipWhile_here _ _ _ Hhere).
    replace (i >=? len body) with false by lia.
    rewrite Hword.
    change (parseIfElse_with parseChildrenBlock (S (Z.to_nat (len body - i))) body i)
      with (parseIfElse body i).
    rewrite Hif. reflexivity.
Qed.

Lemma sibling_after_conditional_witness :
  parseIfElse ifThenSibling 0
  = Some (Some (ifNode (lit "flag") [branchNode "Then" [leaf "A"]]), 16)
  /\ charAt ifThenSibling 16 = Some (chr "T")
  /\ 16 = afterThen ifThenSibling 0
  /\ parseChildrenBlock ifThenSibling
     = Some [ifNode (lit "flag") [branchNode "Then" [leaf "A"]];
             Node View (lit "ext") [] [] (Some [lit "x"])].
Proof.
  split; [vm_compute; reflexivity|]. split; [reflexivity|]. split.
  - apply (sibling_after_conditional ifThenSibling 0
             (ifNode (lit "flag") [branchNode "Then" [leaf "A"]]) 16);
      vm_compute; reflexivity.
  - vm_compute. reflexivity.
Defined.

(** ** Names without arguments *)

Lemma space_not_ident (c : N) : isSpace c = true -> isIdentChar c = false.
Proof.
  intros Hs. unfold isIdentChar. rewrite (space_not_word c Hs). cbn [orb].
  apply N.eqb_neq. intros ->. discriminate Hs.
Qed.

Lemma forallb_trimmed (s : jsstring) :
  forallb isIdentChar s = true -> trimmed s = true.
Proof.
  intros H. destruct s as [|c s]; [reflexivity|]. unfold trimmed.
  assert (Hns : forall d, In d (c :: s) -> isSpace d = false).
  { intros d Hd. rewrite forallb_forall in H. specialize (H d Hd).
    destruct (isSpace d) eqn:E; [|reflexivity].
    rewrite (space_not_ident d E) in H. discriminate. }
  rewrite (Hns c (or_introl eq_refl)). cbn [negb andb].
  destruct (last (c :: s)) as [d|] eqn:L; [|reflexivity].
  rewrite Hns; [reflexivity|].
  apply last_Some in L as [r Hr]. rewrite Hr. apply in_or_app. right. left.
  reflexivity.
Qed.

(** X16. An expression made of identifier characters only (letters,
    digits, underscores and dots) is a leaf named by the whole
    expression: a member chain such as [Color.black] is a name, and none
    of its members is a modifier. *)
Theorem member_chain_is_leaf (expr : jsstring) :
  expr <> [] ->
  forallb isIdentChar expr = true ->
  parseViewExpression expr = Some (Node (baseKind expr) expr [] [] (Some [])).
Proof.
  intros Hne Hall.
  assert (Hlen : 0 < len expr) by (destruct expr; [congruence|unfold len; simpl; lia]).
  unfold parseViewExpression, parseViewExpression_with.
  rewrite (trim_id expr (forallb_trimmed expr Hall)).
  assert (Hstart : skipWhile isSpace expr 0 = 0).
  { apply skipWhile_here. destruct expr as [|c s]; [congruence|].
    cbn [forallb] in Hall. apply andb_prop in Hall as [Hc _].
    change (charIn isSpace (c :: s) 0) with (isSpace c).
    destruct (isSpace c) eqn:E; [|reflexivity].
    rewrite (space_not_ident c E) in Hc. discriminate. }
  assert (Hend : baseTokenEnd expr = len expr).
  { unfold baseTokenEnd. rewrite Hstart. apply skipWhile_full; [exact Hall|lia]. }
  assert (Hargs : argsOpen expr = len expr).
  { unfold argsOpen. rewrite Hend. apply skipWhile_end. }
  assert (Hname : baseName expr = expr).
  { unfold baseName. rewrite Hstart, Hend, slice_all.
    rewrite (trim_id expr (forallb_trimmed expr Hall)).
    destruct expr; [congruence|reflexivity]. }
  rewrite Hargs, Hname.
  replace (len expr <? len expr) with false by lia.
  cbn [andb mbind option_bind]. rewrite skipWhile_end.
  replace (len expr <? len expr) with false by lia.
  cbn [andb mbind option_bind]. rewrite sliceFrom_end. reflexivity.
Qed.

Lemma member_chain_is_leaf_witness :
  parseViewExpression (lit "Color.black")
  = Some (Node View (lit "Color.black") [] [] (Some [])).
Proof.
  exact (member_chain_is_leaf (lit "Color.black") ltac:(discriminate) eq_refl).
Defined.

(** ** Calls and containers *)

Lemma skipWhile_segment (p : N -> bool) (pre a b : jsstring) :
  forallb p a = true ->
  match b with c :: _ => p c = false | [] => True end ->
  skipWhile p (pre ++ a ++ b) (len pre) = len pre + len a.
Proof.
  intros Ha Hb. set (s := pre ++ a ++ b).
  assert (Hlens : len s = len pre + len a + len b).
  { unfold s. rewrite !len_app. lia. }
  assert (0 <= len pre /\ 0 <= len a /\ 0 <= len b) as (? & ? & ?)
    by (unfold len; lia).
  set (r := skipWhile p s (len pre)).
  pose proof (skipWhile_ge p s (len pre)) as Hge.
  pose proof (skipWhile_le p s (len pre) ltac:(lia)) as Hle.
  pose proof (skipWhile_all p s (len pre) ltac:(lia)) as Hall.
  fold r in Hge, Hle, Hall.
  destruct (Z_lt_le_dec r (len pre + len a)) as [Hlt|Hge'].
  - exfalso. pose proof (skipWhile_stop p s (len pre) ltac:(fold r; lia)) as Hstop.
    fold r in Hstop. unfold charIn, charAt in Hstop.
    rewrite (proj2 (Z.ltb_ge r 0)) in Hstop by lia.
    unfold s, jsstring in Hstop.
    rewrite lookup_app_r in Hstop by (unfold len in *; lia).
    rewrite lookup_app_l in Hstop by (unfold len in *; lia).
    match type of Hstop with
    | match ?t with _ => _ end = _ => destruct t as [x|] eqn:L
    end.
    + rewrite forallb_forall in Ha.
      rewrite Ha in Hstop; [discriminate|].
      apply list_elem_of_In. eapply list_elem_of_lookup_2. exact L.
    + apply lookup_ge_None in L. unfold len in *. lia.
  - destruct (Z.eq_dec r (len pre + len a)) as [E|E]; [exact E|exfalso].
    destruct b as [|c b]; [unfold len in Hlens; simpl in Hlens; unfold len in *; lia|].
    rewrite <- (slice_app s (len pre) (len pre + len a) r) in Hall by lia.
    rewrite forallb_app in Hall. apply andb_prop in Hall as [_ Hall].
    assert (Hc : charAt s (len pre + len a) = Some c).
    { unfold s. rewrite app_assoc.
      replace (len pre + len a) with (len (pre ++ a)) by apply len_app.
      apply charAt_middle. }
    destruct (slice_head s (len pre + len a) r c Hc ltac:(lia)) as [rest Hs].
    rewrite Hs in Hall. cbn [forallb] in Hall. rewrite Hb in Hall. discriminate.
Qed.

Lemma skipWhile_prefix (p : N -> bool) (a b : jsstring) :
  forallb p a = true ->
  match b with c :: _ => p c = false | [] => True end ->
  skipWhile p (a ++ b) 0 = len a.
Proof. intros Ha Hb. apply (skipWhile_segment p [] a b Ha Hb). Qed.

Lemma skipWhile_at (p : N -> bool) (s pre a b : jsstring) (i r : Z) :
  s = pre ++ a ++ b -> i = len pre -> r = len pre + len a ->
  forallb p a = true ->
  match b with c :: _ => p c = false | [] => True end ->
  skipWhile p s i = r.
Proof. intros -> -> ->. apply skipWhile_segment. Qed.

Lemma parenScan_loop_nested (pre after : jsstring) :
  forall rest done d fuel,
    parensNest d rest = true ->
    0 <= d ->
    let s := pre ++ [chr "("] ++ done ++ rest ++ [chr ")"] ++ after in
    len s - (len pre + 1 + len done + 1) <= Z.of_nat fuel ->
    parenScan_loop fuel s (len pre + 1 + len done) (d + 1)
    = (len pre + 1 + len done + len rest + 1, 0).
Proof.
  induction rest as [|c rest IH]; intros done d fuel Hnest Hd s Hfuel.
  - cbn [parensNest] in Hnest. apply Z.eqb_eq in Hnest. subst d.
    set (j := len pre + 1 + len done).
    assert (Hchar : forall x, charIs s j x = N.eqb (chr ")") x).
    { intros x. unfold s, j.
      replace (len pre + 1 + len done) with (len (pre ++ [chr "("] ++ done))
        by (rewrite !len_app; change (len [chr "("]) with 1; lia).
      replace (pre ++ [chr "("] ++ done ++ [] ++ [chr ")"] ++ after)
        with ((pre ++ [chr "("] ++ done) ++ chr ")" :: after)
        by (rewrite <- !app_assoc; reflexivity).
      apply charIs_middle. }
    replace (len []) with 0 by reflexivity. rewrite Z.add_0_r.
    destruct fuel as [|fuel]; cbn [parenScan_loop]; rewrite !Hchar;
      replace (chr ")" =? chr "(")%N with false by reflexivity;
      replace (chr ")" =? chr ")")%N with true by reflexivity;
      replace (0 + 1 - 1) with 0 by lia; [reflexivity|].
    replace (0 >? 0) with false by reflexivity. rewrite andb_false_r. reflexivity.
  - cbn [parensNest] in Hnest. cbv zeta in Hnest.
    apply andb_prop in Hnest as [Hd' Hnest]. apply Z.leb_le in Hd'.
    set (j := len pre + 1 + len done).
    assert (Hchar : forall x, charIs s j x = N.eqb c x).
    { intros x. unfold s, j.
      replace (len pre + 1 + len done) with (len (pre ++ [chr "("] ++ done))
        by (rewrite !len_app; change (len [chr "("]) with 1; lia).
      replace (pre ++ [chr "("] ++ done ++ (c :: rest) ++ [chr ")"] ++ after)
        with ((pre ++ [chr "("] ++ done) ++ c :: (rest ++ [chr ")"] ++ after))
        by (rewrite <- !app_assoc; reflexivity).
      apply charIs_middle. }
    assert (Hlens : len s = len pre + 1 + len done + 1 + len rest + 1 + len after).
    { unfold s. rewrite !len_app. unfold len. simpl. lia. }
    assert (0 <= len rest /\ 0 <= len after) as [? ?] by (unfold len; lia).
    destruct fuel as [|fuel]; [lia|].
    cbn [parenScan_loop]. rewrite !Hchar.
    specialize (IH (done ++ [c]) (d + parenStep c) fuel Hnest Hd').
    cbv zeta in IH.
    replace (pre ++ [chr "("] ++ (done ++ [c]) ++ rest ++ [chr ")"] ++ after)
      with s in IH by (unfold s; rewrite <- !app_assoc; reflexivity).
    replace (len pre + 1 + len (done ++ [c])) with (j + 1) in IH
      by (unfold j; rewrite len_app; unfold len; simpl; lia).
    specialize (IH ltac:(lia)).
    replace (len (c :: rest)) with (1 + len rest) by (unfold len; simpl; lia).
    replace (j + (1 + len rest) + 1) with (j + 1 + len rest + 1) by lia.
    unfold parenStep in IH, Hd'.
    replace (j + 1 <? len s) with true by lia.
    destruct (c =? chr "(")%N.
    { replace (d + 1 + 1 >? 0) with true by lia. cbn [andb].
      rewrite <- IH; f_equal; lia. }
    destruct (c =? chr ")")%N.
    { replace (d + 1 - 1 >? 0) with true by lia. cbn [andb].
      rewrite <- IH; f_equal; lia. }
    replace (d + 1 >? 0) with true by lia. cbn [andb].
    rewrite <- IH; f_equal; lia.
Qed.

Lemma parenScan_nested (pre args after : jsstring) :
  parensNest 0 args = true ->
  parenScan (pre ++ [chr "("] ++ args ++ [chr ")"] ++ after) (len pre)
  = (len pre + 1 + len args + 1, 0).
Proof.
  intros Hnest. unfold parenScan.
  set (s := pre ++ [chr "("] ++ args ++ [chr ")"] ++ after).
  assert (Hlens : len s = len pre + 1 + len args + 1 + len after).
  { unfold s. rewrite !len_app. unfold len. simpl. lia. }
  assert (0 <= len pre /\ 0 <= len args /\ 0 <= len after) as (? & ? & ?)
    by (unfold len; lia).
  assert (Hchar : forall x, charIs s (len pre) x = N.eqb (chr "(") x).
  { intros x. apply charIs_middle. }
  destruct (Z.to_nat (len s - (len pre + 1))) as [|fuel] eqn:Ef; [lia|].
  cbn [parenScan_loop]. rewrite !Hchar.
  replace (chr "(" =? chr "(")%N with true by reflexivity.
  replace (len pre + 1 <? len s) with true by lia.
  replace (0 + 1 >? 0) with true by reflexivity. cbn [andb].
  pose proof (parenScan_loop_nested pre after args [] 0 fuel Hnest ltac:(lia)) as HL.
  cbv zeta in HL. cbn [app] in HL.
  replace (len pre + 1 + len []) with (len pre + 1) in HL by (unfold len; simpl; lia).
  apply HL.
  match goal with |- len ?x - _ <= _ => change x with s end. lia.
Qed.

Lemma baseName_prefix (nm rest : jsstring) :
  nm <> [] ->
  forallb isIdentChar nm = true ->
  match rest with c :: _ => isIdentChar c = false | [] => True end ->
  skipWhile isSpace (nm ++ rest) 0 = 0
  /\ baseTokenEnd (nm ++ rest) = len nm
  /\ baseName (nm ++ rest) = nm.
Proof.
  intros Hne Hall Hrest.
  assert (Hstart : skipWhile isSpace (nm ++ rest) 0 = 0).
  { apply skipWhile_here. destruct nm as [|c s]; [congruence|].
    cbn [forallb] in Hall. apply andb_prop in Hall as [Hc _].
    change (charIn isSpace ((c :: s) ++ rest) 0) with (isSpace c).
    destruct (isSpace c) eqn:E; [|reflexivity].
    rewrite (space_not_ident c E) in Hc. discriminate. }
  assert (Hend : baseTokenEnd (nm ++ rest) = len nm).
  { unfold baseTokenEnd. rewrite Hstart. apply skipWhile_prefix; assumption. }
  split; [exact Hstart|]. split; [exact Hend|].
  unfold baseName. rewrite Hstart, Hend.
  replace (slice (nm ++ rest) 0 (len nm)) with nm.
  - rewrite (trim_id nm (forallb_trimmed nm Hall)).
    destruct nm; [congruence|reflexivity].
  - symmetry. apply (slice_middle [] nm rest).
Qed.

Lemma trimmed_ends (c d : N) (s : jsstring) :
  isSpace c = false -> isSpace d = false -> trimmed (c :: s ++ [d]) = true.
Proof.
  intros Hc Hd. unfold trimmed. rewrite Hc. cbn [negb andb].
  change (c :: s ++ [d]) with ((c :: s) ++ [d]). rewrite last_snoc, Hd.
  reflexivity.
Qed.

Lemma trimmed_last (c : N) (s : jsstring) (d : N) :
  isSpace c = false -> last (c :: s) = Some d -> isSpace d = false ->
  trimmed (c :: s) = true.
Proof.
  intros Hc Hl Hd. unfold trimmed. rewrite Hc, Hl, Hd. reflexivity.
Qed.

(** X17. A call [Name(args)] followed by modifiers, where the name is
    made of identifier characters, the parentheses of the arguments
    nest, what follows the call is empty or starts with a dot and, for
    a name of the kind [ForEach], holds no label [content: {], is a
    leaf with that name, the kind that the name gives, the props that
    [parsePropsFromArgs] reads from the arguments, and the modifiers
    that are read from what follows the call. *)
Theorem call_is_leaf (nm args tail : jsstring) :
  nm <> [] ->
  forallb isIdentChar nm = true ->
  parensNest 0 args = true ->
  isModifierTail tail = true ->
  (baseKind nm = ForEach -> findContent tail = None) ->
  parseViewExpression (nm ++ [chr "("] ++ args ++ [chr ")"] ++ tail)
  = Some (Node (baseKind nm) nm (parseModifiers tail) []
            (Some (parsePropsFromArgs args))).
Proof.
  intros Hne Hall Hnest Htail Hcontent.
  set (s := nm ++ [chr "("] ++ args ++ [chr ")"] ++ tail).
  assert (Hlens : len s = len nm + 1 + len args + 1 + len tail).
  { unfold s. rewrite !len_app. unfold len. simpl. lia. }
  assert (0 <= len nm /\ 0 <= len args /\ 0 <= len tail) as (? & ? & ?)
    by (unfold len; lia).
  set (j := len nm + 1 + len args + 1).
  assert (Htrim : trim s = s).
  { apply trim_id.
    assert (Hlast : exists d, last s = Some d /\ isSpace d = false).
    { unfold s. rewrite !last_app. unfold isModifierTail in Htail.
      destruct tail as [|t tail']; [exists (chr ")"); split; reflexivity|].
      apply andb_prop in Htail as [_ Hlast].
      destruct (last (t :: tail')) as [d|]; [|discriminate].
      exists d. split; [reflexivity|]. apply negb_true_iff. exact Hlast. }
    destruct Hlast as (d & Hd & Hds). revert Hd. unfold s.
    destruct nm as [|c nm']; [congruence|].
    cbn [forallb] in Hall. apply andb_prop in Hall as [Hc _].
    intros Hd. apply (trimmed_last c _ d); [|exact Hd|exact Hds].
    destruct (isSpace c) eqn:E; [|reflexivity].
    rewrite (space_not_ident c E) in Hc. discriminate. }
  destruct (baseName_prefix nm ([chr "("] ++ args ++ [chr ")"] ++ tail)
              Hne Hall eq_refl) as (Hstart & Hend & Hname).
  fold s in Hstart, Hend, Hname.
  assert (Hopen : forall x, charIs s (len nm) x = N.eqb (chr "(") x).
  { intros x. apply charIs_middle. }
  assert (Hargs : argsOpen s = len nm).
  { unfold argsOpen. rewrite Hend. apply skipWhile_here.
    unfold charIn.
    replace (charAt s (len nm)) with (Some (chr "("))
      by (symmetry; apply charAt_middle).
    reflexivity. }
  assert (Hscan : parenScan s (len nm) = (j, 0))
    by apply (parenScan_nested nm args tail Hnest).
  assert (Hslice : slice s (len nm + 1) (j - 1) = args).
  { replace (len nm + 1) with (len (nm ++ [chr "("])) by (rewrite len_app; reflexivity).
    replace (j - 1) with (len (nm ++ [chr "("]) + len args)
      by (unfold j; rewrite len_app; change (len [chr "("]) with 1; lia).
    unfold s. rewrite app_assoc. apply slice_middle. }
  assert (Hfrom : sliceFrom s j = tail).
  { unfold sliceFrom.
    replace j with (len (nm ++ [chr "("] ++ args ++ [chr ")"]))
      by (unfold j; rewrite !len_app; unfold len; simpl; lia).
    replace (len s) with (len (nm ++ [chr "("] ++ args ++ [chr ")"]) + len tail)
      by (rewrite Hlens, !len_app; unfold len; simpl; lia).
    unfold s. rewrite <- (app_nil_r tail) at 1.
    replace (nm ++ [chr "("] ++ args ++ [chr ")"] ++ tail ++ [])
      with ((nm ++ [chr "("] ++ args ++ [chr ")"]) ++ tail ++ [])
      by (rewrite <- !app_assoc; reflexivity).
    apply slice_middle. }
  assert (Hdot : forall x,
            x <> chr "." -> (j <? len s) && charIs s j x = false).
  { intros x Hx. unfold isModifierTail in Htail.
    destruct tail as [|t tail'].
    - replace (j <? len s) with false; [reflexivity|].
      symmetry. apply Z.ltb_ge. rewrite Hlens. unfold j, len. simpl. lia.
    - apply andb_prop in Htail as [Ht _]. apply N.eqb_eq in Ht. subst t.
      rewrite (charIs_at s (nm ++ [chr "("] ++ args ++ [chr ")"]) (chr ".") tail' j x)
        by (unfold s, j; rewrite <- ?app_assoc; try reflexivity;
            rewrite !len_app; unfold len; simpl; lia).
      rewrite andb_comm. cbn [andb].
      replace (chr "." =? x)%N with false; [reflexivity|].
      symmetry. apply N.eqb_neq. congruence. }
  assert (Hskip : skipWhile isSpace s j = j).
  { unfold isModifierTail in Htail. destruct tail as [|t tail'].
    - replace j with (len s) by (rewrite Hlens; unfold j, len; simpl; lia).
      apply skipWhile_end.
    - apply andb_prop in Htail as [Ht _]. apply N.eqb_eq in Ht. subst t.
      apply skipWhile_here. unfold charIn.
      replace (charAt s j) with (Some (chr ".")); [reflexivity|].
      symmetry. unfold s, j.
      replace (len nm + 1 + len args + 1)
        with (len (nm ++ [chr "("] ++ args ++ [chr ")"]))
        by (rewrite !len_app; unfold len; simpl; lia).
      replace (nm ++ [chr "("] ++ args ++ [chr ")"] ++ chr "." :: tail')
        with ((nm ++ [chr "("] ++ args ++ [chr ")"]) ++ chr "." :: tail')
        by (rewrite <- !app_assoc; reflexivity).
      apply charAt_middle. }
  unfold parseViewExpression, parseViewExpression_with.
  rewrite Htrim, Hargs, Hname, Hopen, Hscan. cbn [fst].
  replace (len nm <? len s) with true by lia.
  replace (chr "(" =? chr "(")%N with true by reflexivity. cbn [andb].
  rewrite Hslice.
  assert (Hrest : forall k,
    ('(kind1, children1, baseEnd) ←
       (if (skipWhile isSpace s j <? len s)
           && charIs s (skipWhile isSpace s j) (chr "{")
        then match readBalanced s (skipWhile isSpace s j) (chr "{") (chr "}") with
             | Some blk =>
                 kids ← parseChildrenBlock
                          (if isForEachName nm
                           then stripLeadingClosureParams (inner blk)
                           else inner blk);
                 Some (if isForEachName nm then ForEach else k, kids,
                       blockEnd blk + 1)
             | None => Some (k, [], skipWhile isSpace s j)
             end
        else Some (k, [], skipWhile isSpace s j));
     Some (Node kind1 nm (parseModifiers (sliceFrom s baseEnd)) children1
             (Some (parsePropsFromArgs args))))
    = Some (Node k nm (parseModifiers tail) [] (Some (parsePropsFromArgs args)))).
  { intros k. rewrite Hskip, (Hdot (chr "{")) by discriminate.
    cbn [mbind option_bind]. rewrite Hfrom. reflexivity. }
  case_bool_decide as Hkind.
  - unfold parseContentClosure. rewrite Hfrom, (Hcontent Hkind).
    cbn [mbind option_bind]. apply Hrest.
  - cbn [mbind option_bind]. apply Hrest.
Qed.

Lemma call_is_leaf_witness :
  parseViewExpression
    (lit "Text" ++ [chr "("] ++ (quoted "Hi" ++ lit ", size: f(2)") ++ [chr ")"]
     ++ lit ".font(.title).bold()")
  = Some (Node View (lit "Text") [lit "font(.title)"; lit "bold"] []
            (Some [quoted "Hi"; lit "size: f(2)"])).
Proof.
  rewrite (call_is_leaf (lit "Text") (quoted "Hi" ++ lit ", size: f(2)")
             (lit ".font(.title).bold()")
             ltac:(discriminate) eq_refl eq_refl eq_refl ltac:(discriminate)).
  vm_compute. reflexivity.
Defined.

(** For [ForEach], a [content: {] label after the call is taken for the
    closure of the children, wherever it stands: the block of the
    modifier [overlay] gives the children, and no modifier is read. *)
Example forEach_content_label :
  findContent (lit ".overlay(content: { Text(a) })") = Some (9, 10)
  /\ parseViewExpression (lit "ForEach(items).overlay(content: { Text(a) })")
     = Some (Node ForEach (lit "ForEach") []
               [Node View (lit "Text") [] [] (Some [lit "a"])]
               (Some [lit "items"])).
Proof. split; vm_compute; reflexivity. Qed.

(** X18. A name followed by a block and by modifiers,
    [Name { body }.modifiers], where the braces of the body nest, the
    body has neither a quote nor a slash, and what follows the block is
    empty or starts with a dot, is a node with that name, the kind that
    the name gives and no props; its children are the nodes of the body,
    for [ForEach] of the body without its closure parameters, and its
    modifiers are read from what follows the block. *)
Theorem block_is_container (nm ws body tail : jsstring) :
  nm <> [] ->
  forallb isIdentChar nm = true ->
  forallb isSpace ws = true ->
  forallb plainChar body = true ->
  bracesNest 0 body = true ->
  isModifierTail tail = true ->
  parseViewExpression (nm ++ ws ++ braced body ++ tail)
  = (kids ← parseChildrenBlock
              (if isForEachName nm then stripLeadingClosureParams body else body);
     Some (Node (baseKind nm) nm (parseModifiers tail) kids (Some []))).
Proof.
  intros Hne Hall Hws Hplain Hnest Htail.
  set (s := nm ++ ws ++ braced body ++ tail).
  assert (Hlens : len s = len nm + len ws + 1 + len body + 1 + len tail).
  { unfold s, braced. rewrite !len_app. unfold len. simpl. lia. }
  assert (0 <= len nm /\ 0 <= len ws /\ 0 <= len body /\ 0 <= len tail)
    as (? & ? & ? & ?) by (unfold len; lia).
  assert (Htrim : trim s = s).
  { apply trim_id.
    assert (Hlast : exists d, last s = Some d /\ isSpace d = false).
    { unfold s, braced. rewrite !last_app. unfold isModifierTail in Htail.
      destruct tail as [|t tail']; [exists (chr "}"); split; reflexivity|].
      apply andb_prop in Htail as [_ Hlast].
      destruct (last (t :: tail')) as [d|]; [|discriminate].
      exists d. split; [reflexivity|]. apply negb_true_iff. exact Hlast. }
    destruct Hlast as (d & Hd & Hds). revert Hd. unfold s.
    destruct nm as [|c nm']; [congruence|].
    cbn [forallb] in Hall. apply andb_prop in Hall as [Hc _].
    intros Hd. apply (trimmed_last c _ d); [|exact Hd|exact Hds].
    destruct (isSpace c) eqn:E; [|reflexivity].
    rewrite (space_not_ident c E) in Hc. discriminate. }
  assert (Hrest : match ws ++ braced body ++ tail with
                  | c :: _ => isIdentChar c = false
                  | [] => True
                  end).
  { destruct ws as [|c ws']; [reflexivity|].
    cbn [forallb] in Hws. apply andb_prop in Hws as [Hc _].
    apply space_not_ident. exact Hc. }
  destruct (baseName_prefix nm (ws ++ braced body ++ tail) Hne Hall Hrest)
    as (Hstart & Hend & Hname). fold s in Hstart, Hend, Hname.
  set (i := len nm + len ws).
  assert (Hargs : argsOpen s = i).
  { unfold argsOpen. rewrite Hend.
    apply (skipWhile_segment isSpace nm ws (braced body ++ tail) Hws).
    reflexivity. }
  assert (Hopen : forall x, charIs s i x = N.eqb (chr "{") x).
  { intros x.
    apply (charIs_at s (nm ++ ws) (chr "{") (body ++ [chr "}"] ++ tail));
      [unfold s, braced; same_text|unfold i; len_lit]. }
  assert (Hblock : readBalanced s i (chr "{") (chr "}")
                   = Some (mkBlock body (i + 1 + len body))).
  { unfold s, i. rewrite app_assoc.
    replace (len nm + len ws) with (len (nm ++ ws)) by apply len_app.
    apply (readBalanced_nested (nm ++ ws) body tail Hplain Hnest). }
  assert (Hfrom : sliceFrom s (i + 1 + len body + 1) = tail).
  { unfold sliceFrom.
    apply (slice_at s (nm ++ ws ++ braced body) tail []);
      [unfold s; rewrite app_nil_r; same_text
      |unfold i, braced; len_lit
      |rewrite Hlens; unfold i, braced; len_lit]. }
  unfold parseViewExpression, parseViewExpression_with.
  rewrite Htrim, Hargs, Hname, !Hopen.
  replace (chr "{" =? chr "(")%N with false by reflexivity.
  rewrite andb_false_r. cbn [mbind option_bind].
  rewrite (skipWhile_here isSpace s i)
    by (unfold charIn, charIs in *; specialize (Hopen (chr "{"));
        destruct (charAt s i) as [c|]; [|discriminate];
        apply N.eqb_eq in Hopen; subst c; reflexivity).
  rewrite !Hopen. replace (i <? len s) with true by (unfold i; lia).
  replace (chr "{" =? chr "{")%N with true by reflexivity. cbn [andb].
  rewrite Hblock. cbn [inner blockEnd].
  destruct (parseChildrenBlock _) as [kids|]; cbn [mbind option_bind];
    [|reflexivity].
  rewrite Hfrom.
  f_equal. f_equal. unfold baseKind. destruct (isForEachName nm); reflexivity.
Qed.

Lemma block_is_container_witness :
  parseViewExpression
    (lit "VStack" ++ lit " " ++ braced (lit " Text(a) ") ++ lit ".padding(8)")
  = Some (Node Container (lit "VStack") [lit "padding(8)"]
            [Node View (lit "Text") [] [] (Some [lit "a"])] (Some [])).
Proof.
  rewrite (block_is_container (lit "VStack") (lit " ") (lit " Text(a) ")
             (lit ".padding(8)")
             ltac:(discriminate) eq_refl eq_refl eq_refl eq_refl eq_refl).
  vm_compute. reflexivity.
Defined.

(** ** Chains of modifiers *)

Lemma modifierSource_head (ms : list (jsstring * option jsstring)) :
  match concat (map modifierSource ms) with
  | c :: _ => c = chr "."
  | [] => True
  end.
Proof. destruct ms as [|[nm [args|]] ms]; [exact I|reflexivity|reflexivity]. Qed.

Lemma modifiers_loop_chain :
  forall (ms : list (jsstring * option jsstring)) (done : jsstring)
         (mods : list jsstring) (fuel : nat),
    forallb modifierOk ms = true ->
    (length (concat (map modifierSource ms)) <= fuel)%nat ->
    modifiers_loop fuel (done ++ concat (map modifierSource ms)) (len done) 0 mods
    = mods ++ map modifierStored ms.
Proof.
  induction ms as [|[nm oargs] ms IH]; intros done mods fuel Hok Hfuel.
  - cbn [map concat]. rewrite !app_nil_r.
    destruct fuel; cbn [modifiers_loop]; [reflexivity|].
    replace (len done <? len done) with false by lia. reflexivity.
  - cbn [forallb] in Hok. apply andb_prop in Hok as [Hm Hok].
    unfold modifierOk in Hm. cbn [fst snd] in Hm.
    apply andb_prop in Hm as [Hnm Hargs].
    set (rest := concat (map modifierSource ms)) in *.
    set (tail := done ++ concat (map modifierSource ((nm, oargs) :: ms))).
    assert (Htail : tail = done ++ modifierSource (nm, oargs) ++ rest)
      by reflexivity.
    assert (Hrest := modifierSource_head ms). fold rest in Hrest.
    set (k := len done).
    assert (0 <= k /\ 0 <= len nm /\ 0 <= len rest) as (? & ? & ?)
      by (unfold k, len; lia).
    assert (Hdot : forall x, charIs tail k x = N.eqb (chr ".") x).
    { intros x. apply (charIs_at tail done (chr ".")
                         (tl (modifierSource (nm, oargs)) ++ rest));
        [|reflexivity].
      rewrite Htail. destruct oargs; reflexivity. }
    assert (Hlen : k < len tail).
    { pose proof (charIs_bounds tail k (chr ".")
                    ltac:(rewrite Hdot; reflexivity)). lia. }
    destruct fuel as [|fuel].
    { exfalso. cbn [map concat] in Hfuel. rewrite length_app in Hfuel.
      destruct oargs; simpl in Hfuel; lia. }
    cbn [modifiers_loop].
    replace (k <? len tail) with true by lia.
    rewrite !Hdot.
    replace (chr "." =? QUOTE)%N with false by reflexivity.
    replace (chr "." =? chr "(")%N with false by reflexivity.
    replace (chr "." =? chr ")")%N with false by reflexivity.
    replace (chr "." =? chr ".")%N with true by reflexivity.
    cbv zeta. cbn [andb Z.eqb].
    destruct oargs as [args|].
    + (* .name(args) *)
      assert (Hj1 : skipWhile isWordChar tail (k + 1) = k + 1 + len nm).
      { apply (skipWhile_at isWordChar tail (done ++ [chr "."]) nm
                 ([chr "("] ++ args ++ [chr ")"] ++ rest));
          [rewrite Htail; unfold modifierSource; same_text
          |unfold k; len_lit|unfold k; len_lit|exact Hnm|reflexivity]. }
      rewrite Hj1.
      set (j := k + 1 + len nm).
      assert (Hopen : forall x, charIs tail j x = N.eqb (chr "(") x).
      { intros x. apply (charIs_at tail (done ++ [chr "."] ++ nm) (chr "(")
                           (args ++ [chr ")"] ++ rest));
          [rewrite Htail; unfold modifierSource; same_text
          |unfold j, k; len_lit]. }
      assert (Hj : skipWhile isSpace tail j = j).
      { apply skipWhile_here. unfold charIn. specialize (Hopen (chr "(")).
        unfold charIs in Hopen. destruct (charAt tail j) as [c|]; [|discriminate].
        apply N.eqb_eq in Hopen. subst c. reflexivity. }
      rewrite Hj, Hopen.
      pose proof (charIs_bounds tail j (chr "(")
                    ltac:(rewrite Hopen; reflexivity)) as Hjb.
      replace (j <? len tail) with true by lia.
      replace (chr "(" =? chr "(")%N with true by reflexivity. cbn [andb].
      assert (Hscan : parenScan tail j = (j + 1 + len args + 1, 0)).
      { replace j with (len (done ++ [chr "."] ++ nm))
          by (unfold j, k; len_lit).
        replace tail with ((done ++ [chr "."] ++ nm) ++ [chr "("] ++ args
                           ++ [chr ")"] ++ rest)
          by (rewrite Htail; unfold modifierSource; same_text).
        apply parenScan_nested. exact Hargs. }
      rewrite Hscan. cbn [fst].
      assert (Hname : slice tail (k + 1) j = nm).
      { apply (slice_at tail (done ++ [chr "."]) nm
                 ([chr "("] ++ args ++ [chr ")"] ++ rest));
          [rewrite Htail; unfold modifierSource; same_text
          |unfold k; len_lit|unfold j, k; len_lit]. }
      assert (Hargs' : slice tail (j + 1) (j + 1 + len args + 1 - 1) = args).
      { apply (slice_at tail (done ++ [chr "."] ++ nm ++ [chr "("]) args
                 ([chr ")"] ++ rest));
          [rewrite Htail; unfold modifierSource; same_text
          |unfold j, k; len_lit|unfold j, k; len_lit]. }
      rewrite Hname, Hargs'.
      specialize (IH (done ++ modifierSource (nm, Some args))
                    (mods ++ [modifierStored (nm, Some args)]) fuel Hok).
      rewrite <- app_assoc in IH. fold rest in IH.
      replace (done ++ modifierSource (nm, Some args) ++ rest) with tail in IH
        by (rewrite Htail; reflexivity).
      replace (len (done ++ modifierSource (nm, Some args)))
        with (j + 1 + len args + 1 - 1 + 1) in IH
        by (unfold modifierSource, j, k; len_lit).
      etransitivity; [apply IH|].
      * cbn [map concat] in Hfuel. rewrite length_app in Hfuel.
        unfold rest. simpl in Hfuel. lia.
      * cbn [map]. rewrite <- app_assoc. reflexivity.
    + (* .name *)
      assert (Hj1 : skipWhile isWordChar tail (k + 1) = k + 1 + len nm).
      { apply (skipWhile_at isWordChar tail (done ++ [chr "."]) nm rest);
          [rewrite Htail; unfold modifierSource; same_text
          |unfold k; len_lit|unfold k; len_lit|exact Hnm|].
        destruct rest as [|c r]; [exact I|]. subst c. reflexivity. }
      rewrite Hj1.
      set (j := k + 1 + len nm).
      assert (Hnext : charAt tail j = head rest).
      { destruct rest as [|c r].
        - unfold charAt. destruct (j <? 0); [reflexivity|].
          apply lookup_ge_None. rewrite Htail.
          unfold modifierSource. rewrite !length_app.
          unfold j, k, len. simpl. lia.
        - replace j with (len (done ++ [chr "."] ++ nm)) by (unfold j, k; len_lit).
          replace tail with ((done ++ [chr "."] ++ nm) ++ c :: r)
            by (rewrite Htail; unfold modifierSource; same_text).
          apply charAt_middle. }
      assert (Hj : skipWhile isSpace tail j = j).
      { apply skipWhile_here. unfold charIn. rewrite Hnext.
        destruct rest as [|c r]; [reflexivity|]. subst c. reflexivity. }
      rewrite Hj.
      assert (Hparen : (j <? len tail) && charIs tail j (chr "(") = false).
      { unfold charIs. rewrite Hnext.
        destruct rest as [|c r]; [apply andb_false_r|]. subst c.
        apply andb_false_r. }
      rewrite Hparen.
      assert (Hname : slice tail (k + 1) j = nm).
      { apply (slice_at tail (done ++ [chr "."]) nm rest);
          [rewrite Htail; unfold modifierSource; same_text
          |unfold k; len_lit|unfold j, k; len_lit]. }
      rewrite Hname.
      specialize (IH (done ++ modifierSource (nm, None))
                    (mods ++ [modifierStored (nm, None)]) fuel Hok).
      rewrite <- app_assoc in IH. fold rest in IH.
      replace (done ++ modifierSource (nm, None) ++ rest) with tail in IH
        by (rewrite Htail; reflexivity).
      replace (len (done ++ modifierSource (nm, None))) with (j - 1 + 1) in IH
        by (unfold modifierSource, j, k; len_lit).
      etransitivity; [apply IH|].
      * cbn [map concat] in Hfuel. rewrite length_app in Hfuel.
        unfold rest. simpl in Hfuel. lia.
      * cbn [map]. rewrite <- app_assoc. reflexivity.
Qed.

(** X19. A chain of modifiers [.name] and [.name(args)], where the
    names are made of word characters and the parentheses of the
    arguments nest, is read as the list of its modifiers in their order:
    each name, followed by its trimmed arguments in parentheses when it
    has arguments that are not empty. *)
Theorem parseModifiers_chain (ms : list (jsstring * option jsstring)) :
  forallb modifierOk ms = true ->
  parseModifiers (concat (map modifierSource ms)) = map modifierStored ms.
Proof.
  intros Hok. unfold parseModifiers.
  apply (modifiers_loop_chain ms [] [] _ Hok). lia.
Qed.

Lemma parseModifiers_chain_witness :
  parseModifiers (lit ".font(.title).bold.padding( 8 ).clipped()")
  = [lit "font(.title)"; lit "bold"; lit "padding(8)"; lit "clipped"].
Proof.
  exact (parseModifiers_chain
           [(lit "font", Some (lit ".title")); (lit "bold", None);
            (lit "padding", Some (lit " 8 ")); (lit "clipped", Some [])]
           eq_refl).
Defined.

(** ** Conditionals in their plain form *)

Lemma forallb_dropWhile (p q : N -> bool) (s : jsstring) :
  forallb p s = true -> forallb p (dropWhile q s) = true.
Proof.
  intros H. rewrite <- (takeWhile_dropWhile q s), forallb_app in H.
  apply andb_prop in H as [_ H]. exact H.
Qed.

Lemma forallb_takeWhile (p : N -> bool) (s : jsstring) :
  forallb p (takeWhile p s) = true.
Proof.
  induction s as [|c s IH]; [reflexivity|]. cbn [takeWhile].
  destruct (p c) eqn:E; [|reflexivity]. cbn [forallb]. rewrite E. exact IH.
Qed.

Lemma dropWhile_idempotent (p : N -> bool) (s : jsstring) :
  dropWhile p (dropWhile p s) = dropWhile p s.
Proof.
  induction s as [|c s IH]; [reflexivity|]. cbn [dropWhile].
  destruct (p c) eqn:E; [exact IH|]. cbn [dropWhile]. rewrite E. reflexivity.
Qed.

Lemma condEnd_loop_plain (pre rest : jsstring) :
  forall cnd done fuel,
    forallb conditionChar cnd = true ->
    (length cnd < fuel)%nat ->
    condEnd_loop fuel (pre ++ done ++ cnd ++ [chr "{"] ++ rest)
      (len pre + len done) 0
    = len pre + len done + len cnd.
Proof.
  induction cnd as [|c cnd IH]; intros done fuel Hc Hfuel;
    (destruct fuel as [|fuel]; [simpl in Hfuel; lia|]); cbn [condEnd_loop].
  - set (text := pre ++ done ++ [] ++ [chr "{"] ++ rest).
    assert (Hchar : forall x, charIs text (len pre + len done) x = N.eqb (chr "{") x).
    { intros x. apply (charIs_at text (pre ++ done) (chr "{") rest);
        [unfold text; same_text|len_lit]. }
    pose proof (charIs_bounds text _ (chr "{") ltac:(rewrite Hchar; reflexivity)).
    replace (len pre + len done <? len text) with true by lia.
    rewrite !Hchar.
    replace (chr "{" =? QUOTE)%N with false by reflexivity.
    replace (chr "{" =? chr "(")%N with false by reflexivity.
    replace (chr "{" =? chr ")")%N with false by reflexivity.
    replace (chr "{" =? chr "{")%N with true by reflexivity.
    cbv zeta. cbn [andb Z.eqb]. change (len []) with 0. lia.
  - set (text := pre ++ done ++ (c :: cnd) ++ [chr "{"] ++ rest).
    assert (Hchar : forall x, charIs text (len pre + len done) x = N.eqb c x).
    { intros x. apply (charIs_at text (pre ++ done) c (cnd ++ [chr "{"] ++ rest));
        [unfold text; same_text|len_lit]. }
    pose proof (charIs_bounds text _ c ltac:(rewrite Hchar; apply N.eqb_refl)).
    replace (len pre + len done <? len text) with true by lia.
    rewrite !Hchar. cbn [forallb] in Hc. apply andb_prop in Hc as [Hcc Hc].
    unfold conditionChar in Hcc.
    repeat (apply andb_prop in Hcc as [Hcc ?]).
    repeat match goal with H : negb _ = true |- _ => apply negb_true_iff in H end.
    rewrite Hcc, H0, H1, H2. cbv zeta. cbn [andb].
    pose proof (IH (done ++ [c]) fuel Hc ltac:(simpl in Hfuel; lia)) as H3.
    replace (pre ++ (done ++ [c]) ++ cnd ++ [chr "{"] ++ rest) with text in H3
      by (unfold text; same_text).
    replace (len pre + len (done ++ [c])) with (len pre + len done + 1) in H3
      by (rewrite len_app; unfold len; simpl; lia).
    rewrite H3. unfold len. simpl. lia.
Qed.

Lemma if_head (cond A tail : jsstring) :
  forallb conditionChar cond = true ->
  forallb plainChar A = true ->
  bracesNest 0 A = true ->
  let text := lit "if " ++ cond ++ braced A ++ tail in
  let condStart := skipWhile isSpace text 2 in
  let k := 3 + len cond in
  condEnd text condStart = k
  /\ trim (slice text condStart k) = trim cond
  /\ charIs text k (chr "{") = true
  /\ readBalanced text k (chr "{") (chr "}") = Some (mkBlock A (k + 1 + len A)).
Proof.
  intros Hcond HA HnA text condStart k.
  set (sp := takeWhile isSpace cond). set (cnd := dropWhile isSpace cond).
  assert (Hsplit : cond = sp ++ cnd) by (symmetry; apply takeWhile_dropWhile).
  assert (Hlc : len cond = len sp + len cnd) by (rewrite Hsplit; apply len_app).
  assert (0 <= len sp /\ 0 <= len cnd /\ 0 <= len A /\ 0 <= len tail)
    as (? & ? & ? & ?) by (unfold len; lia).
  assert (Htext : text = lit "if" ++ (lit " " ++ sp) ++ cnd ++ braced A ++ tail).
  { unfold text. rewrite Hsplit. same_text. }
  assert (Hstart : condStart = 3 + len sp).
  { unfold condStart.
    apply (skipWhile_at isSpace text (lit "if") (lit " " ++ sp)
             (cnd ++ braced A ++ tail) 2 (3 + len sp) Htext);
      [reflexivity|len_lit| |].
    - cbn [app forallb lit list_ascii_of_string map].
      apply forallb_takeWhile.
    - pose proof (dropWhile_head isSpace cond) as Hh. fold cnd in Hh.
      destruct cnd as [|c cnd']; [reflexivity|]. apply Hh. reflexivity. }
  assert (Hend : condEnd text condStart = k).
  { unfold condEnd. rewrite Hstart.
    pose proof (condEnd_loop_plain (lit "if") (A ++ [chr "}"] ++ tail) cnd
                  (lit " " ++ sp) (Z.to_nat (len text - (3 + len sp)))
                  (forallb_dropWhile _ _ _ Hcond)) as H3.
    replace (lit "if" ++ (lit " " ++ sp) ++ cnd ++ [chr "{"] ++ A ++ [chr "}"] ++ tail)
      with text in H3 by (rewrite Htext; unfold braced; same_text).
    replace (len (lit "if") + len (lit " " ++ sp)) with (3 + len sp) in H3
      by len_lit.
    rewrite H3; [unfold k; lia|].
    assert (len text = 3 + len cond + 1 + len A + 1 + len tail)
      by (unfold text, braced; len_lit).
    unfold len in *. lia. }
  split; [exact Hend|]. split; [|split].
  - rewrite Hstart.
    rewrite (slice_at text (lit "if " ++ sp) cnd (braced A ++ tail))
      by (rewrite ?Htext; try same_text; unfold k; len_lit).
    unfold trim, trimStart, cnd. rewrite dropWhile_idempotent. reflexivity.
  - rewrite (charIs_at text (lit "if " ++ cond) (chr "{") (A ++ [chr "}"] ++ tail))
      by (unfold text, braced, k; try same_text; len_lit).
    reflexivity.
  - apply (readBalanced_at text (lit "if " ++ cond) A tail);
      [unfold text; same_text|unfold k; len_lit|exact HA|exact HnA].
Qed.

(** X20. A conditional in its plain form, [if cond {A}] or
    [if cond {A} else {B}], where the condition has no quote, brace or
    parenthesis, the braces of the blocks nest and the blocks have
    neither a quote nor a slash, is an [If] node named [if] and the
    trimmed condition, with a [Then] branch for the nodes of [A] and,
    with [else], an [Else] branch for the nodes of [B]; the index that is
    returned is the length of the text. *)
Theorem if_else_blocks (cond A B : jsstring) :
  forallb conditionChar cond = true ->
  forallb plainChar A = true -> bracesNest 0 A = true ->
  forallb plainChar B = true -> bracesNest 0 B = true ->
  parseIfElse (lit "if " ++ cond ++ braced A) 0
  = (thenKids ← parseChildrenBlock A;
     Some (Some (ifNode (trim cond) [branchNode "Then" thenKids]),
           len (lit "if " ++ cond ++ braced A)))
  /\ parseIfElse (lit "if " ++ cond ++ braced A ++ lit " else " ++ braced B) 0
     = (thenKids ← parseChildrenBlock A;
        elseKids ← parseChildrenBlock B;
        Some (Some (ifNode (trim cond)
                      [branchNode "Then" thenKids; branchNode "Else" elseKids]),
              len (lit "if " ++ cond ++ braced A ++ lit " else " ++ braced B))).
Proof.
  intros Hcond HA HnA HB HnB.
  assert (0 <= len cond /\ 0 <= len A /\ 0 <= len B) as (? & ? & ?)
    by (unfold len; lia).
  split.
  - pose proof (if_head cond A [] Hcond HA HnA) as Hhead. cbv zeta in Hhead.
    rewrite app_nil_r in Hhead.
    set (text := lit "if " ++ cond ++ braced A) in *.
    destruct Hhead as (Hend & Htrim & Hopen & Hblock).
    assert (Hlens : len text = 3 + len cond + 1 + len A + 1)
      by (unfold text, braced; len_lit).
    unfold parseIfElse. cbn [parseIfElse_with]. change (0 + 2) with 2.
    rewrite Hend, Htrim, Hopen, Hblock. cbn [negb orb inner blockEnd].
    replace (3 + len cond >=? len text) with false by lia. cbn [orb].
    destruct (parseChildrenBlock A) as [thenKids|]; cbn [mbind option_bind];
      [|reflexivity].
    replace (3 + len cond + 1 + len A + 1) with (len text) by lia.
    rewrite skipWhile_end.
    replace (isWordAt text (len text) (lit "else")) with false; [reflexivity|].
    symmetry. destruct (isWordAt text (len text) (lit "else")) eqn:E;
      [|reflexivity].
    apply isWordAt_inside in E; [lia|discriminate].
  - pose proof (if_head cond A (lit " else " ++ braced B) Hcond HA HnA) as Hhead.
    cbv zeta in Hhead.
    set (text := lit "if " ++ cond ++ braced A ++ lit " else " ++ braced B) in *.
    destruct Hhead as (Hend & Htrim & Hopen & Hblock).
    assert (Hlens : len text = 3 + len cond + 1 + len A + 1 + 6 + 1 + len B + 1)
      by (unfold text, braced; len_lit).
    set (e := 3 + len cond + 1 + len A).
    unfold parseIfElse. cbn [parseIfElse_with]. change (0 + 2) with 2.
    rewrite Hend, Htrim, Hopen, Hblock. cbn [negb orb inner blockEnd].
    replace (3 + len cond >=? len text) with false by lia. cbn [orb].
    destruct (parseChildrenBlock A) as [thenKids|]; cbn [mbind option_bind];
      [|reflexivity].
    fold e.
    assert (Hcursor : skipWhile isSpace text (e + 1) = e + 2).
    { apply (skipWhile_at isSpace text (lit "if " ++ cond ++ braced A) (lit " ")
               (lit "else " ++ braced B));
        [unfold text; same_text|unfold e, braced; len_lit
        |unfold e, braced; len_lit|reflexivity|reflexivity]. }
    rewrite Hcursor.
    assert (Helse : isWordAt text (e + 2) (lit "else") = true).
    { unfold isWordAt. change (len (lit "else")) with 4.
      rewrite (slice_at text (lit "if " ++ cond ++ braced A ++ lit " ") (lit "else")
                 (lit " " ++ braced B))
        by (unfold text, e, braced; try same_text; len_lit).
      replace (eqb (lit "else") (lit "else")) with true
        by (symmetry; apply eqb_eq; reflexivity).
      cbn [negb]. unfold nonWordAt, missingOrNonWord.
      replace (charAt text (e + 2 - 1)) with (Some SPACE).
      2:{ symmetry.
          replace (e + 2 - 1) with (len (lit "if " ++ cond ++ braced A))
            by (unfold e, braced; len_lit).
          replace text with ((lit "if " ++ cond ++ braced A) ++ SPACE
                             :: (lit "else " ++ braced B))
            by (unfold text; same_text).
          apply charAt_middle. }
      replace (charAt text (e + 2 + 4)) with (Some SPACE).
      2:{ symmetry.
          replace (e + 2 + 4) with (len (lit "if " ++ cond ++ braced A ++ lit " else"))
            by (unfold e, braced; len_lit).
          replace text with ((lit "if " ++ cond ++ braced A ++ lit " else") ++ SPACE
                             :: braced B)
            by (unfold text; same_text).
          apply charAt_middle. }
      rewrite orb_true_r. reflexivity. }
    rewrite Helse.
    assert (Hcursor2 : skipWhile isSpace text (e + 2 + 4) = e + 7).
    { apply (skipWhile_at isSpace text (lit "if " ++ cond ++ braced A ++ lit " else")
               (lit " ") (braced B));
        [unfold text; same_text|unfold e, braced; len_lit
        |unfold e, braced; len_lit|reflexivity|reflexivity]. }
    rewrite Hcursor2.
    assert (Hbrace : forall x, charIs text (e + 7) x = N.eqb (chr "{") x).
    { intros x.
      apply (charIs_at text (lit "if " ++ cond ++ braced A ++ lit " else ")
               (chr "{") (B ++ [chr "}"]));
        [unfold text, braced; same_text|unfold e, braced; len_lit]. }
    assert (Hnoif : isWordAt text (e + 7) (lit "if") = false).
    { unfold isWordAt.
      assert (Hc : charAt text (e + 7) = Some (chr "{")).
      { specialize (Hbrace (chr "{")). unfold charIs in Hbrace.
        destruct (charAt text (e + 7)) as [c|]; [|discriminate].
        apply N.eqb_eq in Hbrace. subst c. reflexivity. }
      destruct (slice_head text (e + 7) (e + 7 + len (lit "if")) _ Hc
                  ltac:(change (len (lit "if")) with 2; lia)) as [r ->].
      reflexivity. }
    rewrite Hnoif, Hbrace.
    replace (chr "{" =? chr "{")%N with true by reflexivity.
    rewrite (readBalanced_at text (lit "if " ++ cond ++ braced A ++ lit " else ")
               B [] (e + 7))
      by (unfold text, e, braced; rewrite ?app_nil_r; try same_text;
          try len_lit; assumption).
    cbn [inner blockEnd].
    destruct (parseChildrenBlock B) as [elseKids|]; cbn [mbind option_bind];
      [|reflexivity].
    f_equal. f_equal. lia.
Qed.

Lemma if_else_blocks_witness :
  parseIfElse (lit "if " ++ lit "flag " ++ braced (lit " A() ") ++ lit " else "
               ++ braced (lit " B() ")) 0
  = Some (Some (ifNode (lit "flag")
                  [branchNode "Then" [leaf "A"]; branchNode "Else" [leaf "B"]]), 28).
Proof.
  rewrite (proj2 (if_else_blocks (lit "flag ") (lit " A() ") (lit " B() ")
                    eq_refl eq_refl eq_refl eq_refl eq_refl)).
  vm_compute. reflexivity.
Defined.

(** ** Declared names *)

Lemma map_has_keys (viewMap : ViewMap) (key : jsstring) :
  map_has viewMap key = true <-> key ∈ map_keys viewMap.
Proof.
  unfold map_has. induction viewMap as [|[k v] rest IH]; cbn [map_get map_keys map fst].
  - split; [discriminate|]. intros H. apply elem_of_nil in H. destruct H.
  - rewrite elem_of_cons. destruct (eqb k key) eqn:E.
    + apply eqb_eq in E. subst k. split; [left; reflexivity|reflexivity].
    + rewrite IH. split; [right; assumption|].
      intros [->|H]; [|exact H].
      exfalso. unfold eqb in E. rewrite bool_decide_eq_true_2 in E by reflexivity.
      discriminate.
Qed.

Lemma map_keys_set (viewMap : ViewMap) (key value : jsstring) :
  map_keys (map_set viewMap key value)
  = if map_has viewMap key then map_keys viewMap else map_keys viewMap ++ [key].
Proof.
  unfold map_has.
  induction viewMap as [|[k v] rest IH]; cbn [map_set map_get]; [reflexivity|].
  destruct (eqb k key) eqn:E; [reflexivity|].
  change (map_keys ((k, v) :: map_set rest key value))
    with (k :: map_keys (map_set rest key value)).
  rewrite IH. destruct (map_get rest key); reflexivity.
Qed.

Lemma search_ge {A : Type} (matchAt : Z -> option A) :
  forall fuel p q r, search matchAt fuel p = Some (q, r) -> p <= q.
Proof.
  induction fuel as [|fuel IH]; intros p q r; [intros [=]|].
  cbn [search]. destruct (matchAt p).
  - intros [= <- <-]. lia.
  - intros H. apply IH in H. lia.
Qed.

Lemma skipWhile_outside (p : N -> bool) (s : jsstring) (i : Z) :
  len s <= i -> skipWhile p s i = i.
Proof.
  intros H. unfold skipWhile.
  replace (Z.to_nat (len s - i)) with 0%nat by lia. reflexivity.
Qed.

Lemma matchStructAt_name (s : jsstring) (p : Z) (nm : jsstring) (start : Z) :
  0 <= p ->
  matchStructAt s p = Some (nm, start) ->
  isWord nm = true /\ p <= start.
Proof.
  intros Hp. unfold matchStructAt.
  destruct (literalAt s p (lit "struct")); [|intros [=]].
  set (a := skipWhile isSpace s (p + 6)).
  set (b := skipWhile isWordChar s a).
  destruct ((p + 6 <? a) && (a <? b)) eqn:E; [|intros [=]].
  apply andb_prop in E as [Ea Eb]. apply Z.ltb_lt in Ea, Eb.
  set (c := skipWhile isSpace s b).
  destruct (charIs s c (chr ":")); [|intros [=]].
  set (d := skipWhile isSpace s (c + 1)).
  destruct (literalAt s d (lit "View")); [|intros [=]].
  set (e := skipWhile isSpace s (d + 4)).
  destruct (charIs s e (chr "{")); [|intros [=]].
  intros [= <- <-].
  pose proof (skipWhile_ge isSpace s b). pose proof (skipWhile_ge isSpace s (c + 1)).
  pose proof (skipWhile_ge isSpace s (d + 4)).
  fold c in H. fold d in H0. fold e in H1.
  split; [|lia].
  assert (Ha : a < len s).
  { destruct (Z_lt_le_dec a (len s)) as [Hlt|Hge]; [exact Hlt|].
    unfold b in Eb. rewrite skipWhile_outside in Eb by exact Hge. lia. }
  pose proof (skipWhile_le isWordChar s a ltac:(lia)) as Hb. fold b in Hb.
  pose proof (skipWhile_all isWordChar s a ltac:(lia)) as Hword. fold b in Hword.
  unfold isWord. rewrite Hword, andb_true_r.
  pose proof (slice_len s a b ltac:(lia) ltac:(lia) Hb) as Hl.
  destruct (slice s a b); [unfold len in Hl; simpl in Hl; lia|reflexivity].
Qed.

Lemma extractViews_loop_names (source : jsstring) :
  forall fuel lastIndex viewMap,
    0 <= lastIndex ->
    NoDup (map_keys viewMap) ->
    Forall (fun nm => isWord nm = true) (map_keys viewMap) ->
    NoDup (map_keys (extractViews_loop fuel source lastIndex viewMap))
    /\ Forall (fun nm => isWord nm = true)
         (map_keys (extractViews_loop fuel source lastIndex viewMap)).
Proof.
  induction fuel as [|fuel IH]; intros lastIndex viewMap Hl Hnd Hw;
    cbn [extractViews_loop]; [split; assumption|].
  destruct (searchFrom source (matchStructAt source) lastIndex)
    as [[p [nm start]]|] eqn:E; [|split; assumption].
  pose proof (search_ge _ _ _ _ _ E) as Hp.
  apply search_Some in E.
  destruct (matchStructAt_name source p nm start ltac:(lia) E) as [Hnm Hstart].
  destruct (bodyOfStruct source start) as [body|];
    [|apply IH; [lia|assumption|assumption]].
  apply IH; [lia| |]; rewrite map_keys_set;
    destruct (map_has viewMap nm) eqn:Eh; try assumption.
  - apply NoDup_app. split; [exact Hnd|]. split; [|apply NoDup_singleton].
    intros x Hx Hx'. apply list_elem_of_singleton in Hx'. subst x.
    apply map_has_keys in Hx. congruence.
  - apply Forall_app. split; [exact Hw|]. constructor; [exact Hnm|constructor].
Qed.

Lemma sortWith_Permutation (cmp : jsstring -> jsstring -> Z) (l : list jsstring) :
  Permutation (sortWith cmp l) l.
Proof.
  assert (Hins : forall x k, Permutation (insertSorted cmp x k) (x :: k)).
  { intros x k. induction k as [|y k IHk]; [reflexivity|].
    cbn [insertSorted]. destruct (cmp x y >? 0); [|reflexivity].
    rewrite IHk. apply perm_swap. }
  induction l as [|x l IH]; [reflexivity|].
  cbn [sortWith foldr]. rewrite Hins. constructor. exact IH.
Qed.

Lemma declared_names_words (source : jsstring) :
  NoDup (map_keys (extractViews source))
  /\ Forall (fun nm => isWord nm = true) (map_keys (extractViews source)).
Proof.
  apply extractViews_loop_names; [lia|apply NoDup_nil_2|apply Forall_nil_2].
Qed.

(** X21. Every name of the map that [extractViews] returns is a word,
    not empty and made of word characters, and is in the map once,
    however often the source text declares it; so the root candidates
    have no name twice. *)
Theorem declared_names_are_distinct_words (source : jsstring) :
  NoDup (map_keys (extractViews source))
  /\ Forall (fun nm => isWord nm = true) (map_keys (extractViews source))
  /\ forall localeCompare,
       NoDup (collectRootCandidates localeCompare (extractViews source)).
Proof.
  destruct (declared_names_words source) as [Hnd Hw].
  split; [exact Hnd|]. split; [exact Hw|].
  intros localeCompare. unfold collectRootCandidates.
  rewrite sortWith_Permutation. exact Hnd.
Qed.

Lemma declared_names_are_distinct_words_witness :
  map_keys (extractViews cardSource) = [lit "Card"; lit "Root"]
  /\ NoDup (map_keys (extractViews cardSource)).
Proof.
  split; [vm_compute; reflexivity|].
  exact (proj1 (declared_names_are_distinct_words cardSource)).
Defined.

(** ** Conditionals and branches when custom views are resolved *)

Lemma isWord_no_space (nm : jsstring) (c : N) :
  isWord nm = true -> In c nm -> isSpace c = false.
Proof.
  unfold isWord. intros H Hin. apply andb_prop in H as [_ H].
  rewrite forallb_forall in H. specialize (H c Hin).
  destruct (isSpace c) eqn:E; [|reflexivity].
  rewrite (space_not_word c E) in H. discriminate.
Qed.

(** X22. A conditional is never inlined as a custom view of a source
    text: its name has a space, and the declared names are words. Its
    branches are: when a view named [Then] is declared, a [Then] branch
    becomes a [CustomView] and its children are replaced by the nodes of
    the body of that view. *)
Theorem conditionals_are_not_inlined :
  (forall source condition branches seen,
     inlineCustomView (extractViews source) (ifNode condition branches) seen
     = Some (ifNode condition branches, seen))
  /\ (forall viewMap body kids (seen : Seen),
        map_get viewMap (lit "Then") = Some body ->
        lit "Then" ∉ seen ->
        inlineCustomView viewMap (branchNode "Then" kids) seen
        = (parsed ← parseChildrenBlock body;
           Some (Node CustomView (lit "Then") [] parsed (Some []), seen))).
Proof.
  split.
  - intros source condition branches seen. unfold inlineCustomView.
    destruct (map_has (extractViews source) (name (ifNode condition branches)))
      eqn:E; [exfalso|reflexivity].
    apply map_has_keys in E.
    destruct (declared_names_words source) as [_ Hw].
    rewrite List.Forall_forall in Hw. apply list_elem_of_In in E.
    specialize (Hw _ E).
    assert (Hin : In SPACE (name (ifNode condition branches)))
      by (right; right; left; reflexivity).
    pose proof (isWord_no_space _ SPACE Hw Hin) as Hs. discriminate Hs.
  - intros viewMap body kids seen Hget Hseen. unfold inlineCustomView, map_has.
    cbn [name branchNode]. rewrite Hget.
    replace (includes CONTAINER_TYPES (lit "Then")) with false by reflexivity.
    cbn [negb andb]. rewrite bool_decide_eq_false_2 by exact Hseen.
    cbn [mbind option_bind kind modifiers props].
    rewrite seen_add_delete by exact Hseen. reflexivity.
Qed.

Lemma conditionals_are_not_inlined_witness :
  inlineCustomView (extractViews cardSource) (ifNode (lit "flag") []) ∅
  = Some (ifNode (lit "flag") [], ∅)
  /\ inlineCustomView thenMap (branchNode "Then" [leaf "A"]) ∅
     = Some (Node CustomView (lit "Then") [] [leaf "B"] (Some []), ∅).
Proof.
  split.
  - exact (proj1 conditionals_are_not_inlined cardSource (lit "flag") [] ∅).
  - rewrite (proj2 conditionals_are_not_inlined thenMap (lit " B() ")
               [leaf "A"] ∅ eq_refl ltac:(set_solver)).
    vm_compute. reflexivity.
Defined.

(** ** A declaration in its plain form *)

Lemma charAt_ext (a b : jsstring) (i : Z) :
  i < len a -> charAt (a ++ b) i = charAt a i.
Proof.
  intros Hi. unfold charAt. destruct (i <? 0) eqn:E; [reflexivity|].
  apply Z.ltb_ge in E. unfold jsstring.
  apply lookup_app_l. unfold len in Hi. lia.
Qed.

Lemma charIn_ext (p : N -> bool) (a b : jsstring) (i : Z) :
  i < len a -> charIn p (a ++ b) i = charIn p a i.
Proof. intros Hi. unfold charIn. rewrite charAt_ext by exact Hi. reflexivity. Qed.

Lemma charIs_ext (a b : jsstring) (i : Z) (c : N) :
  charIs a i c = true -> charIs (a ++ b) i c = true.
Proof.
  intros H. pose proof (charIs_bounds _ _ _ H). unfold charIs in *.
  rewrite charAt_ext by lia. exact H.
Qed.

Lemma slice_ext (a b : jsstring) (p q : Z) :
  0 <= p -> p <= q -> q <= len a -> slice (a ++ b) p q = slice a p q.
Proof.
  intros Hp Hpq Hq.
  rewrite !slice_inside by (rewrite ?len_app; unfold len in *; lia).
  rewrite drop_app_le by (unfold len in *; lia).
  apply take_app_le. rewrite length_drop. unfold len in *. lia.
Qed.

Lemma literalAt_fits (a : jsstring) (p : Z) (w : jsstring) :
  0 <= p -> w <> [] -> literalAt a p w = true -> p + len w <= len a.
Proof.
  intros Hp Hw H. unfold literalAt in H. apply eqb_eq in H.
  pose proof (slice_length a p (p + len w)) as Hl. rewrite H in Hl.
  unfold clampIndex in Hl. rewrite (proj2 (Z.ltb_ge p 0)) in Hl by lia.
  assert (0 < len w) by (destruct w; [congruence|unfold len; simpl; lia]).
  unfold len in *. lia.
Qed.

Lemma literalAt_ext (a b : jsstring) (p : Z) (w : jsstring) :
  0 <= p -> w <> [] -> literalAt a p w = true -> literalAt (a ++ b) p w = true.
Proof.
  intros Hp Hw H. pose proof (literalAt_fits a p w Hp Hw H).
  unfold literalAt in *.
  rewrite slice_ext by (unfold len in *; lia). exact H.
Qed.

Lemma literalAt_prefix (a b : jsstring) (p : Z) (w : jsstring) :
  0 <= p -> p + len w <= len a -> literalAt (a ++ b) p w = literalAt a p w.
Proof.
  intros Hp Hw. unfold literalAt.
  rewrite slice_ext by (unfold len in *; lia). reflexivity.
Qed.

Lemma literalAt_segment (pre w post : jsstring) :
  literalAt (pre ++ w ++ post) (len pre) w = true.
Proof. unfold literalAt. rewrite slice_middle. apply eqb_eq. reflexivity. Qed.

Lemma skipWhile_loop_ext (p : N -> bool) (a b : jsstring) :
  forall fuel1 fuel2 i,
    len a - i <= Z.of_nat fuel1 ->
    len (a ++ b) - i <= Z.of_nat fuel2 ->
    skipWhile_loop fuel1 p a i < len a ->
    skipWhile_loop fuel2 p (a ++ b) i = skipWhile_loop fuel1 p a i.
Proof.
  assert (Hab : len a <= len (a ++ b)) by (rewrite len_app; unfold len; lia).
  induction fuel1 as [|fuel1 IH]; intros fuel2 i H1 H2; cbn [skipWhile_loop];
    [lia|].
  destruct (i <? len a) eqn:E; cbn [andb]; [|lia].
  apply Z.ltb_lt in E.
  destruct fuel2 as [|fuel2]; [lia|]. cbn [skipWhile_loop].
  replace (i <? len (a ++ b)) with true by lia. cbn [andb].
  rewrite charIn_ext by exact E.
  destruct (charIn p a i); [|reflexivity].
  apply IH; lia.
Qed.

Lemma skipWhile_ext (p : N -> bool) (a b : jsstring) (i : Z) :
  skipWhile p a i < len a -> skipWhile p (a ++ b) i = skipWhile p a i.
Proof. apply skipWhile_loop_ext; lia. Qed.

Lemma matchBodyAt_ext (a b : jsstring) (p e : Z) :
  0 <= p -> matchBodyAt a p = Some e -> matchBodyAt (a ++ b) p = Some e.
Proof.
  intros Hp. unfold matchBodyAt.
  destruct (literalAt a p (lit "var")) eqn:E1; [|intros [=]].
  rewrite (literalAt_ext a b p (lit "var") Hp ltac:(discriminate) E1).
  set (i1 := skipWhile isSpace a (p + 3)).
  destruct ((p + 3 <? i1) && literalAt a i1 (lit "body")) eqn:E2; [|intros [=]].
  apply andb_prop in E2 as [E2 E2'].
  pose proof (skipWhile_ge isSpace a (p + 3)) as G1. fold i1 in G1.
  pose proof (literalAt_fits a i1 (lit "body") ltac:(lia) ltac:(discriminate) E2') as F1.
  change (len (lit "body")) with 4 in F1.
  rewrite (skipWhile_ext isSpace a b (p + 3)) by (fold i1; lia). fold i1.
  rewrite E2, (literalAt_ext a b i1 (lit "body") ltac:(lia) ltac:(discriminate) E2').
  cbn [andb].
  set (i2 := skipWhile isSpace a (i1 + 4)).
  destruct (charIs a i2 (chr ":")) eqn:E3; [|intros [=]].
  pose proof (charIs_bounds _ _ _ E3) as B2.
  rewrite (skipWhile_ext isSpace a b (i1 + 4)) by (fold i2; lia). fold i2.
  rewrite (charIs_ext a b i2 _ E3).
  set (i3 := skipWhile isSpace a (i2 + 1)).
  destruct (literalAt a i3 (lit "some")) eqn:E4; [|intros [=]].
  pose proof (skipWhile_ge isSpace a (i2 + 1)) as G3. fold i3 in G3.
  pose proof (literalAt_fits a i3 (lit "some") ltac:(lia) ltac:(discriminate) E4) as F3.
  change (len (lit "some")) with 4 in F3.
  rewrite (skipWhile_ext isSpace a b (i2 + 1)) by (fold i3; lia). fold i3.
  rewrite (literalAt_ext a b i3 (lit "some") ltac:(lia) ltac:(discriminate) E4).
  set (i4 := skipWhile isSpace a (i3 + 4)).
  destruct ((i3 + 4 <? i4) && literalAt a i4 (lit "View")) eqn:E5; [|intros [=]].
  apply andb_prop in E5 as [E5 E5'].
  pose proof (skipWhile_ge isSpace a (i3 + 4)) as G4. fold i4 in G4.
  pose proof (literalAt_fits a i4 (lit "View") ltac:(lia) ltac:(discriminate) E5') as F4.
  change (len (lit "View")) with 4 in F4.
  rewrite (skipWhile_ext isSpace a b (i3 + 4)) by (fold i4; lia). fold i4.
  rewrite E5, (literalAt_ext a b i4 (lit "View") ltac:(lia) ltac:(discriminate) E5').
  cbn [andb].
  set (i5 := skipWhile isSpace a (i4 + 4)).
  destruct (charIs a i5 (chr "{")) eqn:E6; [|intros [=]].
  pose proof (charIs_bounds _ _ _ E6) as B5.
  rewrite (skipWhile_ext isSpace a b (i4 + 4)) by (fold i5; lia). fold i5.
  rewrite (charIs_ext a b i5 _ E6). intros H. exact H.
Qed.

Lemma bracesNest_shift (body rest : jsstring) :
  forall d k,
    bracesNest d body = true -> 0 <= k -> bracesNest k rest = true ->
    bracesNest (d + k) (body ++ rest) = true.
Proof.
  induction body as [|c body IH]; intros d k Hd Hk Hrest.
  - cbn [bracesNest] in Hd. apply Z.eqb_eq in Hd. subst d. exact Hrest.
  - cbn [bracesNest app] in *. cbv zeta in *.
    apply andb_prop in Hd as [H0 Hd]. apply Z.leb_le in H0.
    apply andb_true_intro. split; [apply Z.leb_le; lia|].
    replace (d + k + braceStep c) with (d + braceStep c + k) by lia.
    apply IH; assumption.
Qed.

Lemma bracesNest_braced (body rest : jsstring) :
  bracesNest 0 body = true -> bracesNest 0 rest = true ->
  bracesNest 0 (braced body ++ rest) = true.
Proof.
  intros Hb Hr. unfold braced. rewrite <- !app_assoc. cbn [app bracesNest].
  cbv zeta. change (0 + braceStep (chr "{")) with (0 + 1). cbn [Z.leb andb].
  change (0 <=? 0 + 1) with true. cbn [andb].
  apply bracesNest_shift; [exact Hb|lia|].
  cbn [bracesNest app]. exact Hr.
Qed.

Lemma bracesNest_neutral (a rest : jsstring) (d : Z) :
  forallb (fun c => braceStep c =? 0) a = true -> 0 <= d ->
  bracesNest d (a ++ rest) = bracesNest d rest.
Proof.
  intros Ha Hd. induction a as [|c a IH]; [reflexivity|].
  cbn [forallb] in Ha. apply andb_prop in Ha as [Hc Ha]. apply Z.eqb_eq in Hc.
  cbn [app bracesNest]. cbv zeta. rewrite Hc, Z.add_0_r.
  replace (0 <=? d) with true by lia. cbn [andb]. apply IH. exact Ha.
Qed.

Lemma literalAt_at (s pre w post : jsstring) (i : Z) :
  s = pre ++ w ++ post -> i = len pre -> literalAt s i w = true.
Proof. intros -> ->. apply literalAt_segment. Qed.

Lemma matchStructAt_intro (s : jsstring) (p a b c d e : Z) :
  literalAt s p (lit "struct") = true ->
  skipWhile isSpace s (p + 6) = a ->
  skipWhile isWordChar s a = b ->
  p + 6 < a -> a < b ->
  skipWhile isSpace s b = c ->
  charIs s c (chr ":") = true ->
  skipWhile isSpace s (c + 1) = d ->
  literalAt s d (lit "View") = true ->
  skipWhile isSpace s (d + 4) = e ->
  charIs s e (chr "{") = true ->
  matchStructAt s p = Some (slice s a b, e + 1).
Proof.
  intros H1 H2 H3 H4 H5 H6 H7 H8 H9 H10 H11. unfold matchStructAt.
  rewrite H1, H2, H3, H6, H7, H8, H9, H10, H11.
  replace (p + 6 <? a) with true by lia. replace (a <? b) with true by lia.
  reflexivity.
Qed.

Lemma isWord_head (nm rest : jsstring) :
  isWord nm = true ->
  0 < len nm
  /\ forallb isWordChar nm = true
  /\ match nm ++ rest with c :: _ => isSpace c = false | [] => True end.
Proof.
  unfold isWord. intros H. apply andb_prop in H as [Ht Hw].
  destruct nm as [|c nm]; [discriminate|].
  split; [unfold len; simpl; lia|]. split; [exact Hw|].
  cbn [forallb] in Hw. apply andb_prop in Hw as [Hc _]. cbn [app].
  destruct (isSpace c) eqn:E; [|reflexivity].
  rewrite (space_not_word c E) in Hc. discriminate.
Qed.

(** X23. In a source text that is one declaration in its plain form,
    [struct Name: View { var body: some View {body} }], where the name
    is a word, the braces of the body nest and the body has neither a
    quote nor a slash, [extractViews] finds the declaration at the start,
    with the index after its opening brace, and the text of its body as
    it is written; when no other declaration is matched after it, the
    map has this one entry. *)
Theorem extractViews_declaration (nm body : jsstring) :
  isWord nm = true ->
  forallb plainChar body = true ->
  bracesNest 0 body = true ->
  matchStructAt (declaration nm body) 0 = Some (nm, len nm + 15)
  /\ bodyOfStruct (declaration nm body) (len nm + 15) = Some body
  /\ (searchFrom (declaration nm body) (matchStructAt (declaration nm body))
        (len nm + 15) = None ->
      extractViews (declaration nm body) = [(nm, body)]).
Proof.
  intros Hword Hplain Hnest.
  set (inn := lit " var body: some View " ++ braced body ++ lit " ").
  set (src := declaration nm body).
  assert (Hsrc : src = lit "struct " ++ nm ++ lit ": View " ++ braced inn)
    by reflexivity.
  destruct (isWord_head nm (lit ": View " ++ braced inn) Hword)
    as (Hlen & Hchars & Hhead).
  assert (Hmatch : matchStructAt src 0 = Some (nm, len nm + 15)).
  { rewrite (matchStructAt_intro src 0 7 (7 + len nm) (7 + len nm)
               (7 + len nm + 2) (7 + len nm + 7)).
    - f_equal. f_equal; [|lia].
      apply (slice_at src (lit "struct ") nm (lit ": View " ++ braced inn));
        [exact Hsrc|reflexivity|reflexivity].
    - rewrite Hsrc. apply (literalAt_ext (lit "struct ")); [lia|discriminate|].
      reflexivity.
    - apply (skipWhile_at isSpace src (lit "struct") (lit " ")
               (nm ++ lit ": View " ++ braced inn));
        [exact Hsrc|reflexivity|reflexivity|reflexivity|exact Hhead].
    - apply (skipWhile_at isWordChar src (lit "struct ") nm
               (lit ": View " ++ braced inn));
        [exact Hsrc|reflexivity|reflexivity|exact Hchars|reflexivity].
    - lia.
    - lia.
    - apply skipWhile_here. unfold charIn, charIs.
      pose proof (charIs_at src (lit "struct " ++ nm) (chr ":")
                    (lit " View " ++ braced inn) (7 + len nm) (chr ":")
                    ltac:(rewrite Hsrc; same_text) ltac:(len_lit)) as Hc.
      unfold charIs in Hc. destruct (charAt src (7 + len nm)) as [x|];
        [|discriminate]. apply N.eqb_eq in Hc. subst x. reflexivity.
    - apply (charIs_at src (lit "struct " ++ nm) (chr ":")
               (lit " View " ++ braced inn));
        [rewrite Hsrc; same_text|len_lit].
    - apply (skipWhile_at isSpace src (lit "struct " ++ nm ++ lit ":") (lit " ")
               (lit "View " ++ braced inn));
        [rewrite Hsrc; same_text|len_lit|len_lit|reflexivity|reflexivity].
    - apply (literalAt_at src (lit "struct " ++ nm ++ lit ": ") (lit "View")
               (lit " " ++ braced inn));
        [rewrite Hsrc; same_text|len_lit].
    - apply (skipWhile_at isSpace src (lit "struct " ++ nm ++ lit ": View")
               (lit " ") (braced inn));
        [rewrite Hsrc; same_text|len_lit|len_lit|reflexivity|reflexivity].
    - apply (charIs_at src (lit "struct " ++ nm ++ lit ": View ") (chr "{")
               (inn ++ [chr "}"]));
        [rewrite Hsrc; same_text|len_lit]. }
  assert (Hinn_plain : forallb plainChar inn = true).
  { unfold inn, braced. rewrite !forallb_app, Hplain. reflexivity. }
  assert (Hinn_nest : bracesNest 0 inn = true).
  { unfold inn. rewrite bracesNest_neutral by (reflexivity || lia).
    apply bracesNest_braced; [exact Hnest|reflexivity]. }
  assert (Hbody : bodyOfStruct src (len nm + 15) = Some body).
  { unfold bodyOfStruct.
    rewrite (readBalanced_at src (lit "struct " ++ nm ++ lit ": View ") inn []
               (len nm + 15 - 1) ltac:(rewrite Hsrc, app_nil_r; same_text)
               ltac:(len_lit) Hinn_plain Hinn_nest).
    cbn [inner].
    assert (Hsearch : searchFrom inn (matchBodyAt inn) 0 = Some (1, 22)).
    { unfold searchFrom.
      assert (Hl : 22 <= len inn) by (unfold inn, braced; len_lit).
      destruct (Z.to_nat (len inn - 0)) as [|[|fuel]] eqn:Ef; [lia|lia|].
      cbn [search].
      assert (H0 : matchBodyAt inn 0 = None).
      { unfold matchBodyAt. unfold inn at 1.
        rewrite literalAt_prefix by (vm_compute; intros [=]). reflexivity. }
      rewrite H0. change (0 + 1) with 1.
      assert (Hinn : inn = lit " var body: some View {" ++ body ++ [chr "}"] ++ lit " ")
        by (unfold inn, braced; same_text).
      rewrite Hinn.
      rewrite (matchBodyAt_ext (lit " var body: some View {")
                 (body ++ [chr "}"] ++ lit " ") 1 22 ltac:(lia) eq_refl).
      reflexivity. }
    rewrite Hsearch.
    rewrite (readBalanced_at inn (lit " var body: some View ") body (lit " ")
               (22 - 1) eq_refl eq_refl Hplain Hnest).
    reflexivity. }
  split; [exact Hmatch|]. split; [exact Hbody|].
  intros Hnone. unfold extractViews.
  assert (Hl : (2 <= length src)%nat).
  { assert (15 <= len src) by (rewrite Hsrc; unfold braced; len_lit).
    unfold len in *. lia. }
  destruct (length src) as [|[|fuel]] eqn:Ef; [lia|lia|].
  cbn [extractViews_loop].
  assert (Hfirst : searchFrom src (matchStructAt src) 0 = Some (0, (nm, len nm + 15))).
  { unfold searchFrom.
    destruct (Z.to_nat (len src - 0)) as [|f] eqn:Ef'; [unfold len in *; lia|].
    cbn [search]. rewrite Hmatch. reflexivity. }
  rewrite Hfirst, Hbody, Hnone. reflexivity.
Qed.

Lemma extractViews_declaration_witness :
  extractViews (declaration (lit "Card") (lit " VStack { Text(a) } "))
  = [(lit "Card", lit " VStack { Text(a) } ")].
Proof.
  apply (extractViews_declaration (lit "Card") (lit " VStack { Text(a) } ")
           eq_refl eq_refl eq_refl).
  vm_compute. reflexivity.
Defined.

(** ** Entry-point names *)

Lemma prefixIgnoreCase_spec (pattern s : jsstring) :
  prefixIgnoreCase pattern s = true
  <-> exists mid post,
        s = mid ++ post /\ map upperAscii mid = map upperAscii pattern.
Proof.
  revert s. induction pattern as [|p pattern IH]; intros s.
  - cbn [prefixIgnoreCase]. split; [|reflexivity].
    intros _. exists [], s. split; reflexivity.
  - destruct s as [|c s]; cbn [prefixIgnoreCase].
    + split; [discriminate|]. intros (mid & post & Hs & Hm).
      destruct mid; [discriminate Hm|discriminate Hs].
    + rewrite andb_true_iff, N.eqb_eq, IH. split.
      * intros (Hc & mid & post & -> & Hm). exists (c :: mid), post.
        split; [reflexivity|]. cbn [map]. rewrite Hc, Hm. reflexivity.
      * intros (mid & post & Hs & Hm). destruct mid as [|m mid]; [discriminate Hm|].
        cbn [map app] in *. injection Hs as -> ->. injection Hm as Hc Hm.
        split; [exact Hc|]. exists mid, post. split; [reflexivity|exact Hm].
Qed.

(** X24. A name counts as an entry point exactly when it contains one
    of the words [ContentView], [MainView], [Root] and [App] somewhere,
    in any letter case. *)
Theorem isEntryName_contains (s : jsstring) :
  isEntryName s = true
  <-> exists pre mid post pattern,
        s = pre ++ mid ++ post
        /\ In pattern entryPatterns
        /\ map upperAscii mid = map upperAscii pattern.
Proof.
  induction s as [|c s IH].
  - cbn [isEntryName]. rewrite orb_false_r, existsb_exists. split.
    + intros (pattern & Hin & Hp). apply prefixIgnoreCase_spec in Hp
        as (mid & post & Hs & Hm).
      exists [], mid, post, pattern. repeat split; assumption.
    + intros (pre & mid & post & pattern & Hs & Hin & Hm).
      exists pattern. split; [exact Hin|]. apply prefixIgnoreCase_spec.
      destruct pre; [|discriminate Hs]. exists mid, post. split; assumption.
  - cbn [isEntryName]. rewrite orb_true_iff, existsb_exists, IH. split.
    + intros [(pattern & Hin & Hp)|(pre & mid & post & pattern & Hs & Hin & Hm)].
      * apply prefixIgnoreCase_spec in Hp as (mid & post & Hs & Hm).
        exists [], mid, post, pattern. repeat split; assumption.
      * exists (c :: pre), mid, post, pattern. rewrite Hs.
        repeat split; assumption.
    + intros (pre & mid & post & pattern & Hs & Hin & Hm).
      destruct pre as [|c' pre].
      * left. exists pattern. split; [exact Hin|]. apply prefixIgnoreCase_spec.
        exists mid, post. split; assumption.
      * right. cbn [app] in Hs. injection Hs as -> ->.
        exists pre, mid, post, pattern. repeat split; assumption.
Qed.

Lemma isEntryName_contains_witness :
  isEntryName (lit "WrapperView") = true /\ score (lit "WrapperView") = 0.
Proof.
  assert (H : isEntryName (lit "WrapperView") = true).
  { apply (proj2 (isEntryName_contains (lit "WrapperView"))).
    exists (lit "Wr"), (lit "app"), (lit "erView"), (lit "App").
    split; [reflexivity|]. split; [|reflexivity].
    right. right. right. left. reflexivity. }
  split; [exact H|]. unfold score. rewrite H. reflexivity.
Defined.

(** ** The lexical structure and the scanner *)



Lemma charAt_None (s : jsstring) (i : Z) :
  0 <= i -> charAt s i = None -> len s <= i.
Proof.
  unfold charAt. intros H0. destruct (i <? 0) eqn:E; [lia|]. intros L.
  apply lookup_ge_None in L. unfold len. lia.
Qed.









Lemma lexClasses_length (b : bool) :
  forall n s m, (length s <= n)%nat -> length (lexClasses b m s) = length s.
Proof.
  induction n as [|n IH]; intros s m Hn.
  { destruct s; [reflexivity|simpl in Hn; lia]. }
  destruct s as [|c rest]; [reflexivity|]. cbn [length] in Hn.
  assert (H1 : forall m', length (lexClasses b m' rest) = length rest)
    by (intros; apply IH; lia).
  destruct m; cbn [lexClasses];
    repeat match goal with
      | |- context [N.eqb ?x ?y] => destruct (N.eqb x y)
      | |- context [match rest with _ => _ end] =>
          destruct rest as [|c1 rest]; cbn [length] in *
      | |- context [match ?r with [] => _ | _ :: _ => _ end] =>
          destruct r as [|c2 r]; cbn [length] in *
      | |- context [?x && _] => destruct x; cbn [andb]
      end;
    cbn [length]; rewrite ?H1, ?IH by (cbn [length]; lia); reflexivity.
Qed.

Lemma lexClasses_len (b : bool) (m : LexMode) (s : jsstring) :
  length (lexClasses b m s) = length s.
Proof. apply (lexClasses_length b (length s)). lia. Qed.

Lemma codeOnly_length (b : bool) (s : jsstring) :
  length (codeOnly b s) = length s.
Proof.
  unfold codeOnly. rewrite length_zip_with, lexClasses_len. lia.
Qed.















(** ** Where arguments are split, and where they are not *)

(** A comma in a string literal does not split. *)
Example splitArgs_string_literal :
  splitArgs (lit "a, " ++ quoted "x, y" ++ lit ", b")
  = [lit "a"; quoted "x, y"; lit "b"].
Proof. vm_compute. reflexivity. Qed.




(** ** Argument lists that do not balance *)

Lemma staysOpenb_spec (t : jsstring) (i : Z) :
  staysOpenb t i = true -> staysOpen t i.
Proof.
  unfold staysOpenb, staysOpen. intros Hall j Hij Hj.
  rewrite forallb_forall in Hall.
  specialize (Hall (Z.to_nat (j - i - 1))).
  replace (i + 1 + Z.of_nat (Z.to_nat (j - i - 1))) with j in Hall by lia.
  apply Z.ltb_lt, Hall, in_seq. lia.
Qed.

Lemma neverBalancesb_spec (s : jsstring) (i : Z) :
  neverBalancesb s i = true -> neverBalances s i.
Proof.
  unfold neverBalancesb, neverBalances. intros H.
  apply andb_true_iff in H as [Hc Hall]. split; [exact Hc|].
  apply staysOpenb_spec, Hall.
Qed.

Lemma countStaysOpenb_spec (s : jsstring) (i : Z) :
  countStaysOpenb s i = true -> countStaysOpen s i.
Proof.
  unfold countStaysOpenb, countStaysOpen. intros H.
  apply andb_true_iff in H as [Hc Hall]. split; [exact Hc|].
  apply staysOpenb_spec, Hall.
Qed.

(** Where the scan of [parseViewExpression] stops: after the first
    character that brings the count to zero or below, and at the end of
    the text when there is none. *)
Lemma parenScan_loop_spec (s : jsstring) :
  forall fuel j d,
    0 <= j -> j < len s -> len s - (j + 1) <= Z.of_nat fuel ->
    j < fst (parenScan_loop fuel s j d) <= len s
    /\ snd (parenScan_loop fuel s j d)
       = d + parenBalance (slice s j (fst (parenScan_loop fuel s j d)))
    /\ (forall m, j < m -> m < fst (parenScan_loop fuel s j d) ->
                  0 < d + parenBalance (slice s j m))
    /\ (snd (parenScan_loop fuel s j d) <= 0
        \/ fst (parenScan_loop fuel s j d) = len s).
Proof.
  induction fuel as [|fuel IH]; intros j d H0 Hj Hfuel;
    cbn [parenScan_loop]; rewrite parenScan_depth by lia.
  - cbn [fst snd]. split; [lia|]. split; [reflexivity|].
    split; [intros; lia|]. right. lia.
  - destruct ((j + 1 <? len s) && (d + parenBalance (slice s j (j + 1)) >? 0))
      eqn:E.
    + apply andb_true_iff in E as [E1 E2].
      destruct (IH (j + 1) (d + parenBalance (slice s j (j + 1)))
                  ltac:(lia) ltac:(lia) ltac:(lia)) as (Hr & Hd & Hm & Hstop).
      set (r := parenScan_loop fuel s (j + 1) (d + parenBalance (slice s j (j + 1))))
        in *.
      split; [lia|]. split; [|split; [|exact Hstop]].
      * rewrite Hd, <- Z.add_assoc, <- parenBalance_app, slice_app by lia.
        reflexivity.
      * intros m Hm1 Hm2.
        destruct (Z.eq_dec m (j + 1)) as [->|Hne]; [lia|].
        specialize (Hm m ltac:(lia) Hm2).
        rewrite <- Z.add_assoc, <- parenBalance_app, slice_app in Hm by lia.
        exact Hm.
    + cbn [fst snd]. apply andb_false_iff in E.
      split; [lia|]. split; [reflexivity|]. split; [intros; lia|].
      destruct E as [E|E]; [right; lia|left; lia].
Qed.

Lemma parenBalance_char (s : jsstring) (j : Z) :
  0 <= j -> j < len s -> -1 <= parenBalance (slice s j (j + 1)) <= 1.
Proof.
  intros H0 Hj. rewrite <- charStr_slice by lia.
  unfold charStr. destruct (charAt s j) as [c|] eqn:E.
  - cbn [parenBalance]. unfold parenStep.
    destruct (N.eqb c (chr "(")); [lia|]. destruct (N.eqb c (chr ")")); lia.
  - apply charAt_None in E; lia.
Qed.

Lemma parenScan_spec (s : jsstring) (i : Z) :
  charIs s i (chr "(") = true ->
  i < fst (parenScan s i) <= len s
  /\ (forall m, i < m -> m < fst (parenScan s i) -> 0 < parenBalance (slice s i m))
  /\ (parenBalance (slice s i (fst (parenScan s i))) = 0
      \/ (fst (parenScan s i) = len s
          /\ 0 < parenBalance (slice s i (fst (parenScan s i))))).
Proof.
  intros Hc. pose proof (charIs_bounds _ _ _ Hc) as Hi.
  unfold parenScan.
  destruct (parenScan_loop_spec s (Z.to_nat (len s - (i + 1))) i 0
              ltac:(lia) ltac:(lia) ltac:(lia)) as (Hr & Hd & Hm & Hstop).
  set (j := fst (parenScan_loop (Z.to_nat (len s - (i + 1))) s i 0)) in *.
  split; [exact Hr|]. split.
  { intros m Hm1 Hm2. specialize (Hm m Hm1 Hm2). lia. }
  assert (Hge : 0 <= parenBalance (slice s i j)).
  { destruct (Z.eq_dec j (i + 1)) as [E|Hne].
    - rewrite E, <- charStr_slice by lia. unfold charStr, charIs in *.
      destruct (charAt s i) as [c|]; [|discriminate].
      apply N.eqb_eq in Hc. subst c.
      change (parenBalance [chr "("]) with 1. lia.
    - specialize (Hm (j - 1) ltac:(lia) ltac:(lia)).
      pose proof (parenBalance_char s (j - 1) ltac:(lia) ltac:(lia)) as H1.
      replace (j - 1 + 1) with j in H1 by lia.
      rewrite <- (slice_app s i (j - 1) j), parenBalance_app by lia. lia. }
  destruct Hstop as [Hstop|Hstop]; [left; lia|].
  destruct (Z.eq_dec (parenBalance (slice s i j)) 0); [left; assumption|right; lia].
Qed.

(** The props are parsed from the text that the scan delimits. *)
Lemma parseViewExpression_with_args (parseChildren : Parser) (expr : jsstring)
    (node : ViewNode) :
  charIs (trim expr) (argsOpen (trim expr)) (chr "(") = true ->
  parseViewExpression_with parseChildren expr = Some node ->
  props node
  = Some (parsePropsFromArgs
            (slice (trim expr) (argsOpen (trim expr) + 1)
               (fst (parenScan (trim expr) (argsOpen (trim expr))) - 1))).
Proof.
  intros Hc H. pose proof (charIs_bounds _ _ _ Hc) as Hi.
  unfold parseViewExpression_with in H.
  rewrite Hc in H.
  replace (argsOpen (trim expr) <? len (trim expr)) with true in H by lia.
  cbn [andb] in H.
  destruct (bool_decide (baseKind (baseName (trim expr)) = ForEach)).
  - destruct (parseContentClosure parseChildren _ _) as [[kids j']|];
      cbn [mbind option_bind] in H; [|discriminate].
    match type of H with
    | (?m ≫= _) = Some _ =>
        destruct m as [[[? ?] ?]|]; cbn [mbind option_bind] in H; [|discriminate]
    end.
    injection H as <-. reflexivity.
  - cbn [mbind option_bind] in H.
    match type of H with
    | (?m ≫= _) = Some _ =>
        destruct m as [[[? ?] ?]|]; cbn [mbind option_bind] in H; [|discriminate]
    end.
    injection H as <-. reflexivity.
Qed.

Lemma argumentStart_no_parts (s : jsstring) :
  forall k, sa_parts (splitArgs_state k s) = [] -> argumentStart k s = 0.
Proof.
  induction k as [|k IH]; [reflexivity|].
  cbn [splitArgs_state argumentStart].
  destruct (sa_i (splitArgs_state k s) <? len s); cbn [andb]; [|exact IH].
  intros Hnil.
  destruct (splitArgs_step_parts s (splitArgs_state k s)) as [E|[_ E]].
  - rewrite bool_decide_eq_true_2 by exact E. cbn [negb].
    apply IH. congruence.
  - rewrite Hnil in E. symmetry in E. apply app_eq_nil in E as [_ E].
    discriminate.
Qed.

(** A text that is not blank has an argument. *)
Lemma splitArgs_nonempty (s : jsstring) :
  truthy (trim s) = true -> splitArgs s <> [].
Proof.
  intros Ht. rewrite (proj2 (splitArgs_parts s)). cbv zeta.
  destruct (sa_parts (splitArgs_state (length s) s)) as [|p parts] eqn:E.
  - rewrite (argumentStart_no_parts s _ E), slice_all, Ht. cbn [app].
    intros H. discriminate H.
  - clear Ht.
    destruct (truthy (trim (slice s _ _))); cbn [app]; intros H; discriminate H.
Qed.

Lemma truthy_nil (s : jsstring) : truthy s = false <-> s = [].
Proof. destruct s; simpl; split; congruence. Qed.

(** The props are empty exactly when the text of the arguments is
    blank. *)
Lemma parsePropsFromArgs_empty (argsText : jsstring) :
  parsePropsFromArgs argsText = [] <-> trim argsText = [].
Proof.
  unfold parsePropsFromArgs. split.
  - destruct (truthy argsText) eqn:E1; cbn [negb orb].
    + destruct (truthy (trim argsText)) eqn:E2; cbn [negb].
      * intros H. apply map_eq_nil in H.
        exfalso. exact (splitArgs_nonempty argsText E2 H).
      * intros _. apply truthy_nil, E2.
    + intros _. apply truthy_nil in E1. subst. reflexivity.
  - intros H. apply truthy_nil in H. rewrite H. cbn [negb].
    rewrite orb_true_r. reflexivity.
Qed.

Lemma parenBalance_steps (a b : jsstring) :
  map parenStep a = map parenStep b -> parenBalance a = parenBalance b.
Proof.
  revert b. induction a as [|x a IH]; intros [|y b] H; try discriminate;
    [reflexivity|].
  cbn [map] in H. injection H as Hxy Hab.
  cbn [parenBalance]. rewrite Hxy, (IH b Hab). reflexivity.
Qed.

Lemma slice_steps (a b : jsstring) (i j : Z) :
  map parenStep a = map parenStep b ->
  map parenStep (slice a i j) = map parenStep (slice b i j).
Proof.
  intros H.
  assert (Hlen : len a = len b).
  { unfold len. f_equal. rewrite <- (length_map parenStep a), H.
    apply length_map. }
  unfold slice, clampIndex. rewrite Hlen.
  rewrite <- !firstn_map, <- !skipn_map, H. reflexivity.
Qed.

(** When no parenthesis is in a literal or in a comment, a list that
    never balances keeps the count of the scan open. *)
Lemma neverBalances_count (s : jsstring) (i : Z) :
  neverBalances s i -> parensInCode s = true -> countStaysOpen s i.
Proof.
  intros [Hc Hopen] Hcode. split; [exact Hc|].
  apply bool_decide_eq_true in Hcode.
  intros j Hij Hj.
  rewrite <- (parenBalance_steps _ _ (slice_steps _ _ i j Hcode)).
  apply Hopen; [exact Hij|].
  unfold len in *. rewrite codeOnly_length. exact Hj.
Qed.

(** C3, counterexample. The argument lists of [Text(x, y] and of
    [parenInLiteral] never balance, and the props of the two nodes are
    not empty. In the second one the scan stops after the parenthesis
    of the literal, and the prop is the quote that opens the literal. *)
Lemma unbalanced_arguments_keep_props :
  (neverBalances (trim (lit "Text(x, y")) (argsOpen (trim (lit "Text(x, y")))
   /\ parseViewExpression (lit "Text(x, y")
      = Some (Node View (lit "Text") [] [] (Some [lit "x"])))
  /\ (neverBalances (trim parenInLiteral) (argsOpen (trim parenInLiteral))
      /\ fst (parenScan (trim parenInLiteral) (argsOpen (trim parenInLiteral))) = 7
      /\ parseViewExpression parenInLiteral
         = Some (Node View (lit "Text") [] [] (Some [[QUOTE]]))).
Proof.
  split; [split|split; [|split]].
  - apply neverBalancesb_spec. vm_compute. reflexivity.
  - vm_compute. reflexivity.
  - apply neverBalancesb_spec. vm_compute. reflexivity.
  - vm_compute. reflexivity.
  - vm_compute. reflexivity.
Qed.

(** C3, amended. An expression with an argument list, balanced or not,
    does not make the expression parser fail: the parser returns a node
    when the parsing of the nested blocks returns. The props of the node
    are parsed from the text between the opening parenthesis and the
    index before the one where the scan of the arguments stops. The scan
    counts all the parentheses, also those of string literals and of
    comments: it stops after the first closing parenthesis that brings
    the count to zero, and at the end of the text when there is none.
    The props are empty exactly when the text they are parsed from is
    blank. When the count does not return to zero the node is a leaf
    without modifiers, whatever the parser of nested blocks, and the
    props are parsed from the text between the opening parenthesis and
    the last character of the expression, that character left out. This
    is the case of a list that never balances when none of its
    parentheses is in a string literal or in a comment. *)
Theorem unbalanced_arguments_node (parseChildren : Parser) (expr : jsstring) :
  let s := trim expr in
  let i := argsOpen s in
  let j := fst (parenScan s i) in
  let argsContent := slice s (i + 1) (j - 1) in
  charIs s i (chr "(") = true ->
  (i < j <= len s
   /\ (forall m, i < m -> m < j -> 0 < parenBalance (slice s i m))
   /\ (parenBalance (slice s i j) = 0
       \/ (j = len s /\ 0 < parenBalance (slice s i j))))
  /\ ((forall b, (length b < length expr)%nat -> is_Some (parseChildren b)) ->
      exists node,
        parseViewExpression_with parseChildren expr = Some node
        /\ props node = Some (parsePropsFromArgs argsContent))
  /\ (forall node,
        parseViewExpression_with parseChildren expr = Some node ->
        props node = Some (parsePropsFromArgs argsContent))
  /\ (parsePropsFromArgs argsContent = [] <-> trim argsContent = [])
  /\ (countStaysOpen s i ->
      j = len s
      /\ parseViewExpression_with parseChildren expr =
           Some (Node (baseKind (baseName s)) (baseName s) [] []
                   (Some (parsePropsFromArgs (slice s (i + 1) (len s - 1))))))
  /\ (neverBalances s i -> parensInCode s = true -> countStaysOpen s i).
Proof.
  intros s i j argsContent Hc.
  pose proof (charIs_bounds _ _ _ Hc) as Hi.
  pose proof (parenScan_spec s i Hc) as Hscan. fold j in Hscan.
  split; [exact Hscan|]. split.
  { intros Hpc.
    destruct (parseViewExpression_with_total parseChildren expr Hpc) as [node H].
    exists node. split; [exact H|].
    apply (parseViewExpression_with_args parseChildren expr node Hc H). }
  split; [intros node H;
          apply (parseViewExpression_with_args parseChildren expr node Hc H)|].
  split; [apply parsePropsFromArgs_empty|].
  split; [|apply neverBalances_count].
  intros [_ Hopen].
  assert (Hj : j = len s).
  { destruct Hscan as (Hr & _ & [H0|[H1 _]]); [|exact H1].
    specialize (Hopen j ltac:(lia) ltac:(lia)). lia. }
  split; [exact Hj|].
  unfold parseViewExpression_with. fold s. fold i. fold j.
  rewrite Hc. replace (i <? len s) with true by lia. cbn [andb].
  rewrite Hj.
  assert (Hclosure : parseContentClosure parseChildren s (len s) = Some ([], len s)).
  { unfold parseContentClosure. rewrite sliceFrom_end. reflexivity. }
  rewrite Hclosure.
  assert (Hargs :
    (if bool_decide (baseKind (baseName s) = ForEach)
     then Some (parsePropsFromArgs (slice s (i + 1) (len s - 1)),
                @nil ViewNode, len s)
     else Some (parsePropsFromArgs (slice s (i + 1) (len s - 1)), [], len s))
    = Some (parsePropsFromArgs (slice s (i + 1) (len s - 1)), [], len s))
    by (destruct (bool_decide _); reflexivity).
  cbn [mbind option_bind]. rewrite Hargs. cbn [mbind option_bind].
  rewrite skipWhile_end, Z.ltb_irrefl. cbn [andb mbind option_bind].
  rewrite sliceFrom_end. reflexivity.
Qed.

Lemma unbalanced_arguments_node_witness :
  parseViewExpression (lit "VStack(spacing: 8, alignment: .leading") =
    Some (Node Container (lit "VStack") [] []
            (Some [lit "spacing: 8"; lit "alignment: .leadin"])).
Proof.
  unfold parseViewExpression.
  destruct (unbalanced_arguments_node parseChildrenBlock
              (lit "VStack(spacing: 8, alignment: .leading")
              ltac:(vm_compute; reflexivity)) as (_ & _ & _ & _ & Hleaf & Hcount).
  destruct Hleaf as [_ ->].
  - apply Hcount; [apply neverBalancesb_spec|]; vm_compute; reflexivity.
  - vm_compute. reflexivity.
Defined.
